(** * Backtesting engine: execution model, portfolio ledger and metrics

    A shallow embedding of [backtester/models.py], [backtester/execution.py],
    [backtester/strategy.py], [backtester/portfolio.py],
    [backtester/metrics.py], the checks of [backtester/data.py] on the bars
    it has read and the run of [backtester/cli.py] between reading the data
    and writing the report, with the properties the specification states
    about them and further properties of the code.

    Modelling conventions.
    - A [decimal.Decimal] is modelled by its value, a canonical rational
      ([Qc]).  The arithmetic is that of the default context: [+], [-],
      [*] and [/] compute the exact result of their operands and round it
      to 28 significant digits, half to even ([Decimal_add],
      [Decimal_sub], [Decimal_mul], [Decimal_div], written [⊕], [⊖], [⊗],
      [⊘]); the comparisons, [copy_abs] and the constructor from a literal
      are exact.  The exponent of a value is not bounded, so the
      [Overflow] and [Underflow] signals of the context are not part of
      the model.
    - A [dict] is the list of its items in insertion order.
    - A [float] is modelled by the real number it stands for, and the
      rounding of a floating-point operation or conversion by a function
      [rnd] on the reals, which the properties constrain where they need
      to.
    - A raised exception is a value of [exn]; an operation that can raise
      returns a [result].  A method that mutates its object is a function
      from the object before the call to the outcome and the object after
      the call, whether or not it raised.
    - A [str] is a [string] whose characters are code points below 256.
    - A [datetime] is an integer ordinal.
    - A field name that several classes share carries the class as a
      prefix outside [Trade]: [order_side], [pos_quantity],
      [snap_timestamp], [bar_timestamp]. *)

From Stdlib Require Import Ascii String QArith Qcanon Qcabs Qround Qpower.
From Stdlib Require Import Reals Qreals Psatz.
From stdpp Require Import base numbers option list strings gmap fin_maps.
From stdpp Require Import pretty sorting.

Local Open Scope Qc_scope.

(** ** Decimal values *)

Abbreviation Decimal := Qc (only parsing).
Abbreviation datetime := Z (only parsing).

(** [Decimal("n")] for an integer literal and [Decimal("n") / Decimal("d")]
    written as one literal. *)
Definition dec (n : Z) : Decimal := Q2Qc (inject_Z n).
Definition decq (n : Z) (d : positive) : Decimal := Q2Qc (n # d).

(** *** The arithmetic context

    The result of an operation is rounded to [prec] significant digits
    with [ROUND_HALF_EVEN]. *)

(** The integer nearest to [s], the even one of the two when [s] is
    half-way between them. *)
Definition round_half_even (s : Q) : Z :=
  let k := Qfloor s in
  match (s - inject_Z k ?= 1 # 2)%Q with
  | Lt => k
  | Gt => (k + 1)%Z
  | Eq => if Z.even k then k else (k + 1)%Z
  end.

(** The number of decimal digits of [n > 0]. *)
Fixpoint digits_fuel (fuel : nat) (n : Z) : Z :=
  match fuel with
  | O => 0
  | S fuel' =>
      if (n <? 10)%Z then 1 else (1 + digits_fuel fuel' (n / 10))%Z
  end.

Definition digits10 (n : Z) : Z :=
  digits_fuel (S (Z.to_nat (Z.log2 n))) n.

(** The exponent of the leading digit of [x > 0]: the [e] with
    [10^e <= x < 10^(e+1)]. *)
Definition floor_log10 (x : Q) : Z :=
  let t := (digits10 (Qnum x) - digits10 (Zpos (Qden x)))%Z in
  if Qle_bool (10 ^ t) x then t else (t - 1)%Z.

(** [x > 0] rounded to [p] significant digits. *)
Definition round_positive (p : Z) (x : Q) : Q :=
  let e := (floor_log10 x - (p - 1))%Z in
  (inject_Z (round_half_even (x / 10 ^ e)) * 10 ^ e)%Q.

Definition round_digits_Q (p : Z) (x : Q) : Q :=
  match (x ?= 0)%Q with
  | Gt => round_positive p x
  | Lt => (- round_positive p (- x))%Q
  | Eq => 0%Q
  end.

Definition round_digits (p : Z) (x : Decimal) : Decimal :=
  Q2Qc (round_digits_Q p x).

(** [getcontext().prec] *)
Definition prec : Z := 28.

(** What an arithmetic operation does to its exact result. *)
Definition context_round (x : Decimal) : Decimal := round_digits prec x.

(** [x + y], [x - y], [x * y] and, for [y] other than zero, [x / y]. *)
Definition Decimal_add (x y : Decimal) : Decimal := context_round (x + y).
Definition Decimal_sub (x y : Decimal) : Decimal := context_round (x - y).
Definition Decimal_mul (x y : Decimal) : Decimal := context_round (x * y).
Definition Decimal_div (x y : Decimal) : Decimal := context_round (x / y).

Arguments context_round : simpl never.
Arguments Decimal_add : simpl never.
Arguments Decimal_sub : simpl never.
Arguments Decimal_mul : simpl never.
Arguments Decimal_div : simpl never.

Infix "⊕" := Decimal_add (at level 50, left associativity) : Qc_scope.
Infix "⊖" := Decimal_sub (at level 50, left associativity) : Qc_scope.
Infix "⊗" := Decimal_mul (at level 40, left associativity) : Qc_scope.
Infix "⊘" := Decimal_div (at level 40, left associativity) : Qc_scope.

(** ** Exceptions and results *)

Inductive exn : Type :=
  | ValueError (msg : string)
  | KeyError (key : string)
  | IndexError
  | DivisionByZero
  | InvalidOperation.

Inductive result (A : Type) : Type :=
  | Ok (a : A)
  | Raise (e : exn).
Arguments Ok {A} a.
Arguments Raise {A} e.

Definition result_bind {A B} (r : result A) (k : A → result B) : result B :=
  match r with
  | Ok a => k a
  | Raise e => Raise e
  end.

Declare Scope result_scope.
Delimit Scope result_scope with result.
Notation "'do' x <- r ; k" := (result_bind r (fun x => k))
  (at level 10, x name, r at level 100, k at level 200) : result_scope.
Notation "'check' r ; k" := (result_bind r (fun _ : unit => k))
  (at level 10, r at level 100, k at level 200) : result_scope.

(** [if cond: raise e], followed by the rest of the function. *)
Definition raise_if (cond : bool) (e : exn) : result unit :=
  if cond then Raise e else Ok tt.

(** [x / y] on decimals, with the two signals of a zero divisor, which the
    default context traps; the quotient is rounded. *)
Definition Decimal_truediv (x y : Decimal) : result Decimal :=
  if decide (y = 0) then
    if decide (x = 0) then Raise InvalidOperation else Raise DivisionByZero
  else Ok (x ⊘ y).

(** [x < y], [x <= y] and [x == y] as booleans. *)
Definition ltb (x y : Decimal) : bool := bool_decide (x < y).
Definition leb (x y : Decimal) : bool := bool_decide (x ≤ y).
Definition eqb (x y : Decimal) : bool := bool_decide (x = y).

(** The builtins [max(a, b)] and [min(a, b)]: the first argument wins ties. *)
Definition py_max (a b : Decimal) : Decimal := if ltb a b then b else a.
Definition py_min (a b : Decimal) : Decimal := if ltb b a then b else a.

(** [Decimal.copy_abs]: the sign is cleared, nothing is rounded. *)
Definition copy_abs (x : Decimal) : Decimal := Qcabs x.

(** ** Strings: [str.strip] *)

(** [str.isspace] on one character (code points below 256). *)
Definition isspace (c : ascii) : bool :=
  let n := nat_of_ascii c in
  ((9 <=? n) && (n <=? 13)) || ((28 <=? n) && (n <=? 32))
  || (n =? 133) || (n =? 160).

Fixpoint lstrip (s : string) : string :=
  match s with
  | EmptyString => EmptyString
  | String c s' => if isspace c then lstrip s' else s
  end.

Fixpoint rstrip (s : string) : string :=
  match s with
  | EmptyString => EmptyString
  | String c s' =>
      match rstrip s' with
      | EmptyString => if isspace c then EmptyString else String c EmptyString
      | r => String c r
      end
  end.

Definition strip (s : string) : string := rstrip (lstrip s).

(** Truth value of a [str]: [not s] holds for the empty string only. *)
Definition str_not (s : string) : bool :=
  match s with EmptyString => true | String _ _ => false end.

(** ** Builtins on lists and integers *)

(** [sum(xs)] for decimals: the additions run from the left, from 0, and
    each of them rounds. *)
Definition py_sum (xs : list Decimal) : Decimal := foldl Decimal_add 0 xs.

(** The slices [l[start:]] and [l[:stop]]; a negative bound counts from the
    end and is clamped at the start of the list. *)
Definition slice_from {A} (start : Z) (l : list A) : list A :=
  if (start <? 0)%Z then drop (Z.to_nat (Z.of_nat (length l) + start)) l
  else drop (Z.to_nat start) l.

Definition slice_to {A} (stop : Z) (l : list A) : list A :=
  if (stop <? 0)%Z then take (Z.to_nat (Z.of_nat (length l) + stop)) l
  else take (Z.to_nat stop) l.

(** [str(n)] for an [int]. *)
Definition str_int (n : Z) : string := pretty n.

(** [l[i]] for an index [i >= 0]. *)
Definition getitem {A} (l : list A) (i : nat) : result A :=
  match l !! i with
  | Some x => Ok x
  | None => Raise IndexError
  end.

(** [sorted(l)] on a list of [datetime]s. *)
Definition sorted (l : list datetime) : list datetime := merge_sort Z.le l.

(** ** Dictionaries with [str] keys

    The items of a [dict] in insertion order.  [d[k] = v] overwrites the
    value of a key that is there and keeps its place, and puts a new key
    at the end; [del d[k]] takes the key out. *)
Record dict (V : Type) : Type := Dict { dict_items : list (string * V) }.
Arguments Dict {V} _.
Arguments dict_items {V} _.

Fixpoint items_get {V} (k : string) (l : list (string * V)) : option V :=
  match l with
  | [] => None
  | (k', v) :: l' => if decide (k' = k) then Some v else items_get k l'
  end.

Fixpoint items_set {V} (k : string) (v : V) (l : list (string * V))
    : list (string * V) :=
  match l with
  | [] => [(k, v)]
  | (k', v') :: l' =>
      if decide (k' = k) then (k, v) :: l' else (k', v') :: items_set k v l'
  end.

Definition items_del {V} (k : string) (l : list (string * V))
    : list (string * V) :=
  filter (λ kv, kv.1 ≠ k) l.

#[global] Instance dict_lookup {V} : Lookup string V (dict V) :=
  λ k d, items_get k (dict_items d).
#[global] Instance dict_empty {V} : Empty (dict V) := Dict [].

Definition dict_setitem {V} (k : string) (v : V) (d : dict V) : dict V :=
  Dict (items_set k v (dict_items d)).
Definition dict_delitem {V} (k : string) (d : dict V) : dict V :=
  Dict (items_del k (dict_items d)).

(** ** models.py *)

Module models.

Record Bar : Type := {
  bar_timestamp : datetime;
  open : Decimal;
  high : Decimal;
  low : Decimal;
  close : Decimal;
  volume : Z
}.

Definition Bar_post_init (self : Bar) : result unit :=
  (check raise_if (existsb (fun p => leb p 0)
                     [open self; close self; high self; low self])
          (ValueError "Prices must be positive!");
   check raise_if (ltb (high self) (py_max (open self) (close self)))
          (ValueError "High must be >= open and close.");
   check raise_if (ltb (py_min (open self) (close self)) (low self))
          (ValueError "Low must be <= open and close.");
   check raise_if (ltb (high self) (low self))
          (ValueError "High must be >= low.");
   check raise_if (Z.ltb (volume self) 0)
          (ValueError "Volume cannot be negative.");
   Ok tt)%result.

(** The members of the enumeration [Side]. *)
Inductive Side : Type := BUY | SELL.

(** What a field annotated [side: Side] can hold: the annotation is not
    enforced, so besides a member of [Side] it can be any other object,
    kept here by its [str()]. *)
Inductive side_value : Type :=
  | member (s : Side)
  | foreign (repr : string).

Coercion member : Side >-> side_value.

Record Order : Type := {
  order_timestamp : datetime;
  order_side : side_value;
  order_quantity : Decimal;
  order_symbol : string
}.

Definition Order_post_init (self : Order) : result unit :=
  (check raise_if (leb (order_quantity self) 0)
          (ValueError "Order quantity must be > 0.");
   check raise_if (str_not (strip (order_symbol self)))
          (ValueError "Order must contain a symbol.");
   Ok tt)%result.

Record Trade : Type := {
  timestamp : datetime;
  side : side_value;
  quantity : Decimal;
  price : Decimal;
  fee : Decimal;
  slippage : Decimal;
  symbol : string
}.

Definition Trade_post_init (self : Trade) : result unit :=
  (check raise_if (leb (quantity self) 0)
          (ValueError "Trade quantity must be > 0.");
   check raise_if (leb (price self) 0)
          (ValueError "Trade price must be > 0.");
   check raise_if (ltb (fee self) 0)
          (ValueError "Trade fee cannot be < 0.");
   check raise_if (ltb (slippage self) 0)
          (ValueError "Trade slippage cannot be < 0.");
   check raise_if (str_not (strip (symbol self)))
          (ValueError "Trade must contain a symbol.");
   Ok tt)%result.

Definition notional_value (self : Trade) : Decimal :=
  quantity self ⊗ price self.

Definition transaction_cost (self : Trade) : Decimal :=
  fee self ⊕ slippage self.

Record Position : Type := {
  pos_symbol : string;
  pos_quantity : Decimal;
  average_price : Decimal
}.

Definition Position_post_init (self : Position) : result unit :=
  (check raise_if (leb (pos_quantity self) 0)
          (ValueError "Position quantity must be > 0.");
   check raise_if (leb (average_price self) 0)
          (ValueError "Average price must be > 0.");
   check raise_if (str_not (strip (pos_symbol self)))
          (ValueError "Position must contain a symbol.");
   Ok tt)%result.

Record PortfolioSnapshot : Type := {
  snap_timestamp : datetime;
  snap_cash : Decimal;
  positions_value : Decimal
}.

Definition equity (self : PortfolioSnapshot) : Decimal :=
  snap_cash self ⊕ positions_value self.

(** Calling a dataclass: the generated [__init__] stores the fields and
    then runs [__post_init__]; the object exists only if that returns. *)
Definition construct {A} (post_init : A → result unit) (self : A)
    : result A :=
  (check post_init self; Ok self)%result.

Definition new_Bar := construct Bar_post_init.
Definition new_Order := construct Order_post_init.
Definition new_Trade := construct Trade_post_init.
Definition new_Position := construct Position_post_init.

End models.
Export models.

(** ** execution.py *)

Module execution.

Record ExecutionModel : Type := {
  fee_per_trade : Decimal;
  slippage_bps : Decimal;
  fill_trade_on : string
}.

Definition ExecutionModel_post_init (self : ExecutionModel) : result unit :=
  (check raise_if (ltb (slippage_bps self) 0)
          (ValueError "Slippage must be >= 0.");
   check raise_if (ltb (fee_per_trade self) 0)
          (ValueError "Fee must be >= 0.");
   Ok tt)%result.

Definition new_ExecutionModel := construct ExecutionModel_post_init.

(** [base_price] of [execute]. *)
Definition base_price (self : ExecutionModel) (bar : Bar) : Decimal :=
  if bool_decide (fill_trade_on self = "open") then open bar else close bar.

(** [slippage_rate] of [execute]; the divisor is the literal 10_000. *)
Definition slippage_rate (self : ExecutionModel) : Decimal :=
  slippage_bps self ⊘ dec 10000.

(** [fill_price] of [execute]. *)
Definition fill_price (self : ExecutionModel) (order : Order) (bar : Bar)
    : Decimal :=
  match order_side order with
  | member BUY => base_price self bar ⊗ (dec 1 ⊕ slippage_rate self)
  | _ => base_price self bar ⊗ (dec 1 ⊖ slippage_rate self)
  end.

Definition execute (self : ExecutionModel) (order : Order) (bar : Bar)
    : result Trade :=
  (check raise_if (leb (order_quantity order) 0)
          (ValueError "Order quantity must be > 0.");
   check raise_if (str_not (order_symbol order))
          (ValueError "Order symbol required.");
   let base_price := base_price self bar in
   let fill_price := fill_price self order bar in
   let slippage_cost :=
     copy_abs (fill_price ⊖ base_price) ⊗ order_quantity order in
   let fee := fee_per_trade self in
   new_Trade {| timestamp := bar_timestamp bar;
                side := order_side order;
                quantity := order_quantity order;
                price := fill_price;
                fee := fee;
                slippage := slippage_cost;
                symbol := order_symbol order |})%result.

End execution.
Export execution.

(** ** models.py: the enumeration [SignalType] *)

Module SignalType.

Inductive t : Type := BUY | SELL | HOLD.

End SignalType.

(** ** strategy.py *)

Module strategy.

Definition sma (bars : list Bar) (window : Z) : result Decimal :=
  (check raise_if (window <=? 0)%Z (ValueError "SMA window must be > 0.");
   check raise_if (Z.of_nat (length bars) <? window)%Z
           (ValueError ("Not enough data to compute SMA: requires "
                        +:+ str_int window +:+ " values, got "
                        +:+ str_int (Z.of_nat (length bars)) +:+ "."));
   let closes := map close (slice_from (- window) bars) in
   Ok (py_sum closes ⊘ dec window))%result.

Definition sma_crossover_strategy (bars : list Bar) (fast_w slow_w : Z)
    : result SignalType.t :=
  (check raise_if ((fast_w <=? 0)%Z || (slow_w <=? 0)%Z)
           (ValueError "SMA windows must be > 0.");
   check raise_if (fast_w >=? slow_w)%Z
           (ValueError "fast window must be < slow window.");
   if (Z.of_nat (length bars) <? slow_w + 1)%Z then Ok SignalType.HOLD
   else
     do fast_now <- sma bars fast_w;
     do slow_now <- sma bars slow_w;
     do fast_prev <- sma (slice_to (-1) bars) fast_w;
     do slow_prev <- sma (slice_to (-1) bars) slow_w;
     if leb fast_prev slow_prev && ltb slow_now fast_now then
       Ok SignalType.BUY
     else if leb slow_prev fast_prev && ltb fast_now slow_now then
       Ok SignalType.SELL
     else Ok SignalType.HOLD)%result.

End strategy.
Export strategy.

(** ** portfolio.py *)

Module portfolio.

Record Portfolio : Type := {
  cash : Decimal;
  equity_curve : list PortfolioSnapshot;
  positions : dict Position;
  trades : list Trade
}.

(** A method of [Portfolio]: from the object before the call to what the
    call returned or raised and the object after it. *)
Definition method (A : Type) : Type := Portfolio → result A * Portfolio.

Definition ret {A} (a : A) : method A := λ self, (Ok a, self).

Definition bind {A B} (m : method A) (k : A → method B) : method B :=
  λ self,
    match m self with
    | (Ok a, self') => k a self'
    | (Raise e, self') => (Raise e, self')
    end.

Definition raise {A} (e : exn) : method A := λ self, (Raise e, self).

(** An expression that can raise, evaluated inside a method. *)
Definition eval {A} (r : result A) : method A := λ self, (r, self).

Definition read {A} (f : Portfolio → A) : method A :=
  λ self, (Ok (f self), self).

(** [self.cash = v] *)
Definition set_cash (v : Decimal) : method unit :=
  λ self, (Ok tt, {| cash := v; equity_curve := equity_curve self;
                     positions := positions self; trades := trades self |}).

(** [self.positions[k] = p] *)
Definition setitem_positions (k : string) (p : Position) : method unit :=
  λ self, (Ok tt, {| cash := cash self; equity_curve := equity_curve self;
                     positions := dict_setitem k p (positions self);
                     trades := trades self |}).

(** [del self.positions[k]] *)
Definition delitem_positions (k : string) : method unit :=
  λ self,
    match positions self !! k with
    | None => (Raise (KeyError k), self)
    | Some _ =>
        (Ok tt, {| cash := cash self; equity_curve := equity_curve self;
                   positions := dict_delitem k (positions self);
                   trades := trades self |})
    end.

(** [self.trades.append(t)] *)
Definition append_trades (t : Trade) : method unit :=
  λ self, (Ok tt, {| cash := cash self; equity_curve := equity_curve self;
                     positions := positions self;
                     trades := trades self ++ [t] |}).

(** [self.equity_curve.append(s)] *)
Definition append_equity_curve (s : PortfolioSnapshot) : method unit :=
  λ self, (Ok tt, {| cash := cash self;
                     equity_curve := equity_curve self ++ [s];
                     positions := positions self; trades := trades self |}).

#[global] Instance method_ret : MRet method := @ret.
#[global] Instance method_bind : MBind method := λ A B k m, bind m k.

Definition apply_trade (trade : Trade) : method unit :=
  (match side trade with
    | member BUY =>
        let amount := notional_value trade ⊕ fee trade ⊕ slippage trade in
        c ← read cash;
        if ltb c amount then
          raise (ValueError "Insufficient cash to execute BUY trade.")
        else set_cash (c ⊖ amount)
    | member SELL =>
        let amount := notional_value trade ⊖ fee trade ⊖ slippage trade in
        c ← read cash;
        set_cash (c ⊕ amount)
    | foreign repr =>
        raise (ValueError ("Unsupported trade side: " +:+ repr))
    end);;
   position ← read (λ self, positions self !! symbol trade);
   (match side trade with
    | member BUY =>
        match position with
        | None =>
            p ← eval (new_Position {| pos_symbol := symbol trade;
                                       pos_quantity := quantity trade;
                                       average_price := price trade |});
            setitem_positions (symbol trade) p
        | Some position =>
            let new_quantity := pos_quantity position ⊕ quantity trade in
            new_average_price ←
              eval (Decimal_truediv
                      (average_price position ⊗ pos_quantity position
                       ⊕ price trade ⊗ quantity trade)
                      new_quantity);
            p ← eval (new_Position {| pos_symbol := symbol trade;
                                       pos_quantity := new_quantity;
                                       average_price := new_average_price |});
            setitem_positions (symbol trade) p
        end
    | _ =>
        match position with
        | None => raise (ValueError "Cannot sell more than existing position.")
        | Some position =>
            if ltb (pos_quantity position) (quantity trade) then
              raise (ValueError "Cannot sell more than existing position.")
            else
              let new_quantity := pos_quantity position ⊖ quantity trade in
              if eqb new_quantity 0 then delitem_positions (symbol trade)
              else
                p ← eval (new_Position
                             {| pos_symbol := symbol trade;
                                pos_quantity := new_quantity;
                                average_price := average_price position |});
                setitem_positions (symbol trade) p
        end
    end);;
   append_trades trade.

(** The loop of [mark_to_market] over [self.positions.items()], with its
    variable [positions_value]. *)
Fixpoint sum_positions (items : list (string * Position))
    (close_prices : gmap string Decimal) (positions_value : Decimal)
    : result Decimal :=
  match items with
  | [] => Ok positions_value
  | (symbol, position) :: items' =>
      match close_prices !! symbol with
      | None =>
          Raise (ValueError ("Missing close price for symbol: "
                             +:+ symbol +:+ "."))
      | Some price =>
          sum_positions items' close_prices
            (positions_value ⊕ pos_quantity position ⊗ price)
      end
  end.

Definition mark_to_market (timestamp : datetime)
    (close_prices : gmap string Decimal) : method PortfolioSnapshot :=
  items ← read (λ self, dict_items (positions self));
  positions_value ← eval (sum_positions items close_prices (dec 0));
  c ← read cash;
  let snapshot := {| snap_timestamp := timestamp;
                     snap_cash := c;
                     positions_value := positions_value |} in
  append_equity_curve snapshot;;
  ret snapshot.

End portfolio.
Export portfolio.

(** ** metrics.py *)

Module metrics.

Definition total_return (equity_curve : list PortfolioSnapshot)
    : result Decimal :=
  match equity_curve with
  | [] => Raise (ValueError "Equity curve does not yet contain any values.")
  | first :: _ =>
      let final_equity := equity (List.last equity_curve first) in
      let initial_equity := equity first in
      if eqb initial_equity 0 then
        Raise (ValueError "Initial equity must be > 0.")
      else Ok ((final_equity ⊖ initial_equity) ⊘ initial_equity)
  end.

(** The loop [for i in range(1, len(self.equity_curve))] of
    [returns_series], over the indices still to visit. *)
Fixpoint returns_loop (equity_curve : list PortfolioSnapshot)
    (indices : list nat) (returns : list (datetime * Decimal))
    : result (list (datetime * Decimal)) :=
  match indices with
  | [] => Ok returns
  | i :: indices' =>
      match equity_curve !! (i - 1)%nat, equity_curve !! i with
      | Some previous, Some current =>
          let previous_equity := equity previous in
          let current_equity := equity current in
          let timestamp := snap_timestamp current in
          if eqb previous_equity 0 then
            Raise (ValueError "Previous equity must not be = 0.")
          else
            let r_t := current_equity ⊘ previous_equity ⊖ dec 1 in
            returns_loop equity_curve indices' (returns ++ [(timestamp, r_t)])
      | _, _ => Raise IndexError
      end
  end.

Definition returns_series (equity_curve : list PortfolioSnapshot)
    : result (list (datetime * Decimal)) :=
  if (length equity_curve <? 2)%nat then Ok []
  else returns_loop equity_curve (seq 1 (length equity_curve - 1)) [].

(** The loop of [max_drawdown] with its two variables. *)
Fixpoint max_drawdown_loop (running_max worst_drawdown : Decimal)
    (snapshots : list PortfolioSnapshot) : Decimal :=
  match snapshots with
  | [] => worst_drawdown
  | snapshot :: snapshots' =>
      let equity := equity snapshot in
      let running_max := if ltb running_max equity then equity
                         else running_max in
      if eqb running_max 0 then
        max_drawdown_loop running_max worst_drawdown snapshots'
      else
        let drawdown := (equity ⊖ running_max) ⊘ running_max in
        let worst_drawdown := if ltb drawdown worst_drawdown then drawdown
                              else worst_drawdown in
        max_drawdown_loop running_max worst_drawdown snapshots'
  end.

(** The variable [worst_drawdown] of [max_drawdown] when the loop has
    ended ([Decimal("0")] on the empty curve, which the function does not
    loop over). *)
Definition worst_drawdown (equity_curve : list PortfolioSnapshot) : Decimal :=
  match equity_curve with
  | [] => dec 0
  | first :: _ => max_drawdown_loop (equity first) (dec 0) equity_curve
  end.

(** *** Floating point

    A [float] is modelled by the real number it stands for, and the
    rounding of each floating-point operation by [rnd], the function
    that sends a real to the nearest float.  [statistics.mean] and
    [statistics.pstdev] compute over exact fractions and round once. *)
Section floats.

Variable rnd : R → R.

(** [float(r)] for a decimal [r]. *)
Definition float_of_decimal (r : Decimal) : R := rnd (Q2R r).

(** Exact sum of the data as a fraction. *)
Definition exact_sum (values : list R) : R := foldr Rplus 0%R values.

(** [statistics.mean(values)]. *)
Definition mean (values : list R) : R :=
  rnd (exact_sum values / INR (length values)).

(** [statistics.pstdev(values)]: the sum of squared deviations is
    [(n * sxx - sx * sx) / n], the variance is that over [n], and the
    result is its square root, rounded. *)
Definition pstdev (values : list R) : R :=
  let n := INR (length values) in
  let sx := exact_sum values in
  let sxx := exact_sum (map (λ x, x * x)%R values) in
  let ss := ((n * sxx - sx * sx) / n)%R in
  let mss := (ss / n)%R in
  rnd (sqrt mss).

(** [max_drawdown]: [0.0] for the empty curve, [float(worst_drawdown)]
    otherwise. *)
Definition max_drawdown (equity_curve : list PortfolioSnapshot) : R :=
  match equity_curve with
  | [] => 0%R
  | _ :: _ => float_of_decimal (worst_drawdown equity_curve)
  end.

(** [math.sqrt(n)] for an [int]. *)
Definition math_sqrt (n : Z) : result R :=
  if (n <? 0)%Z then Raise (ValueError "math domain error")
  else Ok (rnd (sqrt (rnd (IZR n)))).

Definition sharpe_ratio (equity_curve : list PortfolioSnapshot)
    (periods_per_year : Z) : result R :=
  (do returns <- returns_series equity_curve;
   let values := map (λ tr, float_of_decimal (snd tr)) returns in
   if (length values =? 0)%nat then Ok 0%R
   else
     let mean_return := mean values in
     let sigma := pstdev values in
     if Req_dec_T sigma 0 then Ok 0%R
     else
       do root <- math_sqrt periods_per_year;
       Ok (rnd (rnd (mean_return / sigma) * root)))%result.

Definition annualised_volatility (equity_curve : list PortfolioSnapshot)
    (periods_per_year : Z) : result R :=
  (do returns <- returns_series equity_curve;
   let values := map (λ tr, float_of_decimal (snd tr)) returns in
   if (length values =? 0)%nat then Ok 0%R
   else
     let volatility_per_period := pstdev values in
     do root <- math_sqrt periods_per_year;
     Ok (rnd (volatility_per_period * root)))%result.

(** [win_rate]: the division of two [int]s is one rounded quotient. *)
Definition win_rate (realised_pnls : list Decimal) : R :=
  if (length realised_pnls =? 0)%nat then 0%R
  else
    let wins := length (filter (λ pnl, 0 < pnl) realised_pnls) in
    rnd (INR wins / INR (length realised_pnls)).

End floats.

Definition average_win_loss (realised_pnls : list Decimal)
    : option Decimal * option Decimal :=
  let wins := filter (λ pnl, 0 < pnl) realised_pnls in
  let losses := filter (λ pnl, pnl < 0) realised_pnls in
  let average_win :=
    match wins with
    | [] => None
    | _ => Some (py_sum wins ⊘ dec (Z.of_nat (length wins)))
    end in
  let average_loss :=
    match losses with
    | [] => None
    | _ => Some (py_sum losses ⊘ dec (Z.of_nat (length losses)))
    end in
  (average_win, average_loss).

End metrics.
Export metrics.

(** ** data.py *)

Module data.

(** [load_bars], from the list [bars] that the loop over the rows of the
    file has built to the end of the function: the checks that the data
    are there, that no timestamp comes twice and that the bars are in
    ascending order. *)
Definition load_bars_checks (bars : list Bar) : result (list Bar) :=
  (check raise_if (match bars with [] => true | _ => false end)
           (ValueError "No bar data located.");
   let timestamps := map bar_timestamp bars in
   check raise_if
           (negb (length timestamps
                  =? size (list_to_set timestamps : gset datetime))%nat)
           (ValueError "Duplicate timestamps detected in input.");
   check raise_if (negb (bool_decide (timestamps = sorted timestamps)))
           (ValueError "Bars must be sorted by ascending timestamp.");
   Ok bars)%result.

End data.
Export data.

(** ** cli.py *)

Module cli.

(** The options of [parse_args] that the run reads. *)
Record Namespace : Type := {
  args_cash : Decimal;
  args_symbol : string;
  args_quantity : Decimal;
  args_slippage_bps : Decimal;
  args_fee : Decimal;
  args_fill_trade_on : string;
  args_fast_window : Z;
  args_slow_window : Z
}.

(** [portfolio.positions[k]] *)
Definition getitem_positions (k : string) : method Position :=
  λ portfolio,
    match positions portfolio !! k with
    | Some position => (Ok position, portfolio)
    | None => (Raise (KeyError k), portfolio)
    end.

(** The body of the loop of [main], for the index [i]. *)
Definition main_body (args : Namespace) (exec_model : ExecutionModel)
    (bars : list Bar) (i : nat) : method unit :=
  previous_bar ← eval (getitem bars (i - 1));
  bar ← eval (getitem bars i);
  signal ← eval (sma_crossover_strategy (slice_to (Z.of_nat i) bars)
                   (args_fast_window args) (args_slow_window args));
  has_position ←
    read (λ portfolio,
            bool_decide (is_Some (positions portfolio !! args_symbol args)));
  order ←
    match signal, has_position with
    | SignalType.BUY, false =>
        order ← eval (new_Order
                        {| order_timestamp := bar_timestamp previous_bar;
                           order_side := BUY;
                           order_quantity := args_quantity args;
                           order_symbol := args_symbol args |});
        mret (Some order)
    | SignalType.SELL, true =>
        position ← getitem_positions (args_symbol args);
        order ← eval (new_Order
                        {| order_timestamp := bar_timestamp previous_bar;
                           order_side := SELL;
                           order_quantity := pos_quantity position;
                           order_symbol := args_symbol args |});
        mret (Some order)
    | _, _ => mret None
    end;
  match order with
  | Some order =>
      trade ← eval (execute exec_model order bar);
      apply_trade trade
  | None => mret tt
  end;;
  mark_to_market (bar_timestamp bar) {[args_symbol args := close bar]};;
  mret tt.

(** The loop [for i in range(1, len(bars))], over the indices still to
    visit. *)
Fixpoint main_loop (body : nat → method unit) (indices : list nat)
    : method unit :=
  match indices with
  | [] => mret tt
  | i :: indices' => body i;; main_loop body indices'
  end.

(** [main], from the bars that [load_bars] has returned to the portfolio
    that the metrics and the report are computed from. *)
Definition main_backtest (args : Namespace) (bars : list Bar)
    : result Portfolio :=
  (check raise_if ((args_fast_window args <=? 0)%Z
                   || (args_slow_window args <=? 0)%Z)
           (ValueError "SMA windows must be > 0.");
   check raise_if (args_fast_window args >=? args_slow_window args)%Z
           (ValueError "fast window must be < slow window.");
   do exec_model <- new_ExecutionModel
                      {| slippage_bps := args_slippage_bps args;
                         fee_per_trade := args_fee args;
                         fill_trade_on := args_fill_trade_on args |};
   let portfolio := {| cash := args_cash args; equity_curve := [];
                       positions := ∅; trades := [] |} in
   match main_loop (main_body args exec_model bars)
           (seq 1 (length bars - 1)) portfolio with
   | (Ok _, portfolio) => Ok portfolio
   | (Raise e, _) => Raise e
   end)%result.

End cli.
Export cli.

(** * Vocabulary of the properties *)

(** ** Portfolio *)

(** What a BUY debits and what a SELL credits. *)
Definition buy_amount (t : Trade) : Decimal :=
  notional_value t ⊕ fee t ⊕ slippage t.
Definition sell_amount (t : Trade) : Decimal :=
  notional_value t ⊖ fee t ⊖ slippage t.

(** A decimal that the context leaves as it is: it has at most 28
    significant digits. *)
Definition representable (x : Decimal) : Prop := context_round x = x.

(** The invariant of a holding, and of the holding set. *)
Definition position_ok (p : Position) : Prop :=
  0 < pos_quantity p ∧ 0 < average_price p.

Definition holdings_ok (pf : Portfolio) : Prop :=
  Forall (λ item, position_ok item.2) (dict_items (positions pf)).

(** A fresh portfolio: [Portfolio(cash = c)]. *)
Definition fresh (c : Decimal) : Portfolio :=
  {| cash := c; equity_curve := []; positions := ∅; trades := [] |}.

(** The states a run can be in: a fresh portfolio with some starting cash,
    then any sequence of calls, each kept whether it returned or raised. *)
Inductive reachable : Portfolio → Prop :=
  | reach_fresh c :
      reachable (fresh c)
  | reach_apply_trade pf trade :
      reachable pf → reachable (snd (apply_trade trade pf))
  | reach_mark_to_market pf timestamp close_prices :
      reachable pf →
      reachable (snd (mark_to_market timestamp close_prices pf)).

(** ** Metrics *)

Definition raises_ValueError {A} (r : result A) : Prop :=
  ∃ msg, r = Raise (ValueError msg).

(** The period return of [returns_series] for two consecutive snapshots,
    and the entry for index [i] of a curve. *)
Definition period_return (prev cur : PortfolioSnapshot)
    : datetime * Decimal :=
  (snap_timestamp cur, equity cur ⊘ equity prev ⊖ dec 1).

Definition is_period_return (ec : list PortfolioSnapshot) (i : nat)
    (r : datetime * Decimal) : Prop :=
  ∃ prev cur,
    ec !! (i - 1)%nat = Some prev ∧ ec !! i = Some cur
    ∧ r = period_return prev cur.

Definition prior_equity_zero (ec : list PortfolioSnapshot) (i : nat) : Prop :=
  equity <$> ec !! (i - 1)%nat = Some 0.

#[local] Instance prior_equity_zero_dec ec i :
  Decision (prior_equity_zero ec i).
Proof. unfold prior_equity_zero. apply _. Defined.

Definition index_in_range (ec : list PortfolioSnapshot) (i : nat) : Prop :=
  (1 ≤ i < length ec)%nat.

(** Drawdown, as the specification words it.  The running peak at snapshot
    [i] is the largest equity among snapshots [0..i]; a drawdown value is
    [(equity - peak) / peak], in the arithmetic of the context, at a
    snapshot whose running peak is > 0. *)
Definition is_maximum (m : Decimal) (xs : list Decimal) : Prop :=
  m ∈ xs ∧ ∀ x, x ∈ xs → x ≤ m.

Definition is_running_peak (ec : list PortfolioSnapshot) (i : nat)
    (peak : Decimal) : Prop :=
  is_maximum peak (equity <$> take (S i) ec).

Definition is_drawdown (ec : list PortfolioSnapshot) (d : Decimal) : Prop :=
  ∃ i snapshot peak,
    ec !! i = Some snapshot ∧ is_running_peak ec i peak ∧ 0 < peak
    ∧ d = (equity snapshot ⊖ peak) ⊘ peak.


(** Two views of the loop of [max_drawdown] used in the proofs: the
    drawdown values it meets from a state with running maximum [rm] (one
    for every snapshot at which the updated maximum is > 0), and a curve
    that never falls below the running maximum [rm] it starts from. *)
Fixpoint loop_drawdowns (rm : Decimal) (l : list PortfolioSnapshot)
    : list Decimal :=
  match l with
  | [] => []
  | s :: l' =>
      let rm' := py_max rm (equity s) in
      (if ltb 0 rm' then [(equity s ⊖ rm') ⊘ rm'] else [])
      ++ loop_drawdowns rm' l'
  end.


(** ** Inputs of the test suite *)

(** [_trade(...)] of test_portfolio.py, on symbol AAPL without costs. *)
Definition plain_trade (ts : datetime) (s : Side) (q p : Z) : Trade :=
  {| timestamp := ts; side := s; quantity := dec q; price := dec p;
     fee := dec 0; slippage := dec 0; symbol := "AAPL" |}.

(** [_bar(...)] and [_order(...)] of test_execution.py, and a model with
    the given slippage, no fee, filling at the open. *)
Definition test_bar (ts : datetime) (o c : Z) : Bar :=
  {| bar_timestamp := ts; open := dec o; high := py_max (dec o) (dec c);
     low := py_min (dec o) (dec c); close := dec c; volume := 1 |}.

Definition test_order (ts : datetime) (s : Side) (q : Z) : Order :=
  {| order_timestamp := ts; order_side := s; order_quantity := dec q;
     order_symbol := "AAPL" |}.

Definition model_bps (bps : Z) : ExecutionModel :=
  {| fee_per_trade := dec 0; slippage_bps := dec bps;
     fill_trade_on := "open" |}.

(** [_snapshot(timestamp, equity)] of test_metrics.py, and the curve made
    of the given equities on consecutive days. *)
Definition test_snapshot (ts : datetime) (e : Z) : PortfolioSnapshot :=
  {| snap_timestamp := ts; snap_cash := dec e; positions_value := dec 0 |}.

Definition curve (es : list Z) : list PortfolioSnapshot :=
  imap (λ i e, test_snapshot (Z.of_nat i) e) es.

(** ** Further vocabulary *)

(** The value of a list of holdings at the given prices (a holding without
    a price counts for nothing): the values of the holdings are added up
    from the left, from 0, in the arithmetic of the context. *)
Definition holding_value (prices : gmap string Decimal)
    (item : string * Position) : Decimal :=
  pos_quantity item.2 ⊗ default 0 (prices !! item.1).

Definition items_value (prices : gmap string Decimal)
    (items : list (string * Position)) : Decimal :=
  foldl (λ acc item, acc ⊕ holding_value prices item) 0 items.

(** The bars [_bar(ts, close)] of test_strategy.py: open, high, low and
    close are all the given value. *)
Definition flat_bar (ts : datetime) (c : Decimal) : Bar :=
  {| bar_timestamp := ts; open := c; high := c; low := c; close := c;
     volume := 1 |}.

(** The last [n] elements of a list. *)
Definition last_n {A} (n : nat) (l : list A) : list A :=
  drop (length l - n) l.

(** ** The run of [main] *)

(** The holdings during a run: none, or the traded symbol alone, in the
    traded quantity. *)
Inductive run_holdings (args : Namespace) (pf : Portfolio) : Prop :=
  | run_flat :
      positions pf = ∅ → run_holdings args pf
  | run_long p :
      positions pf = Dict [(args_symbol args, p)] →
      pos_quantity p = args_quantity args →
      0 < args_quantity args → 0 < average_price p →
      strip (args_symbol args) ≠ "" →
      run_holdings args pf.

(** Whether a log of trade sides, read from a flat ([false]) or a long
    ([true]) start, ends long; [None] when a BUY follows a BUY, a SELL
    follows a SELL or a flat start, or a side is no member of [Side]. *)
Fixpoint position_after (long : bool) (sides : list side_value)
    : option bool :=
  match sides with
  | [] => Some long
  | member BUY :: sides' =>
      if long then None else position_after true sides'
  | member SELL :: sides' =>
      if long then position_after false sides' else None
  | foreign _ :: _ => None
  end.

(** What a trade does to cash, and cash after the trades of a log, one
    after the other: a BUY takes its amount out, a SELL puts its amount
    in, each in the arithmetic of the context. *)
Definition cash_move (c : Decimal) (t : Trade) : Decimal :=
  match side t with
  | member BUY => c ⊖ buy_amount t
  | member SELL => c ⊕ sell_amount t
  | foreign _ => c
  end.

Definition cash_after (c : Decimal) (ts : list Trade) : Decimal :=
  foldl cash_move c ts.

(** The snapshot the run takes at [bar]: the value of the holdings is the
    traded quantity at the close of the bar when the run is long, and
    nothing when it is flat. *)
Definition run_snapshot (args : Namespace) (bar : Bar)
    (s : PortfolioSnapshot) : Prop :=
  snap_timestamp s = bar_timestamp bar
  ∧ (positions_value s = 0
     ∨ positions_value s = args_quantity args ⊗ close bar).

(** The ledger during a run: the holdings are those of a run; the trades
    alternate BUY and SELL from a flat start and end long exactly when a
    position is held; every trade is in the traded symbol and quantity;
    cash is the starting cash after the moves of the trades. *)
Definition run_ledger (args : Namespace) (pf : Portfolio) : Prop :=
  run_holdings args pf
  ∧ position_after false (side <$> trades pf)
    = Some (bool_decide (is_Some (positions pf !! args_symbol args)))
  ∧ Forall (λ t, symbol t = args_symbol args
                 ∧ quantity t = args_quantity args) (trades pf)
  ∧ cash pf = cash_after (args_cash args) (trades pf).

(** Options that [main] and the constructors it calls accept. *)
Definition args_ok (args : Namespace) : Prop :=
  (0 < args_fast_window args)%Z
  ∧ (args_fast_window args < args_slow_window args)%Z
  ∧ 0 ≤ args_slippage_bps args ∧ 0 ≤ args_fee args.

(** A short history in which the fast average crosses the slow one
    upwards and then downwards, and options to run it with. *)
Definition example_args : Namespace :=
  {| args_cash := dec 1000; args_symbol := "AAPL"; args_quantity := dec 2;
     args_slippage_bps := dec 50; args_fee := dec 1;
     args_fill_trade_on := "open";
     args_fast_window := 1; args_slow_window := 2 |}.

Definition example_bars : list Bar :=
  imap (λ i c, flat_bar (Z.of_nat i) (dec c))
    [100; 90; 110; 120; 100; 95]%Z.

(** ** Operations that do not round *)

(** The amounts of a trade, and the cost basis after two BUYs, are computed
    without rounding: every intermediate result is representable. *)
Definition buy_amount_exact (t : Trade) : Prop :=
  representable (quantity t * price t)
  ∧ representable (quantity t * price t + fee t)
  ∧ representable (quantity t * price t + fee t + slippage t).

Definition sell_amount_exact (t : Trade) : Prop :=
  representable (quantity t * price t)
  ∧ representable (quantity t * price t - fee t)
  ∧ representable (quantity t * price t - fee t - slippage t).

Definition average_exact (q1 p1 q2 p2 : Decimal) : Prop :=
  representable (q1 + q2)
  ∧ representable (q1 * p1) ∧ representable (q2 * p2)
  ∧ representable (q1 * p1 + q2 * p2)
  ∧ representable ((q1 * p1 + q2 * p2) / (q1 + q2)).

(** ** Inputs with many digits *)

(** A model with the given slippage, no fee, filling at the open; the
    slippage 9999.99999999999999999999999999999 bps; the price
    100.00000000000000000000000000009. *)
Definition model_rate (bps : Decimal) : ExecutionModel :=
  {| fee_per_trade := dec 0; slippage_bps := bps; fill_trade_on := "open" |}.

Definition almost_10000 : Decimal :=
  decq 999999999999999999999999999999999
       100000000000000000000000000000.

Definition long_price : Decimal :=
  decq 10000000000000000000000000000009
       100000000000000000000000000000.

(** ** Decimal exponents *)

(** [g] is the exponent of the leading digit of [x]. *)
Definition exponent_of (x : Q) (g : Z) : Prop :=
  (10 ^ g <= x ∧ x < 10 ^ (g + 1))%Q.

(** * Properties *)

(** ** Arithmetic on decimals *)

Lemma Qc_eq_iff (x y : Decimal) : x = y ↔ (this x == this y)%Q.
Proof. split; [intros ->; reflexivity | apply Qc_is_canon]. Qed.

(** Goals and hypotheses on [Qc] restated on the underlying [Q], where
    [lra], [nra] and [field] apply. *)
Ltac to_Q :=
  repeat match goal with
  | H : @eq Qc _ _ |- _ => apply Qc_eq_iff in H
  | H : ¬ @eq Qc _ _ |- _ => rewrite Qc_eq_iff in H
  | |- @eq Qc _ _ => apply Qc_is_canon
  | |- ¬ @eq Qc _ _ => rewrite Qc_eq_iff
  end;
  unfold Qclt, Qcle in *;
  unfold dec, decq, Qcdiv, Qcminus, Qcinv, Qcplus, Qcmult, Qcopp, Q2Qc in *;
  cbn [this] in *;
  repeat match goal with
  | H : context [Qred _] |- _ => rewrite !Qred_correct in H
  | |- context [Qred _] => rewrite !Qred_correct
  end;
  change (this 0) with 0%Q in *;
  change (this 1) with 1%Q in *;
  unfold inject_Z in *.

(** A closed equation or disequation between decimals, by evaluation. *)
Ltac dec_compute :=
  lazymatch goal with
  | |- @eq Qc _ _ => apply Qc_is_canon; vm_compute; reflexivity
  | |- ¬ @eq Qc _ _ =>
      let H := fresh in
      intros H; apply Qc_eq_iff in H; vm_compute in H; discriminate H
  | |- Qclt _ _ => vm_compute; reflexivity
  | |- Qcle _ _ => vm_compute; discriminate
  end.

Lemma ltb_true (x y : Decimal) : ltb x y = true ↔ x < y.
Proof. apply bool_decide_eq_true. Qed.

Lemma ltb_false (x y : Decimal) : ltb x y = false ↔ y ≤ x.
Proof.
  unfold ltb. rewrite bool_decide_eq_false. split.
  - apply Qcnot_lt_le.
  - apply Qcle_not_lt.
Qed.

Lemma leb_true (x y : Decimal) : leb x y = true ↔ x ≤ y.
Proof. apply bool_decide_eq_true. Qed.

Lemma leb_false (x y : Decimal) : leb x y = false ↔ y < x.
Proof.
  unfold leb. rewrite bool_decide_eq_false. split.
  - apply Qcnot_le_lt.
  - apply Qclt_not_le.
Qed.

Lemma eqb_true (x y : Decimal) : eqb x y = true ↔ x = y.
Proof. apply bool_decide_eq_true. Qed.

Lemma eqb_false (x y : Decimal) : eqb x y = false ↔ x ≠ y.
Proof. apply bool_decide_eq_false. Qed.

Lemma Qcdiv_pos (x y : Decimal) : 0 < x → 0 < y → 0 < x / y.
Proof.
  intros Hx Hy. to_Q.
  assert (Hi : (this y * / this y == 1)%Q) by (apply Qmult_inv_r; lra).
  revert Hi. generalize (/ this y)%Q. intros i Hi. nra.
Qed.

Lemma Qcdiv_nonpos_neg (x y : Decimal) : x ≤ 0 → y < 0 → 0 ≤ x / y.
Proof.
  intros Hx Hy. to_Q.
  assert (Hi : (this y * / this y == 1)%Q) by (apply Qmult_inv_r; lra).
  revert Hi. generalize (/ this y)%Q. intros i Hi. nra.
Qed.

Lemma Qcdiv_nonpos_pos (x y : Decimal) : x ≤ 0 → 0 < y → x / y ≤ 0.
Proof.
  intros Hx Hy. to_Q.
  assert (Hi : (this y * / this y == 1)%Q) by (apply Qmult_inv_r; lra).
  revert Hi. generalize (/ this y)%Q. intros i Hi. nra.
Qed.

(** ** Rounding to significant digits *)

Section rounding_laws.

Local Open Scope Q_scope.

Lemma round_half_even_comp (s t : Q) :
  s == t -> round_half_even s = round_half_even t.
Proof.
  intros E. unfold round_half_even. rewrite (Qfloor_comp _ _ E).
  assert ((s - inject_Z (Qfloor t) ?= 1 # 2)
          = (t - inject_Z (Qfloor t) ?= 1 # 2)) as ->.
  { apply Qcompare_comp; [rewrite E|]; reflexivity. }
  reflexivity.
Qed.

Lemma round_half_even_Z (n : Z) : round_half_even (inject_Z n) = n.
Proof.
  unfold round_half_even. rewrite Qfloor_Z.
  assert ((inject_Z n - inject_Z n ?= 1 # 2) = Lt) as ->.
  { apply (proj1 (Qlt_alt _ _)). generalize (inject_Z n). intros q. lra. }
  reflexivity.
Qed.

Lemma round_half_even_mono (s t : Q) :
  s <= t -> (round_half_even s <= round_half_even t)%Z.
Proof.
  intros H. pose proof (Qfloor_resp_le _ _ H) as Hk.
  unfold round_half_even.
  set (k := Qfloor s) in *. set (k' := Qfloor t) in *.
  destruct (Z.eq_dec k k') as [E|N].
  - rewrite <- E. clear Hk. clearbody k. clear E k'.
    destruct (Qcompare_spec (s - inject_Z k) (1 # 2)) as [H1|H1|H1],
             (Qcompare_spec (t - inject_Z k) (1 # 2)) as [H2|H2|H2];
      try lia; try (destruct (Z.even k); lia);
      exfalso; revert H1 H2; generalize (inject_Z k); intros q H1 H2; lra.
  - assert (k + 1 <= k')%Z by lia.
    destruct (s - inject_Z k ?= 1 # 2), (t - inject_Z k' ?= 1 # 2);
      destruct (Z.even k), (Z.even k'); lia.
Qed.

Lemma digits_fuel_spec (fuel : nat) (n : Z) :
  (0 < n < 2 ^ Z.of_nat fuel)%Z ->
  (1 <= digits_fuel fuel n
   /\ 10 ^ (digits_fuel fuel n - 1) <= n < 10 ^ digits_fuel fuel n)%Z.
Proof.
  revert n. induction fuel as [|fuel IH]; intros n Hn.
  - simpl in Hn. lia.
  - cbn [digits_fuel]. destruct (Z.ltb_spec n 10) as [Hlt|Hge].
    + simpl. lia.
    + assert (Hd : (0 < n / 10 < 2 ^ Z.of_nat fuel)%Z).
      { split.
        - apply Z.div_str_pos. lia.
        - apply Z.div_lt_upper_bound; [lia|].
          rewrite Nat2Z.inj_succ, Z.pow_succ_r in Hn by lia. lia. }
      destruct (IH _ Hd) as (H1 & H2 & H3).
      set (k := digits_fuel fuel (n / 10)) in *. clearbody k.
      replace (1 + k - 1)%Z with (Z.succ (k - 1)) by lia.
      replace (1 + k)%Z with (Z.succ k) at 2 by lia.
      rewrite !Z.pow_succ_r by lia.
      pose proof (Z.mul_div_le n 10 ltac:(lia)).
      pose proof (Z.mul_succ_div_gt n 10 ltac:(lia)).
      lia.
Qed.

Lemma digits10_spec (n : Z) :
  (0 < n)%Z ->
  (1 <= digits10 n /\ 10 ^ (digits10 n - 1) <= n < 10 ^ digits10 n)%Z.
Proof.
  intros Hn. apply digits_fuel_spec. split; [exact Hn|].
  rewrite Nat2Z.inj_succ, Z2Nat.id by apply Z.log2_nonneg.
  apply Z.log2_spec, Hn.
Qed.

Lemma ten_pos (e : Z) : 0 < 10 ^ e.
Proof. apply Qpower_0_lt. reflexivity. Qed.

Lemma ten_succ (e : Z) : 10 ^ (e + 1) == 10 * 10 ^ e.
Proof. rewrite Qpower_plus by discriminate. simpl (10 ^ 1). ring. Qed.

Lemma ten_plus (a b : Z) : 10 ^ (a + b) == 10 ^ a * 10 ^ b.
Proof. apply Qpower_plus. discriminate. Qed.

Lemma ten_le (a b : Z) : (a <= b)%Z -> 10 ^ a <= 10 ^ b.
Proof. intros H. apply Qpower_le_compat_l; [exact H|]. discriminate. Qed.

Lemma ten_lt_inv (a b : Z) : 10 ^ a < 10 ^ b -> (a < b)%Z.
Proof. intros H. apply (Qpower_lt_compat_l_inv 10); [exact H|reflexivity]. Qed.

Lemma ten_inject (n : Z) : (0 <= n)%Z -> inject_Z (10 ^ n) == 10 ^ n.
Proof. intros H. rewrite Zpower_Qpower by exact H. reflexivity. Qed.

Lemma exponent_of_unique (x : Q) (g g' : Z) :
  exponent_of x g -> exponent_of x g' -> g = g'.
Proof.
  intros [H1 H2] [H3 H4].
  assert (g < g' + 1)%Z by (apply ten_lt_inv; lra).
  assert (g' < g + 1)%Z by (apply ten_lt_inv; lra).
  lia.
Qed.

Lemma exponent_of_mono (x y : Q) (g g' : Z) :
  exponent_of x g -> exponent_of y g' -> x <= y -> (g <= g')%Z.
Proof.
  intros [H1 H2] [H3 H4] H.
  assert (g < g' + 1)%Z by (apply ten_lt_inv; lra).
  lia.
Qed.

Lemma floor_log10_spec (x : Q) : 0 < x -> exponent_of x (floor_log10 x).
Proof.
  intros Hx. destruct x as [a d]. unfold floor_log10. cbn [Qnum Qden].
  assert (Ha : (0 < a)%Z).
  { unfold Qlt in Hx. simpl in Hx. lia. }
  destruct (digits10_spec a Ha) as (Ha1 & Ha2 & Ha3).
  destruct (digits10_spec (Zpos d) ltac:(lia)) as (Hd1 & Hd2 & Hd3).
  set (da := digits10 a) in *. set (dd := digits10 (Zpos d)) in *.
  clearbody da dd.
  rewrite Zle_Qle, ten_inject in Ha2, Hd2 by lia.
  rewrite Zlt_Qlt, ten_inject in Ha3, Hd3 by lia.
  assert (Ex : a # d == inject_Z a / inject_Z (Zpos d)) by apply Qmake_Qdiv.
  assert (HD : 0 < inject_Z (Zpos d)) by reflexivity.
  revert Ex Ha2 Ha3 Hd2 Hd3 HD Hx.
  generalize (inject_Z a) (inject_Z (Zpos d)) (a # d).
  intros A D x Ex Ha2 Ha3 Hd2 Hd3 HD Hx.
  assert (EA : x * D == A).
  { rewrite Ex. field. lra. }
  clear Ex.
  set (t := (da - dd)%Z).
  assert (ET : 10 ^ t * 10 ^ (dd - 1) == 10 ^ (da - 1)).
  { rewrite <- ten_plus. replace (t + (dd - 1))%Z with (da - 1)%Z by lia.
    reflexivity. }
  assert (Eda : 10 ^ da == 10 * 10 ^ (da - 1)).
  { rewrite <- ten_succ. replace (da - 1 + 1)%Z with da by lia.
    reflexivity. }
  assert (Edd : 10 ^ dd == 10 * 10 ^ (dd - 1)).
  { rewrite <- ten_succ. replace (dd - 1 + 1)%Z with dd by lia.
    reflexivity. }
  assert (Et1 : 10 ^ (t + 1) == 10 * 10 ^ t) by apply ten_succ.
  assert (Et0 : 10 ^ t == 10 * 10 ^ (t - 1)).
  { rewrite <- ten_succ. replace (t - 1 + 1)%Z with t by lia. reflexivity. }
  pose proof (ten_pos (dd - 1)) as P1. pose proof (ten_pos (da - 1)) as P2.
  pose proof (ten_pos t) as P3. pose proof (ten_pos (t - 1)) as P4.
  clearbody t.
  assert (Hup : x < 10 ^ (t + 1)).
  { rewrite Et1. rewrite Eda in Ha3. 
    revert ET Ha3 Hd2 P1 P2 P3 EA Hx.
    generalize (10 ^ t) (10 ^ (dd - 1)) (10 ^ (da - 1)).
    intros T PD PA. intros. nra. }
  assert (Hlo : 10 ^ (t - 1) < x).
  { rewrite Edd in Hd3. rewrite Et0 in ET.
    revert ET Ha2 Hd3 P1 P2 P4 EA Hx.
    generalize (10 ^ (t - 1)) (10 ^ (dd - 1)) (10 ^ (da - 1)).
    intros T PD PA. intros. nra. }
  destruct (Qle_bool (10 ^ t) x) eqn:Eb.
  - apply Qle_bool_iff in Eb. split; assumption.
  - assert (Hn : ~ 10 ^ t <= x).
    { intros Hc. apply Qle_bool_iff in Hc. congruence. }
    apply Qnot_le_lt in Hn. split.
    + apply Qlt_le_weak, Hlo.
    + replace (t - 1 + 1)%Z with t by lia. exact Hn.
Qed.

Variable p : Z.
Hypothesis p_pos : (1 <= p)%Z.

Lemma scaled_bounds (x : Q) (f : Z) :
  exponent_of x f ->
  10 ^ (p - 1) <= x / 10 ^ (f - (p - 1))
  /\ x / 10 ^ (f - (p - 1)) < 10 ^ p.
Proof.
  intros [H1 H2]. set (e := (f - (p - 1))%Z).
  pose proof (ten_pos e) as Pe.
  assert (E1 : 10 ^ f == 10 ^ (p - 1) * 10 ^ e).
  { rewrite <- ten_plus. replace (p - 1 + e)%Z with f by lia.
    reflexivity. }
  assert (E2 : 10 ^ (f + 1) == 10 ^ p * 10 ^ e).
  { rewrite <- ten_plus. replace (p + e)%Z with (f + 1)%Z by lia.
    reflexivity. }
  split.
  - apply Qle_shift_div_l; [exact Pe|]. rewrite <- E1. exact H1.
  - apply Qlt_shift_div_r; [exact Pe|]. rewrite <- E2. exact H2.
Qed.

Lemma mantissa_bounds (x : Q) (f : Z) :
  exponent_of x f ->
  (10 ^ (p - 1) <= round_half_even (x / 10 ^ (f - (p - 1)))
   <= 10 ^ p)%Z.
Proof.
  intros H. destruct (scaled_bounds x f H) as [H1 H2].
  split.
  - rewrite <- (round_half_even_Z (10 ^ (p - 1))).
    apply round_half_even_mono. rewrite ten_inject by lia. exact H1.
  - etransitivity; [|apply Z.eq_le_incl, (round_half_even_Z (10 ^ p))].
    apply round_half_even_mono. rewrite ten_inject by lia.
    apply Qlt_le_weak, H2.
Qed.

Lemma round_positive_bounds (x : Q) :
  0 < x ->
  10 ^ floor_log10 x <= round_positive p x
  /\ round_positive p x <= 10 ^ (floor_log10 x + 1).
Proof.
  intros Hx. pose proof (floor_log10_spec x Hx) as Hf.
  destruct (mantissa_bounds x _ Hf) as [H1 H2].
  unfold round_positive. cbn zeta.
  set (f := floor_log10 x) in *. set (e := (f - (p - 1))%Z) in *.
  set (m := round_half_even (x / 10 ^ e)) in *.
  rewrite Zle_Qle, ten_inject in H1, H2 by lia.
  pose proof (ten_pos e) as Pe.
  assert (E1 : 10 ^ f == 10 ^ (p - 1) * 10 ^ e).
  { rewrite <- ten_plus. replace (p - 1 + e)%Z with f by lia.
    reflexivity. }
  assert (E2 : 10 ^ (f + 1) == 10 ^ p * 10 ^ e).
  { rewrite <- ten_plus. replace (p + e)%Z with (f + 1)%Z by lia.
    reflexivity. }
  rewrite E1, E2. split; apply Qmult_le_compat_r; lra.
Qed.

Lemma round_positive_pos (x : Q) : 0 < x -> 0 < round_positive p x.
Proof.
  intros Hx. destruct (round_positive_bounds x Hx) as [H _].
  pose proof (ten_pos (floor_log10 x)). lra.
Qed.

Lemma exponent_of_comp (x y : Q) (g : Z) :
  x == y -> exponent_of x g -> exponent_of y g.
Proof. intros E [H1 H2]. split; rewrite <- E; assumption. Qed.

Lemma floor_log10_unique (x : Q) (g : Z) :
  exponent_of x g -> floor_log10 x = g.
Proof.
  intros H. apply (exponent_of_unique x); [|exact H].
  apply floor_log10_spec. destruct H as [H _].
  pose proof (ten_pos g). lra.
Qed.

Lemma round_positive_comp (x y : Q) :
  0 < x -> x == y -> round_positive p x == round_positive p y.
Proof.
  intros Hx E. unfold round_positive. cbn zeta.
  assert (Ef : floor_log10 y = floor_log10 x).
  { apply floor_log10_unique, (exponent_of_comp x); [exact E|].
    apply floor_log10_spec, Hx. }
  rewrite Ef.
  rewrite (round_half_even_comp (y / _) (x / 10 ^ (floor_log10 x - (p - 1)))).
  - reflexivity.
  - apply Qdiv_comp; [symmetry; exact E | reflexivity].
Qed.

Lemma round_positive_mono (x y : Q) :
  0 < x -> x <= y -> round_positive p x <= round_positive p y.
Proof.
  intros Hx Hxy. assert (Hy : 0 < y) by lra.
  pose proof (floor_log10_spec x Hx) as Hfx.
  pose proof (floor_log10_spec y Hy) as Hfy.
  pose proof (exponent_of_mono x y _ _ Hfx Hfy Hxy) as Hle.
  destruct (Z.eq_dec (floor_log10 x) (floor_log10 y)) as [E|N].
  - unfold round_positive. cbn zeta. rewrite <- E.
    set (e := (floor_log10 x - (p - 1))%Z).
    pose proof (ten_pos e) as Pe.
    apply Qmult_le_compat_r; [|lra].
    rewrite <- Zle_Qle. apply round_half_even_mono.
    apply Qmult_le_compat_r; [exact Hxy|].
    apply Qlt_le_weak, Qinv_lt_0_compat, Pe.
  - destruct (round_positive_bounds x Hx) as [_ H1].
    destruct (round_positive_bounds y Hy) as [H2 _].
    assert (10 ^ (floor_log10 x + 1) <= 10 ^ floor_log10 y)
      by (apply ten_le; lia).
    lra.
Qed.

Lemma round_positive_idem (x : Q) :
  0 < x ->
  round_positive p (round_positive p x) == round_positive p x.
Proof.
  intros Hx. pose proof (floor_log10_spec x Hx) as Hf.
  destruct (mantissa_bounds x _ Hf) as [H1 H2].
  pose proof (round_positive_pos x Hx) as Hy.
  revert Hy. unfold round_positive at 1 3 4. cbn zeta.
  set (f := floor_log10 x) in *. set (e := (f - (p - 1))%Z) in *.
  set (m := round_half_even (x / 10 ^ e)) in *. intros Hy.
  pose proof (ten_pos e) as Pe.
  assert (E1 : 10 ^ f == 10 ^ (p - 1) * 10 ^ e).
  { rewrite <- ten_plus. replace (p - 1 + e)%Z with f by lia.
    reflexivity. }
  assert (E2 : 10 ^ (f + 1) == 10 ^ p * 10 ^ e).
  { rewrite <- ten_plus. replace (p + e)%Z with (f + 1)%Z by lia.
    reflexivity. }
  destruct (Z.eq_dec m (10 ^ p)%Z) as [Em|Nm].
  - (* the mantissa was rounded up to the next power of ten *)
    assert (Ey : inject_Z m * 10 ^ e == 10 ^ (f + 1)).
    { rewrite Em, ten_inject by lia. rewrite E2. reflexivity. }
    assert (Hg : floor_log10 (inject_Z m * 10 ^ e) = (f + 1)%Z).
    { apply floor_log10_unique. split.
      - rewrite Ey. apply Qle_refl.
      - rewrite Ey. rewrite (ten_succ (f + 1)).
        pose proof (ten_pos (f + 1)). lra. }
    unfold round_positive. cbn zeta. rewrite Hg.
    replace (f + 1 - (p - 1))%Z with (e + 1)%Z by lia.
    rewrite (round_half_even_comp _ (inject_Z (10 ^ (p - 1)))).
    + rewrite round_half_even_Z, ten_inject by lia.
      rewrite Ey, <- ten_plus.
      replace (p - 1 + (e + 1))%Z with (f + 1)%Z by lia.
      reflexivity.
    + rewrite Ey, ten_inject by lia.
      replace (f + 1)%Z with ((p - 1) + (e + 1))%Z by lia.
      rewrite ten_plus. field.
      pose proof (ten_pos (e + 1)). lra.
  - assert (Hm : (m < 10 ^ p)%Z) by lia.
    rewrite Zlt_Qlt, ten_inject in Hm by lia.
    rewrite Zle_Qle, ten_inject in H1 by lia.
    assert (Hg : floor_log10 (inject_Z m * 10 ^ e) = f).
    { apply floor_log10_unique. split.
      - rewrite E1. apply Qmult_le_compat_r; lra.
      - rewrite E2. apply Qmult_lt_compat_r; lra. }
    unfold round_positive. cbn zeta. rewrite Hg. fold e.
    rewrite (round_half_even_comp _ (inject_Z m)).
    + rewrite round_half_even_Z. reflexivity.
    + field. lra.
Qed.

(** *** Rounding of any sign *)

Lemma round_digits_Q_comp (x y : Q) :
  x == y -> round_digits_Q p x == round_digits_Q p y.
Proof.
  intros E. unfold round_digits_Q.
  assert ((y ?= 0) = (x ?= 0)) as ->
    by (apply Qcompare_comp; [symmetry; exact E | reflexivity]).
  destruct (Qcompare_spec x 0) as [H|H|H].
  - reflexivity.
  - apply Qopp_comp, round_positive_comp; [lra | rewrite E; reflexivity].
  - apply round_positive_comp; assumption.
Qed.

Lemma round_digits_Q_pos (x : Q) : 0 < x -> 0 < round_digits_Q p x.
Proof.
  intros H. unfold round_digits_Q.
  destruct (Qcompare_spec x 0); [lra | lra | apply round_positive_pos, H].
Qed.

Lemma round_digits_Q_opp (x : Q) :
  round_digits_Q p (- x) == - round_digits_Q p x.
Proof.
  unfold round_digits_Q.
  destruct (Qcompare_spec x 0) as [H|H|H],
           (Qcompare_spec (- x) 0) as [H'|H'|H']; try lra.
  apply Qopp_comp, round_positive_comp; lra.
Qed.

Lemma round_digits_Q_mono (x y : Q) :
  x <= y -> round_digits_Q p x <= round_digits_Q p y.
Proof.
  intros Hxy. unfold round_digits_Q.
  destruct (Qcompare_spec x 0) as [H|H|H],
           (Qcompare_spec y 0) as [H'|H'|H']; try lra.
  - pose proof (round_positive_pos y H'). lra.
  - pose proof (round_positive_pos (- x) ltac:(lra)). lra.
  - apply Qopp_le_compat, round_positive_mono; lra.
  - pose proof (round_positive_pos (- x) ltac:(lra)).
    pose proof (round_positive_pos y H'). lra.
  - apply round_positive_mono; assumption.
Qed.

Lemma round_digits_Q_idem (x : Q) :
  round_digits_Q p (round_digits_Q p x) == round_digits_Q p x.
Proof.
  unfold round_digits_Q at 2 3.
  destruct (Qcompare_spec x 0) as [H|H|H].
  - reflexivity.
  - rewrite round_digits_Q_opp. apply Qopp_comp.
    pose proof (round_positive_pos (- x) ltac:(lra)) as Hp.
    unfold round_digits_Q.
    destruct (Qcompare_spec (round_positive p (- x)) 0); try lra.
    apply round_positive_idem. lra.
  - pose proof (round_positive_pos x H) as Hp.
    unfold round_digits_Q.
    destruct (Qcompare_spec (round_positive p x) 0); try lra.
    apply round_positive_idem, H.
Qed.

End rounding_laws.

(** ** The arithmetic of the context *)

Lemma context_round_this (x : Decimal) :
  (this (context_round x) == round_digits_Q prec (this x))%Q.
Proof.
  unfold context_round, round_digits. cbn [this Q2Qc]. apply Qred_correct.
Qed.

Lemma prec_pos : (1 ≤ prec)%Z.
Proof. unfold prec. lia. Qed.

Lemma context_round_0 : context_round 0 = 0.
Proof. apply Qc_is_canon. reflexivity. Qed.

Lemma context_round_pos (x : Decimal) : 0 < x → 0 < context_round x.
Proof.
  unfold Qclt. intros H. rewrite context_round_this.
  apply round_digits_Q_pos; [apply prec_pos | exact H].
Qed.

Lemma context_round_opp (x : Decimal) :
  context_round (- x) = - context_round x.
Proof.
  apply Qc_is_canon. rewrite context_round_this.
  etransitivity;
    [apply (round_digits_Q_comp prec _ (- this x)%Q), Qred_correct|].
  rewrite round_digits_Q_opp.
  unfold Qcopp. cbn [this Q2Qc]. symmetry.
  etransitivity; [apply Qred_correct|].
  apply Qopp_comp, context_round_this.
Qed.

Lemma context_round_mono (x y : Decimal) :
  x ≤ y → context_round x ≤ context_round y.
Proof.
  unfold Qcle. intros H. rewrite !context_round_this.
  apply round_digits_Q_mono; [apply prec_pos | exact H].
Qed.

Lemma context_round_idem (x : Decimal) :
  context_round (context_round x) = context_round x.
Proof.
  apply Qc_is_canon. rewrite context_round_this.
  etransitivity;
    [apply (round_digits_Q_comp prec _ _ (context_round_this x))|].
  rewrite round_digits_Q_idem by apply prec_pos.
  symmetry. apply context_round_this.
Qed.

Lemma context_round_neg (x : Decimal) : x < 0 → context_round x < 0.
Proof.
  intros H. assert (Hp : 0 < - x) by (apply Qclt_minus_iff in H; 
    rewrite Qcplus_0_l in H; exact H).
  apply context_round_pos in Hp. rewrite context_round_opp in Hp.
  apply Qclt_minus_iff. rewrite Qcplus_0_l. exact Hp.
Qed.

Lemma context_round_nonneg (x : Decimal) : 0 ≤ x → 0 ≤ context_round x.
Proof.
  intros H. rewrite <- context_round_0. apply context_round_mono, H.
Qed.

Lemma context_round_nonpos (x : Decimal) : x ≤ 0 → context_round x ≤ 0.
Proof.
  intros H. rewrite <- context_round_0. apply context_round_mono, H.
Qed.

Lemma context_round_eq_0 (x : Decimal) : context_round x = 0 ↔ x = 0.
Proof.
  split; [|intros ->; apply context_round_0].
  intros E. destruct (Qc_dec x 0) as [[H|H]|H]; [| |exact H].
  - apply context_round_neg in H. rewrite E in H.
    destruct (Qclt_not_eq _ _ H). reflexivity.
  - apply context_round_pos in H. rewrite E in H.
    destruct (Qclt_not_eq _ _ H). reflexivity.
Qed.

Lemma context_round_pos_iff (x : Decimal) : 0 < context_round x ↔ 0 < x.
Proof.
  split; [|apply context_round_pos].
  intros H. apply Qcnot_le_lt. intros Hx.
  apply context_round_nonpos in Hx. apply (Qcle_not_lt _ _ Hx H).
Qed.

Lemma context_round_nonpos_iff (x : Decimal) : context_round x ≤ 0 ↔ x ≤ 0.
Proof.
  split; [|apply context_round_nonpos].
  intros H. apply Qcnot_lt_le. intros Hx.
  apply context_round_pos in Hx. apply (Qcle_not_lt _ _ H Hx).
Qed.


(** *** Signs of sums, differences, products and quotients *)

Lemma Decimal_add_pos (x y : Decimal) : 0 < x → 0 < y → 0 < x ⊕ y.
Proof. intros Hx Hy. apply context_round_pos. to_Q. lra. Qed.

Lemma Decimal_add_nonneg (x y : Decimal) : 0 ≤ x → 0 ≤ y → 0 ≤ x ⊕ y.
Proof. intros Hx Hy. apply context_round_nonneg. to_Q. lra. Qed.

Lemma Decimal_add_pos_nonneg (x y : Decimal) : 0 < x → 0 ≤ y → 0 < x ⊕ y.
Proof. intros Hx Hy. apply context_round_pos. to_Q. lra. Qed.

Lemma Decimal_mul_pos (x y : Decimal) : 0 < x → 0 < y → 0 < x ⊗ y.
Proof. intros Hx Hy. apply context_round_pos. to_Q. nra. Qed.

Lemma Decimal_mul_nonneg (x y : Decimal) : 0 ≤ x → 0 ≤ y → 0 ≤ x ⊗ y.
Proof. intros Hx Hy. apply context_round_nonneg. to_Q. nra. Qed.

Lemma Decimal_mul_nonneg_nonpos (x y : Decimal) :
  0 ≤ x → y ≤ 0 → x ⊗ y ≤ 0.
Proof. intros Hx Hy. apply context_round_nonpos. to_Q. nra. Qed.

Lemma Decimal_div_pos (x y : Decimal) : 0 < x → 0 < y → 0 < x ⊘ y.
Proof. intros Hx Hy. apply context_round_pos, Qcdiv_pos; assumption. Qed.

Lemma Decimal_sub_diag (x : Decimal) : x ⊖ x = 0.
Proof.
  unfold Decimal_sub. replace (x - x) with (0 : Qc) by ring.
  apply context_round_0.
Qed.

Lemma Decimal_sub_pos (x y : Decimal) : 0 < x ⊖ y ↔ y < x.
Proof.
  unfold Decimal_sub. rewrite context_round_pos_iff.
  split; intros H; to_Q; lra.
Qed.

Lemma Decimal_sub_nonpos (x y : Decimal) : x ⊖ y ≤ 0 ↔ x ≤ y.
Proof.
  unfold Decimal_sub. rewrite context_round_nonpos_iff.
  split; intros H; to_Q; lra.
Qed.

Lemma Decimal_add_0_l (x : Decimal) : 0 ⊕ x = context_round x.
Proof. unfold Decimal_add. rewrite Qcplus_0_l. reflexivity. Qed.

Lemma Decimal_mul_comm (x y : Decimal) : x ⊗ y = y ⊗ x.
Proof. unfold Decimal_mul. rewrite Qcmult_comm. reflexivity. Qed.

Lemma Decimal_add_comm (x y : Decimal) : x ⊕ y = y ⊕ x.
Proof. unfold Decimal_add. rewrite Qcplus_comm. reflexivity. Qed.

(** An operation whose exact result is representable does not round. *)
Lemma Decimal_add_exact (x y : Decimal) :
  representable (x + y) → x ⊕ y = x + y.
Proof. intros H. exact H. Qed.

Lemma Decimal_sub_exact (x y : Decimal) :
  representable (x - y) → x ⊖ y = x - y.
Proof. intros H. exact H. Qed.

Lemma Decimal_mul_exact (x y : Decimal) :
  representable (x * y) → x ⊗ y = x * y.
Proof. intros H. exact H. Qed.

Lemma Decimal_div_exact (x y : Decimal) :
  representable (x / y) → x ⊘ y = x / y.
Proof. intros H. exact H. Qed.

Lemma representable_round (x : Decimal) : representable (context_round x).
Proof. apply context_round_idem. Qed.

(** ** What the constructors check *)

Lemma check_ok {B} (cond : bool) (e : exn) (k : result B) (b : B) :
  result_bind (raise_if cond e) (λ _, k) = Ok b ↔ cond = false ∧ k = Ok b.
Proof.
  destruct cond; simpl.
  - split; [discriminate | intros [[=] _]].
  - split; [intros H; split; [reflexivity | exact H] | intros [_ H]; exact H].
Qed.

Lemma construct_ok {A} (post_init : A → result unit) (self a : A) :
  construct post_init self = Ok a ↔ post_init self = Ok tt ∧ a = self.
Proof.
  unfold construct. destruct (post_init self) as [[]|e]; simpl; split.
  - intros [= <-]. done.
  - intros [_ ->]. done.
  - discriminate.
  - intros [[=] _].
Qed.

Lemma str_not_false (s : string) : str_not s = false ↔ s ≠ "".
Proof. destruct s; simpl; split; congruence. Qed.

Lemma Trade_post_init_ok (t : Trade) :
  Trade_post_init t = Ok tt ↔
  0 < quantity t ∧ 0 < price t ∧ 0 ≤ fee t ∧ 0 ≤ slippage t
  ∧ strip (symbol t) ≠ "".
Proof.
  unfold Trade_post_init.
  rewrite !check_ok, !leb_false, !ltb_false, str_not_false. tauto.
Qed.

Lemma Position_post_init_ok (p : Position) :
  Position_post_init p = Ok tt ↔
  0 < pos_quantity p ∧ 0 < average_price p ∧ strip (pos_symbol p) ≠ "".
Proof.
  unfold Position_post_init.
  rewrite !check_ok, !leb_false, str_not_false. tauto.
Qed.

Lemma Order_post_init_ok (o : Order) :
  Order_post_init o = Ok tt ↔
  0 < order_quantity o ∧ strip (order_symbol o) ≠ "".
Proof.
  unfold Order_post_init.
  rewrite !check_ok, !leb_false, str_not_false. tauto.
Qed.

Lemma ExecutionModel_post_init_ok (m : ExecutionModel) :
  ExecutionModel_post_init m = Ok tt ↔
  0 ≤ slippage_bps m ∧ 0 ≤ fee_per_trade m.
Proof.
  unfold ExecutionModel_post_init.
  rewrite !check_ok, !ltb_false. tauto.
Qed.

Lemma Bar_post_init_prices (b : Bar) :
  Bar_post_init b = Ok tt → 0 < open b ∧ 0 < close b.
Proof.
  unfold Bar_post_init. rewrite check_ok. intros [H _].
  simpl in H. rewrite !orb_false_iff, !leb_false in H. tauto.
Qed.

Lemma strip_nonempty (s : string) : strip s ≠ "" → s ≠ "".
Proof. intros H ->. apply H. reflexivity. Qed.


(** ** Dictionaries *)

Lemma items_get_set_eq {V} (k : string) (v : V) (l : list (string * V)) :
  items_get k (items_set k v l) = Some v.
Proof.
  induction l as [|[k' v'] l IH]; cbn.
  - rewrite decide_True; reflexivity.
  - destruct (decide (k' = k)) as [->|N]; cbn.
    + rewrite decide_True; reflexivity.
    + rewrite decide_False by exact N. exact IH.
Qed.

Lemma items_get_set_ne {V} (k k' : string) (v : V) (l : list (string * V)) :
  k ≠ k' → items_get k' (items_set k v l) = items_get k' l.
Proof.
  intros Hne. induction l as [|[k0 v0] l IH]; cbn.
  - rewrite decide_False; [reflexivity | exact Hne].
  - destruct (decide (k0 = k)) as [->|N]; cbn.
    + rewrite !decide_False by exact Hne. reflexivity.
    + destruct (decide (k0 = k')); [reflexivity | exact IH].
Qed.

Lemma items_get_del_eq {V} (k : string) (l : list (string * V)) :
  items_get k (items_del k l) = None.
Proof.
  unfold items_del. induction l as [|[k' v'] l IH]; [reflexivity|].
  rewrite filter_cons. cbn. destruct (decide (k' ≠ k)) as [N|E].
  - cbn. rewrite decide_False by exact N. exact IH.
  - exact IH.
Qed.

Lemma items_get_del_ne {V} (k k' : string) (l : list (string * V)) :
  k ≠ k' → items_get k' (items_del k l) = items_get k' l.
Proof.
  intros Hne. unfold items_del. induction l as [|[k0 v0] l IH]; [reflexivity|].
  rewrite filter_cons. cbn. destruct (decide (k0 ≠ k)) as [N|E].
  - cbn. destruct (decide (k0 = k')); [reflexivity | exact IH].
  - apply dec_stable in E. subst k0.
    rewrite decide_False by exact Hne. exact IH.
Qed.

Lemma items_get_elem_of {V} (k : string) (v : V) (l : list (string * V)) :
  items_get k l = Some v → (k, v) ∈ l.
Proof.
  induction l as [|[k' v'] l IH]; cbn; [discriminate|].
  destruct (decide (k' = k)) as [->|N].
  - intros [= ->]. left.
  - intros H. right. apply IH, H.
Qed.

Lemma Forall_items_set {V} (P : string * V → Prop) (k : string) (v : V)
    (l : list (string * V)) :
  P (k, v) → Forall P l → Forall P (items_set k v l).
Proof.
  intros Hv. induction 1 as [|[k' v'] l Hx Hl IH]; cbn.
  - repeat constructor. exact Hv.
  - destruct (decide (k' = k)); constructor; assumption.
Qed.

Lemma Forall_items_del {V} (P : string * V → Prop) (k : string)
    (l : list (string * V)) :
  Forall P l → Forall P (items_del k l).
Proof.
  unfold items_del. induction 1 as [|x l Hx Hl IH]; [constructor|].
  rewrite filter_cons. destruct (decide _); [constructor|]; assumption.
Qed.

Lemma dict_lookup_setitem_eq {V} (k : string) (v : V) (d : dict V) :
  dict_setitem k v d !! k = Some v.
Proof. apply items_get_set_eq. Qed.

Lemma dict_lookup_setitem_ne {V} (k k' : string) (v : V) (d : dict V) :
  k ≠ k' → dict_setitem k v d !! k' = d !! k'.
Proof. apply items_get_set_ne. Qed.

Lemma dict_lookup_delitem_eq {V} (k : string) (d : dict V) :
  dict_delitem k d !! k = None.
Proof. apply items_get_del_eq. Qed.

Lemma dict_lookup_delitem_ne {V} (k k' : string) (d : dict V) :
  k ≠ k' → dict_delitem k d !! k' = d !! k'.
Proof. apply items_get_del_ne. Qed.

Lemma dict_lookup_empty {V} (k : string) : (∅ : dict V) !! k = None.
Proof. reflexivity. Qed.

Lemma dict_lookup_elem_of {V} (k : string) (v : V) (d : dict V) :
  d !! k = Some v → (k, v) ∈ dict_items d.
Proof. apply items_get_elem_of. Qed.

(** ** The portfolio ledger *)

Ltac unfold_method :=
  unfold mbind, method_bind, mret, method_ret, bind, ret, read, raise, eval,
    set_cash, setitem_positions, delitem_positions, append_trades,
    append_equity_curve in *;
  cbn beta iota in *.

Lemma holdings_ok_lookup pf k p :
  holdings_ok pf → positions pf !! k = Some p → position_ok p.
Proof.
  intros Hinv Hk%dict_lookup_elem_of.
  exact (proj1 (Forall_forall _ _) Hinv _ Hk).
Qed.

Section apply_trade_cases.

Variable pf : Portfolio.
Variable trade : Trade.

Lemma apply_trade_foreign repr :
  side trade = foreign repr →
  apply_trade trade pf
  = (Raise (ValueError ("Unsupported trade side: " +:+ repr)), pf).
Proof. intros Hs. unfold apply_trade. rewrite Hs. reflexivity. Qed.

Lemma apply_trade_buy_insufficient :
  side trade = BUY → cash pf < buy_amount trade →
  apply_trade trade pf
  = (Raise (ValueError "Insufficient cash to execute BUY trade."), pf).
Proof.
  intros Hs Hc. unfold apply_trade. rewrite Hs. unfold_method.
  apply ltb_true in Hc. unfold buy_amount in Hc. rewrite Hc. reflexivity.
Qed.

Lemma apply_trade_buy_new :
  side trade = BUY → buy_amount trade ≤ cash pf →
  positions pf !! symbol trade = None →
  Trade_post_init trade = Ok tt →
  apply_trade trade pf
  = (Ok tt,
     {| cash := cash pf ⊖ buy_amount trade;
        equity_curve := equity_curve pf;
        positions :=
          dict_setitem (symbol trade)
            {| pos_symbol := symbol trade;
               pos_quantity := quantity trade;
               average_price := price trade |}
            (positions pf);
        trades := trades pf ++ [trade] |}).
Proof.
  intros Hs Hc Hp Hok. unfold apply_trade. rewrite Hs. unfold_method.
  apply ltb_false in Hc. unfold buy_amount in *. rewrite Hc. cbn.
  rewrite Hp. unfold new_Position, construct.
  apply Trade_post_init_ok in Hok as (Hq & Hpr & _ & _ & Hsym).
  replace (Position_post_init _) with (Ok tt); [reflexivity|].
  symmetry. apply Position_post_init_ok. cbn. auto.
Qed.

Lemma apply_trade_buy_add position :
  side trade = BUY → buy_amount trade ≤ cash pf →
  positions pf !! symbol trade = Some position →
  0 < pos_quantity position → 0 < average_price position →
  Trade_post_init trade = Ok tt →
  apply_trade trade pf
  = (Ok tt,
     {| cash := cash pf ⊖ buy_amount trade;
        equity_curve := equity_curve pf;
        positions :=
          dict_setitem (symbol trade)
            {| pos_symbol := symbol trade;
               pos_quantity := pos_quantity position ⊕ quantity trade;
               average_price :=
                 (average_price position ⊗ pos_quantity position
                  ⊕ price trade ⊗ quantity trade)
                 ⊘ (pos_quantity position ⊕ quantity trade) |}
            (positions pf);
        trades := trades pf ++ [trade] |}).
Proof.
  intros Hs Hc Hp Hpq Hpa Hok. unfold apply_trade. rewrite Hs. unfold_method.
  apply ltb_false in Hc. unfold buy_amount in *. rewrite Hc. cbn.
  rewrite Hp.
  apply Trade_post_init_ok in Hok as (Hq & Hpr & _ & _ & Hsym).
  assert (Hnq : 0 < pos_quantity position ⊕ quantity trade)
    by (apply Decimal_add_pos; assumption).
  unfold Decimal_truediv. rewrite decide_False; last first.
  { intros E. rewrite E in Hnq. by apply Qclt_not_eq in Hnq. }
  unfold new_Position, construct.
  replace (Position_post_init _) with (Ok tt); [reflexivity|].
  symmetry. apply Position_post_init_ok. cbn. split_and!; try assumption.
  apply Decimal_div_pos; [|assumption].
  apply Decimal_add_pos; apply Decimal_mul_pos; assumption.
Qed.

Lemma apply_trade_sell_no_position :
  side trade = SELL → positions pf !! symbol trade = None →
  apply_trade trade pf
  = (Raise (ValueError "Cannot sell more than existing position."),
     {| cash := cash pf ⊕ sell_amount trade;
        equity_curve := equity_curve pf;
        positions := positions pf;
        trades := trades pf |}).
Proof.
  intros Hs Hp. unfold apply_trade. rewrite Hs. unfold_method. cbn.
  rewrite Hp. reflexivity.
Qed.

Lemma apply_trade_sell_too_much position :
  side trade = SELL → positions pf !! symbol trade = Some position →
  pos_quantity position < quantity trade →
  apply_trade trade pf
  = (Raise (ValueError "Cannot sell more than existing position."),
     {| cash := cash pf ⊕ sell_amount trade;
        equity_curve := equity_curve pf;
        positions := positions pf;
        trades := trades pf |}).
Proof.
  intros Hs Hp Hlt. unfold apply_trade. rewrite Hs. unfold_method. cbn.
  rewrite Hp. apply ltb_true in Hlt. rewrite Hlt. reflexivity.
Qed.

Lemma apply_trade_sell_all position :
  side trade = SELL → positions pf !! symbol trade = Some position →
  pos_quantity position = quantity trade →
  apply_trade trade pf
  = (Ok tt,
     {| cash := cash pf ⊕ sell_amount trade;
        equity_curve := equity_curve pf;
        positions := dict_delitem (symbol trade) (positions pf);
        trades := trades pf ++ [trade] |}).
Proof.
  intros Hs Hp Heq. unfold apply_trade. rewrite Hs. unfold_method. cbn.
  rewrite Hp. rewrite Heq.
  replace (ltb (quantity trade) (quantity trade)) with false
    by (symmetry; apply ltb_false, Qcle_refl).
  replace (eqb (quantity trade ⊖ quantity trade) 0) with true
    by (symmetry; apply eqb_true, Decimal_sub_diag).
  cbn. rewrite Hp. reflexivity.
Qed.

Lemma apply_trade_sell_part position :
  side trade = SELL → positions pf !! symbol trade = Some position →
  quantity trade < pos_quantity position →
  0 < average_price position → strip (symbol trade) ≠ "" →
  apply_trade trade pf
  = (Ok tt,
     {| cash := cash pf ⊕ sell_amount trade;
        equity_curve := equity_curve pf;
        positions :=
          dict_setitem (symbol trade)
            {| pos_symbol := symbol trade;
               pos_quantity := pos_quantity position ⊖ quantity trade;
               average_price := average_price position |}
            (positions pf);
        trades := trades pf ++ [trade] |}).
Proof.
  intros Hs Hp Hlt Hpa Hsym. unfold apply_trade. rewrite Hs.
  unfold_method. cbn. rewrite Hp.
  replace (ltb (pos_quantity position) (quantity trade)) with false
    by (symmetry; apply ltb_false, Qclt_le_weak, Hlt).
  assert (Hpos : 0 < pos_quantity position ⊖ quantity trade)
    by (apply Decimal_sub_pos, Hlt).
  replace (eqb _ 0) with false; last first.
  { symmetry. apply eqb_false. intros E. rewrite E in Hpos.
    by apply Qclt_not_eq in Hpos. }
  unfold new_Position, construct.
  replace (Position_post_init _) with (Ok tt); [reflexivity|].
  symmetry. apply Position_post_init_ok. cbn. auto.
Qed.

End apply_trade_cases.

(** *** Holdings invariant *)

Lemma new_Position_ok (p0 p : Position) :
  new_Position p0 = Ok p → p = p0 ∧ position_ok p.
Proof.
  unfold new_Position. rewrite construct_ok, Position_post_init_ok.
  intros [(Hq & Ha & _) ->]. split; [reflexivity | split; assumption].
Qed.

Lemma holdings_ok_setitem pf k p0 p c ec tr :
  holdings_ok pf → new_Position p0 = Ok p →
  holdings_ok {| cash := c; equity_curve := ec;
                 positions := dict_setitem k p (positions pf);
                 trades := tr |}.
Proof.
  intros Hinv [_ Hp]%new_Position_ok. unfold holdings_ok. cbn.
  apply Forall_items_set; assumption.
Qed.

Lemma apply_trade_holdings_ok pf trade :
  holdings_ok pf → holdings_ok (snd (apply_trade trade pf)).
Proof.
  intros Hinv. unfold apply_trade. unfold_method.
  destruct (side trade) as [[|]|repr]; cbn.
  - destruct (ltb _ _); cbn; [exact Hinv|].
    destruct (positions pf !! symbol trade) as [position|]; cbn.
    + destruct (Decimal_truediv _ _) as [avg|e]; cbn; [|exact Hinv].
      destruct (new_Position _) as [p|e] eqn:Hp; cbn; [|exact Hinv].
      eapply holdings_ok_setitem; eassumption.
    + destruct (new_Position _) as [p|e] eqn:Hp; cbn; [|exact Hinv].
      eapply holdings_ok_setitem; eassumption.
  - destruct (positions pf !! symbol trade) as [position|] eqn:Hpos; cbn;
      [|exact Hinv].
    destruct (ltb _ _); cbn; [exact Hinv|].
    destruct (eqb _ _); cbn.
    + rewrite Hpos. cbn. unfold holdings_ok. cbn.
      apply Forall_items_del. exact Hinv.
    + destruct (new_Position _) as [p|e] eqn:Hp; cbn; [|exact Hinv].
      eapply holdings_ok_setitem; eassumption.
  - exact Hinv.
Qed.

Lemma mark_to_market_positions pf timestamp close_prices :
  positions (snd (mark_to_market timestamp close_prices pf)) = positions pf.
Proof.
  unfold mark_to_market. unfold_method.
  destruct (sum_positions _ _ _); reflexivity.
Qed.

Lemma reachable_holdings_ok pf : reachable pf → holdings_ok pf.
Proof.
  induction 1 as [c|pf trade _ IH|pf ts cp _ IH].
  - unfold holdings_ok, fresh. cbn. constructor.
  - apply apply_trade_holdings_ok, IH.
  - unfold holdings_ok. rewrite mark_to_market_positions. exact IH.
Qed.

(** C9. Every holding has quantity > 0 and average price > 0; the property
    is kept by every call to [apply_trade] and [mark_to_market], whether
    the call returns or raises; a SELL of the whole held quantity removes
    the holding; hence in every reachable portfolio every holding has a
    positive (in particular non-zero) quantity and average price. *)
Theorem holdings_invariant :
  (∀ pf trade, holdings_ok pf → holdings_ok (snd (apply_trade trade pf)))
  ∧ (∀ pf timestamp close_prices,
       holdings_ok pf →
       holdings_ok (snd (mark_to_market timestamp close_prices pf)))
  ∧ (∀ pf trade position,
       side trade = SELL →
       positions pf !! symbol trade = Some position →
       pos_quantity position = quantity trade →
       fst (apply_trade trade pf) = Ok tt
       ∧ positions (snd (apply_trade trade pf)) !! symbol trade = None)
  ∧ (∀ pf, reachable pf →
       ∀ k p, positions pf !! k = Some p →
              0 < pos_quantity p ∧ 0 < average_price p ∧ pos_quantity p ≠ 0).
Proof.
  split_and!.
  - intros pf trade. apply apply_trade_holdings_ok.
  - intros pf ts cp Hinv. unfold holdings_ok.
    rewrite mark_to_market_positions. exact Hinv.
  - intros pf trade position Hs Hp Hq.
    rewrite (apply_trade_sell_all pf trade position Hs Hp Hq). cbn.
    split; [reflexivity | apply dict_lookup_delitem_eq].
  - intros pf Hr k p Hk.
    destruct (holdings_ok_lookup pf k p (reachable_holdings_ok pf Hr) Hk)
      as [Hq Ha].
    split_and!; [assumption..|].
    intros E. rewrite E in Hq. by apply Qclt_not_eq in Hq.
Qed.

(** *** A call that raises *)

(** What a call that raises leaves behind, for a valid trade on a portfolio
    whose holdings are valid: holdings, trade log and equity curve are the
    ones before the call, and so is cash unless the trade is a SELL, in
    which case the proceeds have been credited before the holding was
    looked at. *)
Lemma apply_trade_raises_frame pf trade e :
  holdings_ok pf → Trade_post_init trade = Ok tt →
  fst (apply_trade trade pf) = Raise e →
  positions (snd (apply_trade trade pf)) = positions pf
  ∧ trades (snd (apply_trade trade pf)) = trades pf
  ∧ equity_curve (snd (apply_trade trade pf)) = equity_curve pf
  ∧ (side trade ≠ SELL → cash (snd (apply_trade trade pf)) = cash pf)
  ∧ (side trade = SELL →
     cash (snd (apply_trade trade pf)) = cash pf ⊕ sell_amount trade).
Proof.
  intros Hinv Hok.
  pose proof Hok as (Hq & Hpr & _ & _ & Hsym)%Trade_post_init_ok.
  destruct (side trade) as [[|]|repr] eqn:Hs.
  - destruct (Qclt_le_dec (cash pf) (buy_amount trade)) as [Hc|Hc].
    + rewrite (apply_trade_buy_insufficient pf trade Hs Hc). cbn.
      intros _. split_and!; try reflexivity. discriminate.
    + destruct (positions pf !! symbol trade) as [position|] eqn:Hp.
      * destruct (holdings_ok_lookup _ _ _ Hinv Hp) as [Hpq Hpa].
        rewrite (apply_trade_buy_add pf trade position Hs Hc Hp Hpq Hpa Hok).
        discriminate.
      * rewrite (apply_trade_buy_new pf trade Hs Hc Hp Hok). discriminate.
  - destruct (positions pf !! symbol trade) as [position|] eqn:Hp.
    + destruct (Qclt_le_dec (pos_quantity position) (quantity trade))
        as [Hlt|Hle].
      * rewrite (apply_trade_sell_too_much pf trade position Hs Hp Hlt). cbn.
        intros _. split_and!; try reflexivity. congruence.
      * destruct (Qcle_lt_or_eq _ _ Hle) as [Hlt|Heq].
        -- destruct (holdings_ok_lookup _ _ _ Hinv Hp) as [_ Hpa].
           rewrite (apply_trade_sell_part pf trade position Hs Hp Hlt Hpa Hsym).
           discriminate.
        -- rewrite (apply_trade_sell_all pf trade position Hs Hp (eq_sym Heq)).
           discriminate.
    + rewrite (apply_trade_sell_no_position pf trade Hs Hp). cbn.
      intros _. split_and!; try reflexivity. congruence.
  - rewrite (apply_trade_foreign pf trade repr Hs). cbn.
    intros _. split_and!; try reflexivity. discriminate.
Qed.

(** C1. On [Portfolio(cash = 10000)] with no holding, the valid trade
    SELL 1 AAPL at 100 makes [apply_trade] raise, and the portfolio it
    leaves has cash 10100, not the 10000 from before the call; holdings and
    trade log are unchanged. *)
Theorem apply_trade_oversell_credits_cash :
  Trade_post_init (plain_trade 0 SELL 1 100) = Ok tt
  ∧ fst (apply_trade (plain_trade 0 SELL 1 100) (fresh (dec 10000)))
    = Raise (ValueError "Cannot sell more than existing position.")
  ∧ cash (snd (apply_trade (plain_trade 0 SELL 1 100) (fresh (dec 10000))))
    = dec 10100
  ∧ cash (snd (apply_trade (plain_trade 0 SELL 1 100) (fresh (dec 10000))))
    ≠ cash (fresh (dec 10000))
  ∧ positions (snd (apply_trade (plain_trade 0 SELL 1 100)
                      (fresh (dec 10000))))
    = positions (fresh (dec 10000))
  ∧ trades (snd (apply_trade (plain_trade 0 SELL 1 100) (fresh (dec 10000))))
    = trades (fresh (dec 10000)).
Proof.
  assert (Hs : side (plain_trade 0 SELL 1 100) = SELL) by reflexivity.
  assert (Hp : positions (fresh (dec 10000))
               !! symbol (plain_trade 0 SELL 1 100) = None) by reflexivity.
  rewrite (apply_trade_sell_no_position _ _ Hs Hp). cbn.
  split_and!; try reflexivity; dec_compute.
Qed.

(** A closed side condition, by evaluation. *)
Ltac closed_goal :=
  lazymatch goal with
  | |- @eq (result _) _ _ => vm_compute; reflexivity
  | |- @eq side_value _ _ => reflexivity
  | |- @eq string _ _ => reflexivity
  | |- @eq (option _) _ _ => vm_compute; reflexivity
  | |- @eq bool _ _ => vm_compute; reflexivity
  | |- @eq Qc _ _ => dec_compute
  | |- ¬ @eq Qc _ _ => dec_compute
  | |- Qcle _ _ => vm_compute; discriminate
  | |- Qclt _ _ => vm_compute; reflexivity
  end.

(** *** Two BUYs: weighted-average cost basis *)

Lemma buy_amount_exact_eq t :
  buy_amount_exact t →
  buy_amount t = quantity t * price t + fee t + slippage t.
Proof.
  intros (H1 & H2 & H3). unfold buy_amount, notional_value.
  rewrite (Decimal_mul_exact _ _ H1), (Decimal_add_exact _ _ H2).
  apply Decimal_add_exact, H3.
Qed.

Lemma sell_amount_exact_eq t :
  sell_amount_exact t →
  sell_amount t = quantity t * price t - fee t - slippage t.
Proof.
  intros (H1 & H2 & H3). unfold sell_amount, notional_value.
  rewrite (Decimal_mul_exact _ _ H1), (Decimal_sub_exact _ _ H2).
  apply Decimal_sub_exact, H3.
Qed.

(** C2. On a portfolio with no holding in the symbol and enough cash for
    both, two valid BUY trades in that symbol, [q1] at [p1] then [q2] at
    [p2], both succeed and leave a holding whose quantity is [q1 + q2] and
    whose average price is [(q1 * p1 + q2 * p2) / (q1 + q2)], each
    operation rounded to 28 significant digits; they are the exact sum
    and the exact quotient when no operation rounds. *)
Theorem two_buys_weighted_average (pf : Portfolio) (t1 t2 : Trade) :
  Trade_post_init t1 = Ok tt → Trade_post_init t2 = Ok tt →
  side t1 = BUY → side t2 = BUY → symbol t2 = symbol t1 →
  positions pf !! symbol t1 = None →
  buy_amount t1 ≤ cash pf → buy_amount t2 ≤ cash pf ⊖ buy_amount t1 →
  ∃ pf1 pf2,
    apply_trade t1 pf = (Ok tt, pf1) ∧ apply_trade t2 pf1 = (Ok tt, pf2)
    ∧ ∃ p, positions pf2 !! symbol t1 = Some p
           ∧ pos_quantity p = quantity t1 ⊕ quantity t2
           ∧ average_price p
             = (quantity t1 ⊗ price t1 ⊕ quantity t2 ⊗ price t2)
               ⊘ (quantity t1 ⊕ quantity t2)
           ∧ (average_exact (quantity t1) (price t1)
                (quantity t2) (price t2) →
              pos_quantity p = quantity t1 + quantity t2
              ∧ average_price p
                = (quantity t1 * price t1 + quantity t2 * price t2)
                  / (quantity t1 + quantity t2)).
Proof.
  intros Hok1 Hok2 Hs1 Hs2 Hsym Hnone Hc1 Hc2.
  pose proof Hok1 as (Hq1 & Hp1 & _)%Trade_post_init_ok.
  eexists _, _. split; [apply apply_trade_buy_new; assumption|].
  split.
  - eapply apply_trade_buy_add; try eassumption.
    + rewrite Hsym. cbn. apply dict_lookup_setitem_eq.
    + exact Hq1.
    + exact Hp1.
  - cbn. rewrite Hsym, dict_lookup_setitem_eq. eexists.
    split; [reflexivity|]. cbn.
    rewrite (Decimal_mul_comm (price t1)), (Decimal_mul_comm (price t2)).
    split_and!; [reflexivity..|].
    intros (H1 & H2 & H3 & H4 & H5).
    rewrite (Decimal_add_exact _ _ H1), (Decimal_mul_exact _ _ H2),
      (Decimal_mul_exact _ _ H3), (Decimal_add_exact _ _ H4).
    split; [reflexivity | apply Decimal_div_exact, H5].
Qed.

Lemma two_buys_weighted_average_witness :
  ∃ pf1 pf2,
    apply_trade (plain_trade 1 BUY 2 100) (fresh (dec 10000)) = (Ok tt, pf1)
    ∧ apply_trade (plain_trade 2 BUY 1 130) pf1 = (Ok tt, pf2)
    ∧ ∃ p, positions pf2 !! "AAPL" = Some p
           ∧ pos_quantity p = dec 3 ∧ average_price p = dec 110.
Proof.
  destruct (two_buys_weighted_average (fresh (dec 10000))
              (plain_trade 1 BUY 2 100) (plain_trade 2 BUY 1 130))
    as (pf1 & pf2 & H1 & H2 & p & Hp & _ & _ & Hex);
    try closed_goal.
  exists pf1, pf2. split; [exact H1|]. split; [exact H2|].
  exists p. split; [exact Hp|].
  destruct Hex as [Hq Ha].
  - unfold average_exact, representable. cbn.
    split_and!; dec_compute.
  - rewrite Hq, Ha. cbn. split; dec_compute.
Defined.

(** The BUYs 1 at 1 and then 2 at 2 leave the average price
    1.666666666666666666666666667, which is not 5/3. *)
Lemma two_buys_average_rounded :
  ∃ pf1 pf2,
    apply_trade (plain_trade 1 BUY 1 1) (fresh (dec 10000)) = (Ok tt, pf1)
    ∧ apply_trade (plain_trade 2 BUY 2 2) pf1 = (Ok tt, pf2)
    ∧ ∃ p, positions pf2 !! "AAPL" = Some p
           ∧ pos_quantity p = dec 1 + dec 2
           ∧ average_price p
             = decq 1666666666666666666666666667
                    1000000000000000000000000000
           ∧ average_price p
             ≠ (dec 1 * dec 1 + dec 2 * dec 2) / (dec 1 + dec 2).
Proof.
  destruct (two_buys_weighted_average (fresh (dec 10000))
              (plain_trade 1 BUY 1 1) (plain_trade 2 BUY 2 2))
    as (pf1 & pf2 & H1 & H2 & p & Hp & Hq & Ha & _);
    try closed_goal.
  exists pf1, pf2. split; [exact H1|]. split; [exact H2|].
  exists p. split; [exact Hp|].
  rewrite Hq, Ha. cbn. split_and!; dec_compute.
Qed.

(** *** BUY then SELL of the same quantity *)

(** C3. On a portfolio with no holding in the symbol and enough cash, a
    valid BUY of [q] followed by a valid SELL of the same [q] in the same
    symbol both succeed, leave no holding in that symbol, and leave cash
    equal to the cash before, minus (BUY notional + fee + slippage), plus
    (SELL notional - fee - slippage), each operation rounded to 28
    significant digits; it is the exact value when no operation
    rounds. *)
Theorem buy_then_sell_round_trip (pf : Portfolio) (tb ts : Trade) :
  Trade_post_init tb = Ok tt → Trade_post_init ts = Ok tt →
  side tb = BUY → side ts = SELL →
  symbol ts = symbol tb → quantity ts = quantity tb →
  positions pf !! symbol tb = None →
  notional_value tb ⊕ fee tb ⊕ slippage tb ≤ cash pf →
  ∃ pf1 pf2,
    apply_trade tb pf = (Ok tt, pf1) ∧ apply_trade ts pf1 = (Ok tt, pf2)
    ∧ positions pf2 !! symbol tb = None
    ∧ cash pf2
      = cash pf ⊖ (notional_value tb ⊕ fee tb ⊕ slippage tb)
        ⊕ (notional_value ts ⊖ fee ts ⊖ slippage ts)
    ∧ (buy_amount_exact tb → sell_amount_exact ts →
       representable (cash pf - buy_amount tb) →
       representable (cash pf - buy_amount tb + sell_amount ts) →
       cash pf2
       = cash pf - (quantity tb * price tb + fee tb + slippage tb)
         + (quantity ts * price ts - fee ts - slippage ts)).
Proof.
  intros Hokb Hoks Hsb Hss Hsym Hq Hnone Hc.
  eexists _, _. split; [apply apply_trade_buy_new; assumption|].
  split.
  - eapply apply_trade_sell_all; [exact Hss| |].
    + rewrite Hsym. cbn. apply dict_lookup_setitem_eq.
    + cbn. symmetry. exact Hq.
  - cbn. rewrite Hsym.
    split; [apply dict_lookup_delitem_eq|]. split; [reflexivity|].
    intros Hb Hs H1 H2.
    rewrite (Decimal_sub_exact _ _ H1), (Decimal_add_exact _ _ H2).
    rewrite (buy_amount_exact_eq _ Hb), (sell_amount_exact_eq _ Hs).
    reflexivity.
Qed.

Lemma buy_then_sell_round_trip_witness :
  ∃ pf1 pf2,
    apply_trade (plain_trade 1 BUY 2 100) (fresh (dec 10000)) = (Ok tt, pf1)
    ∧ apply_trade (plain_trade 2 SELL 2 120) pf1 = (Ok tt, pf2)
    ∧ positions pf2 !! "AAPL" = None
    ∧ cash pf2 = dec 10040.
Proof.
  destruct (buy_then_sell_round_trip (fresh (dec 10000))
              (plain_trade 1 BUY 2 100) (plain_trade 2 SELL 2 120))
    as (pf1 & pf2 & H1 & H2 & Hp & Hc & _);
    try closed_goal.
  exists pf1, pf2. split; [exact H1|]. split; [exact H2|].
  split; [exact Hp|]. rewrite Hc. cbn. dec_compute.
Defined.

(** From cash 1E+30, BUY 2 at 100 and then SELL 2 at 120 leave cash
    1E+30, not 1E+30 + 40. *)
Lemma buy_then_sell_cash_rounded :
  ∃ pf1 pf2,
    apply_trade (plain_trade 1 BUY 2 100) (fresh (dec (10 ^ 30)))
    = (Ok tt, pf1)
    ∧ apply_trade (plain_trade 2 SELL 2 120) pf1 = (Ok tt, pf2)
    ∧ cash pf1 = dec (10 ^ 30 - 200)
    ∧ cash pf2 = dec (10 ^ 30)
    ∧ cash pf2
      ≠ dec (10 ^ 30) - (dec 2 * dec 100 + dec 0 + dec 0)
        + (dec 2 * dec 120 - dec 0 - dec 0).
Proof.
  destruct (buy_then_sell_round_trip (fresh (dec (10 ^ 30)))
              (plain_trade 1 BUY 2 100) (plain_trade 2 SELL 2 120))
    as (pf1 & pf2 & H1 & H2 & Hp & Hc & _);
    try closed_goal.
  exists pf1, pf2. split; [exact H1|]. split; [exact H2|].
  rewrite Hc.
  rewrite (apply_trade_buy_new (fresh (dec (10 ^ 30)))
             (plain_trade 1 BUY 2 100) eq_refl) in H1 by closed_goal.
  injection H1 as <-. cbn.
  split_and!; dec_compute.
Qed.

(** ** The execution model *)

Lemma copy_abs_nonneg (x : Decimal) : 0 ≤ copy_abs x.
Proof. apply Qcabs_nonneg. Qed.

Lemma context_round_1 : context_round (dec 1) = dec 1.
Proof. dec_compute. Qed.

(** Division by the literal 10_000, as a multiplication. *)
Ltac over_10000 := change (/ (10000 # 1))%Q with (1 # 10000)%Q.

Lemma slippage_rate_nonneg (em : ExecutionModel) :
  0 ≤ slippage_bps em → 0 ≤ slippage_rate em.
Proof.
  unfold slippage_rate. intros H. apply context_round_nonneg.
  to_Q. over_10000. lra.
Qed.

Lemma slippage_rate_ge_1 (em : ExecutionModel) :
  dec 10000 ≤ slippage_bps em → dec 1 ≤ slippage_rate em.
Proof.
  unfold slippage_rate. intros H. rewrite <- context_round_1.
  apply context_round_mono. to_Q. over_10000. lra.
Qed.

Lemma base_price_pos (em : ExecutionModel) (bar : Bar) :
  Bar_post_init bar = Ok tt → 0 < base_price em bar.
Proof.
  intros [Ho Hc]%Bar_post_init_prices. unfold base_price.
  destruct (bool_decide _); assumption.
Qed.

Lemma one_plus_ge_1 (r : Decimal) : 0 ≤ r → dec 1 ≤ dec 1 ⊕ r.
Proof.
  intros Hr. rewrite <- context_round_1 at 1.
  apply context_round_mono. to_Q. lra.
Qed.

Lemma one_minus_le_1 (r : Decimal) : 0 ≤ r → dec 1 ⊖ r ≤ dec 1.
Proof.
  intros Hr. rewrite <- context_round_1 at 2.
  apply context_round_mono. to_Q. lra.
Qed.

Lemma mult_one_plus (b r : Decimal) :
  0 < b → 0 ≤ r → context_round b ≤ b ⊗ (dec 1 ⊕ r).
Proof.
  intros Hb Hr. apply context_round_mono.
  pose proof (one_plus_ge_1 r Hr) as H. revert H.
  generalize (dec 1 ⊕ r). intros u H. to_Q. nra.
Qed.

Lemma mult_one_minus (b r : Decimal) :
  0 < b → 0 ≤ r → b ⊗ (dec 1 ⊖ r) ≤ context_round b.
Proof.
  intros Hb Hr. apply context_round_mono.
  pose proof (one_minus_le_1 r Hr) as H. revert H.
  generalize (dec 1 ⊖ r). intros u H. to_Q. nra.
Qed.

Lemma mult_one_minus_pos (b r : Decimal) :
  0 < b → r < dec 1 → 0 < b ⊗ (dec 1 ⊖ r).
Proof.
  intros Hb Hr. apply Decimal_mul_pos; [exact Hb|].
  apply Decimal_sub_pos, Hr.
Qed.

Lemma mult_one_minus_nonpos (b r : Decimal) :
  0 < b → dec 1 ≤ r → b ⊗ (dec 1 ⊖ r) ≤ 0.
Proof.
  intros Hb Hr. apply Decimal_mul_nonneg_nonpos.
  - apply Qclt_le_weak, Hb.
  - apply Decimal_sub_nonpos, Hr.
Qed.

(** [execute] once the two guards on the order are passed. *)
Lemma execute_valid_order (em : ExecutionModel) (order : Order) (bar : Bar) :
  Order_post_init order = Ok tt →
  execute em order bar
  = new_Trade {| timestamp := bar_timestamp bar;
                 side := order_side order;
                 quantity := order_quantity order;
                 price := fill_price em order bar;
                 fee := fee_per_trade em;
                 slippage :=
                   copy_abs (fill_price em order bar ⊖ base_price em bar)
                   ⊗ order_quantity order;
                 symbol := order_symbol order |}.
Proof.
  intros (Hq & Hsym)%Order_post_init_ok. unfold execute.
  apply leb_false in Hq. rewrite Hq. cbn.
  apply strip_nonempty, str_not_false in Hsym. rewrite Hsym. reflexivity.
Qed.

(** C5, as stated, fails.  A model with slippage 10000 bps is accepted,
    the order and the bar are valid, and [execute] returns no
    transaction; the same happens at 9999.99999999999999999999999999999
    bps, below 10000, where the slippage rate rounds to 1; and a BUY
    without slippage on a bar that opens at
    100.00000000000000000000000000009 is filled at 100, below the base
    price. *)
Lemma execute_sell_full_slippage_no_trade :
  (ExecutionModel_post_init (model_bps 10000) = Ok tt
   ∧ 0 ≤ fee_per_trade (model_bps 10000)
   ∧ 0 ≤ slippage_bps (model_bps 10000)
   ∧ Order_post_init (test_order 1 SELL 1) = Ok tt
   ∧ Bar_post_init (test_bar 2 100 110) = Ok tt
   ∧ ¬ ∃ trade,
         execute (model_bps 10000) (test_order 1 SELL 1) (test_bar 2 100 110)
         = Ok trade)
  ∧ (ExecutionModel_post_init (model_rate almost_10000) = Ok tt
     ∧ 0 ≤ slippage_bps (model_rate almost_10000)
     ∧ slippage_bps (model_rate almost_10000) < dec 10000
     ∧ slippage_rate (model_rate almost_10000) = dec 1
     ∧ execute (model_rate almost_10000) (test_order 1 SELL 1)
         (test_bar 2 100 110)
       = Raise (ValueError "Trade price must be > 0."))
  ∧ (Bar_post_init (flat_bar 2 long_price) = Ok tt
     ∧ ∃ trade,
         execute (model_bps 0) (test_order 1 BUY 1) (flat_bar 2 long_price)
         = Ok trade
         ∧ price trade = dec 100
         ∧ price trade < base_price (model_bps 0) (flat_bar 2 long_price)).
Proof.
  split_and!; try closed_goal.
  - intros [trade H]. vm_compute in H. discriminate H.
  - eexists. split; [vm_compute; reflexivity|]. cbn. split; closed_goal.
Qed.

(** C5, amended. For a model with fee >= 0 and slippage_bps >= 0, a valid
    order and a valid bar, if the order is a BUY, or a SELL and the
    slippage rate slippage_bps/10000, rounded, is below 1, [execute]
    returns a transaction whose fill price is
    base_price * (1 + slippage_bps/10000) for the BUY and
    base_price * (1 - slippage_bps/10000) for the SELL, each operation
    rounded to 28 significant digits (BUY fill >= the rounded base price,
    SELL fill <= the rounded base price), whose slippage cost is
    |fill - base| * quantity, rounded likewise, and is >= 0, whose fee is
    the configured fee, whose timestamp is the bar's, and whose direction,
    quantity and symbol are the order's. *)
Theorem execute_fill (em : ExecutionModel) (order : Order) (bar : Bar)
    (s : Side) :
  ExecutionModel_post_init em = Ok tt →
  Order_post_init order = Ok tt →
  Bar_post_init bar = Ok tt →
  order_side order = member s →
  (s = SELL → slippage_bps em ⊘ dec 10000 < dec 1) →
  ∃ trade,
    execute em order bar = Ok trade
    ∧ price trade
      = match s with
        | BUY => base_price em bar ⊗ (dec 1 ⊕ slippage_bps em ⊘ dec 10000)
        | SELL => base_price em bar ⊗ (dec 1 ⊖ slippage_bps em ⊘ dec 10000)
        end
    ∧ (s = BUY → context_round (base_price em bar) ≤ price trade)
    ∧ (s = SELL → price trade ≤ context_round (base_price em bar))
    ∧ (representable (base_price em bar) →
       match s with
       | BUY => base_price em bar ≤ price trade
       | SELL => price trade ≤ base_price em bar
       end)
    ∧ slippage trade
      = Qcabs (price trade ⊖ base_price em bar) ⊗ quantity trade
    ∧ 0 ≤ slippage trade
    ∧ fee trade = fee_per_trade em
    ∧ timestamp trade = bar_timestamp bar
    ∧ side trade = order_side order
    ∧ quantity trade = order_quantity order
    ∧ symbol trade = order_symbol order.
Proof.
  intros Hem Hord Hbar Hside Hbps.
  pose proof Hem as [Hslip Hfee]%ExecutionModel_post_init_ok.
  pose proof Hord as [Hq Hsym]%Order_post_init_ok.
  pose proof (base_price_pos em bar Hbar) as Hbase.
  pose proof (slippage_rate_nonneg em Hslip) as Hrate.
  assert (Hfill : fill_price em order bar
                  = match s with
                    | BUY => base_price em bar ⊗ (dec 1 ⊕ slippage_rate em)
                    | SELL => base_price em bar ⊗ (dec 1 ⊖ slippage_rate em)
                    end).
  { unfold fill_price. rewrite Hside. destruct s; reflexivity. }
  assert (Hpos : 0 < fill_price em order bar).
  { rewrite Hfill. destruct s.
    - eapply Qclt_le_trans; [|apply mult_one_plus; assumption].
      apply context_round_pos, Hbase.
    - apply mult_one_minus_pos; [assumption|]. apply Hbps. reflexivity. }
  assert (Hcost : 0 ≤ copy_abs (fill_price em order bar ⊖ base_price em bar)
                      ⊗ order_quantity order).
  { apply Decimal_mul_nonneg;
      [apply copy_abs_nonneg | apply Qclt_le_weak, Hq]. }
  assert (Hbuy : s = BUY →
                 context_round (base_price em bar) ≤ fill_price em order bar).
  { intros ->. rewrite Hfill. apply mult_one_plus; assumption. }
  assert (Hsell : s = SELL →
                  fill_price em order bar ≤ context_round (base_price em bar)).
  { intros ->. rewrite Hfill. apply mult_one_minus; assumption. }
  eexists. split.
  { rewrite (execute_valid_order em order bar Hord).
    apply construct_ok. split; [|reflexivity].
    apply Trade_post_init_ok. cbn. split_and!; assumption. }
  cbn. split_and!; try reflexivity; try assumption.
  intros Hrep. unfold representable in Hrep.
  destruct s; [specialize (Hbuy eq_refl) | specialize (Hsell eq_refl)];
    congruence.
Qed.

Lemma execute_fill_witness :
  ∃ trade,
    execute (model_bps 50) (test_order 1 SELL 2) (test_bar 2 100 100)
    = Ok trade
    ∧ price trade = decq 995 10
    ∧ slippage trade = dec 1
    ∧ fee trade = dec 0
    ∧ timestamp trade = 2%Z
    ∧ side trade = SELL
    ∧ quantity trade = dec 2
    ∧ symbol trade = "AAPL".
Proof.
  destruct (execute_fill (model_bps 50) (test_order 1 SELL 2)
              (test_bar 2 100 100) SELL)
    as (trade & He & Hp & _ & _ & _ & Hs & _ & Hf & Ht & Hsd & Hq & Hsy);
    try closed_goal.
  { intros _. closed_goal. }
  exists trade. split; [exact He|].
  rewrite Hs, Hp, Hf, Ht, Hsd, Hq, Hsy. cbn.
  split_and!; try reflexivity; closed_goal.
Defined.

(** C10. For a model with slippage_bps >= 10000 (which construction
    accepts), a valid SELL order and a valid bar, the computed fill price
    is <= 0 and [execute] raises the validation error of the transaction
    constructor. *)
Theorem execute_sell_raises_from_full_slippage (em : ExecutionModel)
    (order : Order) (bar : Bar) :
  ExecutionModel_post_init em = Ok tt →
  dec 10000 ≤ slippage_bps em →
  Order_post_init order = Ok tt →
  order_side order = SELL →
  Bar_post_init bar = Ok tt →
  fill_price em order bar ≤ 0
  ∧ execute em order bar = Raise (ValueError "Trade price must be > 0.").
Proof.
  intros Hem Hbps Hord Hside Hbar.
  pose proof Hord as [Hq Hsym]%Order_post_init_ok.
  pose proof (base_price_pos em bar Hbar) as Hbase.
  assert (Hfill : fill_price em order bar ≤ 0).
  { unfold fill_price. rewrite Hside.
    apply mult_one_minus_nonpos; [assumption|].
    apply slippage_rate_ge_1, Hbps. }
  split; [exact Hfill|].
  rewrite (execute_valid_order em order bar Hord).
  unfold new_Trade, construct, Trade_post_init. cbn.
  apply leb_false in Hq. rewrite Hq. cbn.
  apply leb_true in Hfill. rewrite Hfill. reflexivity.
Qed.

Lemma execute_sell_raises_from_full_slippage_witness :
  fill_price (model_bps 12000) (test_order 1 SELL 3) (test_bar 2 100 110) ≤ 0
  ∧ execute (model_bps 12000) (test_order 1 SELL 3) (test_bar 2 100 110)
    = Raise (ValueError "Trade price must be > 0.").
Proof.
  apply (execute_sell_raises_from_full_slippage (model_bps 12000)
           (test_order 1 SELL 3) (test_bar 2 100 110));
    closed_goal.
Defined.

(** ** Metrics *)

(** *** total_return *)

(** A closed equation between values that hold decimals, by evaluation. *)
Ltac dec_struct :=
  vm_compute;
  repeat first [ reflexivity
               | apply Qc_is_canon; reflexivity
               | progress f_equal ].

Lemma Ok_inj {A} (a b : A) : Ok a = Ok b → a = b.
Proof. intros [= H]. exact H. Qed.

(** C6. [total_return] raises a validation error exactly when the curve is
    empty or its first equity is zero; otherwise it returns
    (final - initial) / initial, the difference and the quotient each
    rounded to 28 significant digits, which is the exact value when
    neither operation rounds.  On [100, 150] it returns 0.5 and on
    [200, 100] it returns -0.5. *)
Theorem total_return_spec :
  (∀ ec,
     (raises_ValueError (total_return ec)
      ↔ ec = [] ∨ equity <$> head ec = Some 0)
     ∧ (∀ first, head ec = Some first → equity first ≠ 0 →
          total_return ec
          = Ok ((equity (List.last ec first) ⊖ equity first)
                ⊘ equity first)
          ∧ (representable (equity (List.last ec first) - equity first) →
             representable ((equity (List.last ec first) - equity first)
                            / equity first) →
             total_return ec
             = Ok ((equity (List.last ec first) - equity first)
                   / equity first))))
  ∧ total_return (curve [100; 150]%Z) = Ok (decq 1 2)
  ∧ total_return (curve [200; 100]%Z) = Ok (decq (-1) 2).
Proof.
  split_and!.
  - intros ec. destruct ec as [|first rest]; cbn -[List.last].
    + split.
      * split; [intros _; left; reflexivity | intros _; eexists; reflexivity].
      * intros first [=].
    + destruct (eqb (equity first) 0) eqn:E.
      * apply eqb_true in E. split.
        -- split; [intros _; right; by rewrite E|].
           intros _. eexists. reflexivity.
        -- intros first' [= <-] Hne. contradiction.
      * apply eqb_false in E. split.
        -- split; [intros [msg [=]] | intros [[=]|H]].
           apply (inj Some) in H. contradiction.
        -- intros first' [= <-] _. split; [reflexivity|].
           intros H1 H2. rewrite (Decimal_sub_exact _ _ H1).
           rewrite (Decimal_div_exact _ _ H2). reflexivity.
  - dec_struct.
  - dec_struct.
Qed.

(** On [3, 4, 5] [total_return] returns 0.6666666666666666666666666667,
    not 2/3. *)
Lemma total_return_rounded :
  total_return (curve [3; 4; 5]%Z)
  = Ok (decq 6666666666666666666666666667 10000000000000000000000000000)
  ∧ total_return (curve [3; 4; 5]%Z) ≠ Ok ((dec 5 - dec 3) / dec 3).
Proof.
  assert (E : total_return (curve [3; 4; 5]%Z)
              = Ok (decq 6666666666666666666666666667
                         10000000000000000000000000000)) by dec_struct.
  split; [exact E|]. rewrite E. intros H%Ok_inj.
  apply Qc_eq_iff in H. vm_compute in H. discriminate H.
Qed.

(** *** returns_series *)

Lemma returns_loop_ok ec indices acc :
  Forall (index_in_range ec) indices →
  Forall (λ i, ¬ prior_equity_zero ec i) indices →
  ∃ rs, returns_loop ec indices acc = Ok (acc ++ rs)
        ∧ Forall2 (is_period_return ec) indices rs.
Proof.
  intros Hrange. revert acc.
  induction Hrange as [|i indices [Hi1 Hi2] _ IH]; intros acc Hnz.
  - exists []. cbn. rewrite app_nil_r. split; [reflexivity | constructor].
  - apply Forall_cons in Hnz as [Hi Hnz]. cbn [returns_loop].
    destruct (lookup_lt_is_Some_2 ec (i - 1)) as [prev Hprev]; [lia|].
    destruct (lookup_lt_is_Some_2 ec i) as [cur Hcur]; [lia|].
    rewrite Hprev, Hcur. cbn zeta. fold (period_return prev cur).
    destruct (eqb (equity prev) 0) eqn:E.
    + apply eqb_true in E. exfalso. apply Hi.
      unfold prior_equity_zero. rewrite Hprev. cbn. by rewrite E.
    + destruct (IH (acc ++ [period_return prev cur]) Hnz) as (rs & Hrs & HF).
      exists (period_return prev cur :: rs). split.
      * rewrite Hrs, <- app_assoc. reflexivity.
      * constructor; [|exact HF]. exists prev, cur. done.
Qed.

Lemma returns_loop_raises ec indices acc :
  Forall (index_in_range ec) indices →
  Exists (prior_equity_zero ec) indices →
  raises_ValueError (returns_loop ec indices acc).
Proof.
  intros Hrange. revert acc.
  induction Hrange as [|i indices [Hi1 Hi2] _ IH]; intros acc Hex.
  - inversion Hex.
  - cbn [returns_loop].
    destruct (lookup_lt_is_Some_2 ec (i - 1)) as [prev Hprev]; [lia|].
    destruct (lookup_lt_is_Some_2 ec i) as [cur Hcur]; [lia|].
    rewrite Hprev, Hcur.
    destruct (eqb (equity prev) 0) eqn:E; [eexists; reflexivity|].
    apply Exists_cons in Hex as [Hz|Hex]; [|apply IH, Hex].
    unfold prior_equity_zero in Hz. rewrite Hprev in Hz. cbn in Hz.
    apply eqb_false in E. congruence.
Qed.

Lemma seq_in_range (ec : list PortfolioSnapshot) :
  Forall (index_in_range ec) (seq 1 (length ec - 1)).
Proof.
  apply Forall_forall. intros i Hi%list_elem_of_In%in_seq.
  unfold index_in_range. lia.
Qed.

(** C7. With [n] the length of the curve: for [n < 2] [returns_series]
    returns the empty sequence; for [n >= 2] it raises a validation error
    exactly when [equity[i-1]] is zero for some [i] in [1..n-1], and
    otherwise returns [n-1] pairs, the one at position [i-1] being
    [(timestamp[i], equity[i] / equity[i-1] - 1)], for [i = 1..n-1], the
    quotient and the difference each rounded to 28 significant digits;
    the value is the exact one when neither operation rounds. *)
Theorem returns_series_spec (ec : list PortfolioSnapshot) :
  ((length ec < 2)%nat → returns_series ec = Ok [])
  ∧ ((2 ≤ length ec)%nat →
     (raises_ValueError (returns_series ec)
      ↔ ∃ i, (1 ≤ i ≤ length ec - 1)%nat
             ∧ equity <$> ec !! (i - 1)%nat = Some 0)
     ∧ ((∀ i, (1 ≤ i ≤ length ec - 1)%nat →
              equity <$> ec !! (i - 1)%nat ≠ Some 0) →
        ∃ rs, returns_series ec = Ok rs
              ∧ length rs = (length ec - 1)%nat
              ∧ ∀ i prev cur,
                  (1 ≤ i)%nat → ec !! (i - 1)%nat = Some prev →
                  ec !! i = Some cur →
                  rs !! (i - 1)%nat
                  = Some (snap_timestamp cur,
                          equity cur ⊘ equity prev ⊖ dec 1)
                  ∧ (representable (equity cur / equity prev) →
                     representable (equity cur / equity prev - dec 1) →
                     rs !! (i - 1)%nat
                     = Some (snap_timestamp cur,
                             equity cur / equity prev - dec 1)))).
Proof.
  unfold returns_series. split.
  - intros Hn. apply Nat.ltb_lt in Hn. rewrite Hn. reflexivity.
  - intros Hn. replace (length ec <? 2)%nat with false
      by (symmetry; apply Nat.ltb_ge, Hn).
    assert (Hok : (∀ i, (1 ≤ i ≤ length ec - 1)%nat →
                        equity <$> ec !! (i - 1)%nat ≠ Some 0) →
                  ∃ rs, returns_loop ec (seq 1 (length ec - 1)) [] = Ok rs
                        ∧ Forall2 (is_period_return ec)
                            (seq 1 (length ec - 1)) rs).
    { intros Hnz.
      destruct (returns_loop_ok ec (seq 1 (length ec - 1)) []
                  (seq_in_range ec)) as (rs & Hrs & HF).
      - apply Forall_forall. intros i Hi%list_elem_of_In%in_seq.
        apply Hnz. lia.
      - exists rs. split; [exact Hrs | exact HF]. }
    split; [split|].
    + intros [msg Hraise].
      destruct (decide (Exists (prior_equity_zero ec)
                          (seq 1 (length ec - 1)))) as [Hex|Hnex].
      * apply Exists_exists in Hex as (i & Hi%list_elem_of_In%in_seq & Hz).
        exists i. split; [lia | exact Hz].
      * exfalso. destruct Hok as (rs & Hrs & _).
        -- intros i Hi Hz. apply Hnex, Exists_exists. exists i.
           split; [|exact Hz]. apply list_elem_of_In, in_seq. lia.
        -- rewrite Hrs in Hraise. discriminate.
    + intros (i & Hi & Hz). apply returns_loop_raises; [apply seq_in_range|].
      apply Exists_exists. exists i. split; [|exact Hz].
      apply list_elem_of_In, in_seq. lia.
    + intros Hnz. destruct (Hok Hnz) as (rs & Hrs & HF).
      exists rs. split; [exact Hrs|].
      pose proof (Forall2_length _ _ _ HF) as Hlen.
      rewrite length_seq in Hlen. split; [symmetry; exact Hlen|].
      intros i prev cur Hi Hprev Hcur.
      assert (Hlt : (i < length ec)%nat) by (eapply lookup_lt_Some; eauto).
      assert (Hidx : seq 1 (length ec - 1) !! (i - 1)%nat = Some i).
      { apply lookup_seq. lia. }
      destruct (Forall2_lookup_l _ _ _ _ _ HF Hidx)
        as (r & Hr & prev' & cur' & Hp' & Hc' & ->).
      rewrite Hr. unfold period_return.
      assert (prev' = prev) as -> by congruence.
      assert (cur' = cur) as -> by congruence.
      split; [reflexivity|]. intros H1 H2.
      rewrite (Decimal_div_exact _ _ H1), (Decimal_sub_exact _ _ H2).
      reflexivity.
Qed.

(** On [3, 4, 5] the first period return is 0.333333333333333333333333333,
    the quotient 4/3 cut to 28 digits less 1, and not 1/3. *)
Lemma returns_series_rounded :
  returns_series (curve [3; 4; 5]%Z)
  = Ok [(1%Z, decq 333333333333333333333333333 1000000000000000000000000000);
        (2%Z, decq 1 4)]
  ∧ decq 333333333333333333333333333 1000000000000000000000000000
    ≠ dec 4 / dec 3 - dec 1.
Proof. split; [dec_struct | dec_compute]. Qed.

(** *** max_drawdown *)

Lemma py_max_l (a b : Decimal) : a ≤ py_max a b.
Proof.
  unfold py_max. destruct (ltb a b) eqn:E.
  - apply ltb_true in E. apply Qclt_le_weak, E.
  - apply Qcle_refl.
Qed.

Lemma py_max_r (a b : Decimal) : b ≤ py_max a b.
Proof.
  unfold py_max. destruct (ltb a b) eqn:E.
  - apply Qcle_refl.
  - apply ltb_false in E. exact E.
Qed.

Lemma py_max_cases (a b : Decimal) : py_max a b = a ∨ py_max a b = b.
Proof. unfold py_max. destruct (ltb a b); auto. Qed.

Lemma max_drawdown_loop_least (l : list PortfolioSnapshot) :
  ∀ rm w, w ≤ 0 →
    max_drawdown_loop rm w l ≤ w
    ∧ (∀ d, d ∈ loop_drawdowns rm l → max_drawdown_loop rm w l ≤ d)
    ∧ (max_drawdown_loop rm w l = w
       ∨ max_drawdown_loop rm w l ∈ loop_drawdowns rm l).
Proof.
  induction l as [|s l IH]; intros rm w Hw.
  - cbn. split_and!; [apply Qcle_refl | intros d Hd; inversion Hd | by left].
  - cbn [max_drawdown_loop loop_drawdowns]. cbn zeta.
    fold (py_max rm (equity s)). set (rm' := py_max rm (equity s)).
    assert (He : equity s ≤ rm') by apply py_max_r.
    destruct (eqb rm' 0) eqn:E0.
    { apply eqb_true in E0.
      replace (ltb 0 rm') with false
        by (symmetry; apply ltb_false; rewrite E0; apply Qcle_refl).
      cbn [app]. apply IH, Hw. }
    apply eqb_false in E0.
    destruct (ltb 0 rm') eqn:Epos.
    + apply ltb_true in Epos.
      set (d := (equity s ⊖ rm') ⊘ rm').
      assert (Hd : d ≤ 0).
      { apply context_round_nonpos, Qcdiv_nonpos_pos; [|exact Epos].
        apply Decimal_sub_nonpos, He. }
      destruct (ltb d w) eqn:Edw.
      * apply ltb_true in Edw.
        destruct (IH rm' d Hd) as (H1 & H2 & H3). split_and!.
        -- eapply Qcle_trans; [exact H1 | apply Qclt_le_weak, Edw].
        -- intros d' [->|Hd']%elem_of_cons; [exact H1 | apply H2, Hd'].
        -- right. destruct H3 as [->|H3]; [left | right; exact H3].
      * apply ltb_false in Edw.
        destruct (IH rm' w Hw) as (H1 & H2 & H3). split_and!.
        -- exact H1.
        -- intros d' [->|Hd']%elem_of_cons; [|apply H2, Hd'].
           eapply Qcle_trans; [exact H1 | exact Edw].
        -- destruct H3 as [H3|H3]; [left; exact H3 | right; right; exact H3].
    + apply ltb_false in Epos.
      assert (Hneg : rm' < 0).
      { destruct (Qcle_lt_or_eq _ _ Epos) as [H|H]; [exact H | contradiction]. }
      set (d := (equity s ⊖ rm') ⊘ rm').
      assert (Hd : 0 ≤ d).
      { apply context_round_nonneg, Qcdiv_nonpos_neg; [|exact Hneg].
        apply Decimal_sub_nonpos, He. }
      replace (ltb d w) with false; last first.
      { symmetry. apply ltb_false. eapply Qcle_trans; eassumption. }
      cbn [app]. apply IH, Hw.
Qed.

(** Largest element of [rm :: xs], computed as the loop does. *)
Lemma foldl_py_max_maximum (xs : list Decimal) :
  ∀ rm, is_maximum (foldl py_max rm xs) (rm :: xs).
Proof.
  induction xs as [|x xs IH]; intros rm; cbn.
  - split; [left | intros y ->%list_elem_of_singleton; apply Qcle_refl].
  - destruct (IH (py_max rm x)) as [Hin Hmax]. split.
    + apply elem_of_cons in Hin as [Hin|Hin].
      * rewrite Hin. destruct (py_max_cases rm x) as [->| ->];
          [left | right; left].
      * right. right. exact Hin.
    + intros y [->|[->|Hy]%elem_of_cons]%elem_of_cons.
      * eapply Qcle_trans; [apply py_max_l | apply Hmax; left].
      * eapply Qcle_trans; [apply py_max_r | apply Hmax; left].
      * apply Hmax. right. exact Hy.
Qed.

Lemma is_maximum_unique (m m' : Decimal) (xs : list Decimal) :
  is_maximum m xs → is_maximum m' xs → m = m'.
Proof.
  intros [Hin Hmax] [Hin' Hmax']. apply Qcle_antisym; auto.
Qed.

(** The values of [loop_drawdowns], snapshot by snapshot. *)
Lemma loop_drawdowns_elem (l : list PortfolioSnapshot) :
  ∀ rm d,
    d ∈ loop_drawdowns rm l ↔
    ∃ l1 s l2,
      l = l1 ++ s :: l2
      ∧ 0 < foldl py_max rm (equity <$> l1 ++ [s])
      ∧ d = (equity s ⊖ foldl py_max rm (equity <$> l1 ++ [s]))
            ⊘ foldl py_max rm (equity <$> l1 ++ [s]).
Proof.
  induction l as [|s0 l IH]; intros rm d; cbn [loop_drawdowns]; cbn zeta.
  - split; [intros H; inversion H|].
    intros (l1 & s & l2 & H & _). by destruct l1.
  - rewrite elem_of_app, IH. split.
    + intros [Hd|(l1 & s & l2 & -> & Hpos & ->)].
      * destruct (ltb 0 (py_max rm (equity s0))) eqn:E; [|inversion Hd].
        apply list_elem_of_singleton in Hd. apply ltb_true in E.
        exists [], s0, l. cbn. done.
      * exists (s0 :: l1), s, l2. cbn. done.
    + intros (l1 & s & l2 & Hl & Hpos & ->). destruct l1 as [|s1 l1].
      * cbn in Hl. injection Hl as <- <-. cbn in *. left.
        apply ltb_true in Hpos. rewrite Hpos. by left.
      * cbn in Hl. injection Hl as <- ->. right.
        exists l1, s, l2. cbn in *. done.
Qed.

Lemma is_maximum_drop_head (m x : Decimal) (xs : list Decimal) :
  x ∈ xs → is_maximum m (x :: xs) → is_maximum m xs.
Proof.
  intros Hx [Hin Hmax]. split.
  - apply elem_of_cons in Hin as [->|Hin]; assumption.
  - intros y Hy. apply Hmax. right. exact Hy.
Qed.

(** The peak the loop holds after the snapshots [l1 ++ [s]] of a curve that
    starts with [first] is the running peak of the specification. *)
Lemma loop_peak_is_running_peak first rest l1 s l2 :
  first :: rest = l1 ++ s :: l2 →
  is_running_peak (first :: rest) (length l1)
    (foldl py_max (equity first) (equity <$> l1 ++ [s])).
Proof.
  intros Hec. unfold is_running_peak.
  replace (take (S (length l1)) (first :: rest)) with (l1 ++ [s]); last first.
  { assert (Hsplit : first :: rest = (l1 ++ [s]) ++ l2)
      by (rewrite Hec, <- app_assoc; reflexivity).
    rewrite Hsplit. symmetry. apply take_app_length'.
    rewrite length_app. cbn. lia. }
  apply (is_maximum_drop_head _ (equity first)); [|apply foldl_py_max_maximum].
  apply list_elem_of_fmap. exists first. split; [reflexivity|].
  destruct l1 as [|s1 l1]; cbn in Hec; injection Hec as -> _; by left.
Qed.

Lemma loop_drawdowns_is_drawdown first rest d :
  d ∈ loop_drawdowns (equity first) (first :: rest)
  ↔ is_drawdown (first :: rest) d.
Proof.
  rewrite loop_drawdowns_elem. split.
  - intros (l1 & s & l2 & Hec & Hpos & ->).
    exists (length l1), s, (foldl py_max (equity first) (equity <$> l1 ++ [s])).
    split_and!; [|by apply (loop_peak_is_running_peak _ _ _ _ l2)|done..].
    rewrite Hec. apply list_lookup_middle. reflexivity.
  - intros (i & s & peak & Hi & Hpeak & Hpos & ->).
    pose proof (take_drop_middle _ _ _ Hi) as Hsplit.
    pose proof (loop_peak_is_running_peak first rest (take i (first :: rest)) s
                  (drop (S i) (first :: rest)) (eq_sym Hsplit)) as Hpeak'.
    assert (Hlen : length (take i (first :: rest)) = i).
    { apply length_take_le. apply lookup_lt_Some in Hi. lia. }
    rewrite Hlen in Hpeak'.
    rewrite (is_maximum_unique _ _ _ Hpeak Hpeak') in *.
    exists (take i (first :: rest)), s, (drop (S i) (first :: rest)).
    split_and!; [symmetry; exact Hsplit | exact Hpos | reflexivity].
Qed.



Lemma worst_drawdown_spec (ec : list PortfolioSnapshot) :
  worst_drawdown ec ≤ 0
  ∧ (∀ d, is_drawdown ec d → worst_drawdown ec ≤ d)
  ∧ (worst_drawdown ec = 0 ∨ is_drawdown ec (worst_drawdown ec)).
Proof.
  destruct ec as [|first rest].
  - split_and!; [apply Qcle_refl| |by left].
    intros d (i & s & _ & Hi & _). by rewrite lookup_nil in Hi.
  - unfold worst_drawdown.
    destruct (max_drawdown_loop_least (first :: rest) (equity first)
                (dec 0) (Qcle_refl _)) as (H1 & H2 & H3).
    split_and!.
    + exact H1.
    + intros d Hd. apply H2, loop_drawdowns_is_drawdown, Hd.
    + destruct H3 as [H3|H3]; [left; exact H3|].
      right. apply loop_drawdowns_is_drawdown, H3.
Qed.


Lemma Q2R_0 : Q2R (this (0 : Qc)) = 0%R.
Proof. apply RMicromega.Q2R_0. Qed.

Section drawdown.

Variable rnd : R → R.
Hypothesis rnd_0 : rnd 0%R = 0%R.
Hypothesis rnd_monotone : ∀ x y : R, (x <= y)%R → (rnd x <= rnd y)%R.

Lemma max_drawdown_float (ec : list PortfolioSnapshot) :
  max_drawdown rnd ec = float_of_decimal rnd (worst_drawdown ec).
Proof.
  destruct ec; [|reflexivity]. cbn. unfold float_of_decimal.
  change (this (dec 0)) with (this 0). rewrite Q2R_0, rnd_0. reflexivity.
Qed.


End drawdown.



(** *** sharpe_ratio *)

Section sharpe.

Variable rnd : R → R.
Hypothesis rnd_0 : rnd 0%R = 0%R.

Lemma exact_sum_constant (v : R) (values : list R) :
  (∀ x, x ∈ values → x = v) →
  exact_sum values = (INR (length values) * v)%R.
Proof.
  induction values as [|x values IH]; intros Hall.
  - cbn. ring.
  - cbn [exact_sum foldr length]. rewrite S_INR.
    fold (exact_sum values).
    rewrite IH by (intros y Hy; apply Hall; right; exact Hy).
    rewrite (Hall x) by left. ring.
Qed.

(** [pstdev] of data that are all the same float is exactly 0.0. *)
Lemma pstdev_constant (v : R) (values : list R) :
  (∀ x, x ∈ values → x = v) → pstdev rnd values = 0%R.
Proof.
  intros Hall. unfold pstdev. cbn zeta.
  rewrite (exact_sum_constant v values Hall).
  rewrite (exact_sum_constant (v * v)%R (map (λ x, (x * x)%R) values)).
  - rewrite length_map.
    replace (_ / _ / _)%R with 0%R by (unfold Rdiv; ring).
    rewrite sqrt_0. exact rnd_0.
  - intros y (x & -> & Hx)%list_elem_of_fmap. by rewrite (Hall x Hx).
Qed.

(** C8. When the period returns exist and are all identical (in
    particular when there are none), [sharpe_ratio] returns 0.0, whatever
    the common value and whatever [periods_per_year]. *)
Theorem sharpe_ratio_zero_variance (ec : list PortfolioSnapshot)
    (periods_per_year : Z) (returns : list (datetime * Decimal)) :
  returns_series ec = Ok returns →
  (∀ r r', r ∈ returns.*2 → r' ∈ returns.*2 → r = r') →
  sharpe_ratio rnd ec periods_per_year = Ok 0%R.
Proof.
  intros Hret Hsame. unfold sharpe_ratio. rewrite Hret. cbn.
  destruct returns as [|[ts c] returns]; [reflexivity|].
  cbn [map length Nat.eqb].
  rewrite (pstdev_constant (float_of_decimal rnd c)).
  - destruct (Req_dec_T 0 0) as [_|Hne]; [reflexivity | by destruct Hne].
  - change (?a :: map ?f ?l) with (map f ((ts, c) :: l)).
    intros x ([ts' c'] & -> & Hx)%list_elem_of_fmap. cbn. f_equal.
    apply Hsame; [|by left].
    apply list_elem_of_fmap. exists (ts', c'). done.
Qed.

End sharpe.

Lemma sharpe_ratio_zero_variance_witness :
  sharpe_ratio (λ x, x) (curve [100; 110; 121]%Z) 252 = Ok 0%R.
Proof.
  apply (sharpe_ratio_zero_variance (λ x, x) eq_refl
           (curve [100; 110; 121]%Z) 252
           [(1%Z, decq 1 10); (2%Z, decq 1 10)]).
  - dec_struct.
  - intros r r' Hr Hr'. cbn in Hr, Hr'.
    repeat (apply elem_of_cons in Hr as [->|Hr]);
      repeat (apply elem_of_cons in Hr' as [->|Hr']);
      try reflexivity; try (by apply not_elem_of_nil in Hr);
      by apply not_elem_of_nil in Hr'.
Defined.


(** ** The repository's tests, replayed on the embedding *)

(** test_apply_buy_reduces_cash_and_creates_position *)
Example apply_buy_reduces_cash_and_creates_position :
  let trade := {| timestamp := 1; side := BUY; quantity := dec 2;
                  price := dec 100; fee := dec 1; slippage := decq 1 2;
                  symbol := "AAPL" |} in
  fst (apply_trade trade (fresh (dec 1000))) = Ok tt
  ∧ cash (snd (apply_trade trade (fresh (dec 1000)))) = decq 1597 2
  ∧ (pos_quantity <$>
       positions (snd (apply_trade trade (fresh (dec 1000)))) !! "AAPL")
    = Some (dec 2)
  ∧ (average_price <$>
       positions (snd (apply_trade trade (fresh (dec 1000)))) !! "AAPL")
    = Some (dec 100)
  ∧ trades (snd (apply_trade trade (fresh (dec 1000)))) = [trade]%list.
Proof.
  intros trade.
  rewrite (apply_trade_buy_new (fresh (dec 1000)) trade) by closed_goal.
  cbn. split_and!; dec_struct.
Qed.

(** test_apply_buy_raises_if_insufficient_cash *)
Example apply_buy_raises_if_insufficient_cash :
  apply_trade (plain_trade 1 BUY 1 100) (fresh (dec 50))
  = (Raise (ValueError "Insufficient cash to execute BUY trade."),
     fresh (dec 50)).
Proof. apply apply_trade_buy_insufficient; closed_goal. Qed.

(** test_mark_to_market_creates_snapshot_and_appends_to_equity_curve *)
Example mark_to_market_creates_snapshot :
  ∃ pf snapshot,
    apply_trade (plain_trade 1 BUY 2 100) (fresh (dec 1000)) = (Ok tt, pf)
    ∧ fst (mark_to_market 2 {["AAPL" := dec 120]} pf) = Ok snapshot
    ∧ snap_timestamp snapshot = 2%Z
    ∧ snap_cash snapshot = cash pf
    ∧ positions_value snapshot = dec 240
    ∧ equity snapshot = cash pf ⊕ dec 240
    ∧ List.last
        (equity_curve (snd (mark_to_market 2 {["AAPL" := dec 120]} pf)))
        snapshot
      = snapshot.
Proof.
  eexists _, _. split.
  { apply apply_trade_buy_new; closed_goal. }
  split; [vm_compute; reflexivity|].
  split_and!; dec_struct.
Qed.

(** test_mark_to_market_raises_if_missing_price_for_held_symbol *)
Example mark_to_market_raises_if_missing_price :
  ∃ pf,
    apply_trade (plain_trade 1 BUY 1 100) (fresh (dec 1000)) = (Ok tt, pf)
    ∧ mark_to_market 2 ∅ pf
      = (Raise (ValueError "Missing close price for symbol: AAPL."), pf).
Proof.
  eexists. split.
  { apply apply_trade_buy_new; closed_goal. }
  vm_compute. reflexivity.
Qed.

(** test_buy_slippage_increases_fill_price_and_cost_is_positive and
    test_sell_slippage_decreases_fill_price_and_cost_is_positive *)
Example slippage_moves_fill_price :
  (∃ trade, execute (model_bps 50) (test_order 1 BUY 2) (test_bar 2 100 100)
            = Ok trade
            ∧ price trade = decq 201 2 ∧ slippage trade = dec 1)
  ∧ (∃ trade, execute (model_bps 50) (test_order 1 SELL 2)
                (test_bar 2 100 100) = Ok trade
              ∧ price trade = decq 199 2 ∧ slippage trade = dec 1).
Proof.
  split; (eexists; split; [vm_compute; reflexivity|]; split; dec_compute).
Qed.

(** test_returns_series_basic *)
Example returns_series_basic :
  ∃ r1 r2,
    returns_series (curve [100; 110; 121]%Z) = Ok [r1; r2]
    ∧ snd r1 = decq 1 10 ∧ snd r2 = decq 1 10.
Proof.
  eexists _, _. split; [vm_compute; reflexivity|]. split; dec_compute.
Qed.

(** test_returns_series_raises_when_previous_equity_zero *)
Example returns_series_raises_when_previous_equity_zero :
  returns_series (curve [0; 100]%Z)
  = Raise (ValueError "Previous equity must not be = 0.").
Proof. vm_compute. reflexivity. Qed.


(** * Further properties of the code *)

(** ** apply_trade *)

Ltac frame_done := split_and!; try done; by intros ? _.

(** X1.  Whatever the trade: the equity curve is never touched, the holdings of
    the other symbols are never touched, a call that returns has appended
    exactly the trade to the log, and a call that raises has left the log
    and all holdings as they were. *)
Theorem apply_trade_frame (pf : Portfolio) (trade : Trade) :
  equity_curve (snd (apply_trade trade pf)) = equity_curve pf
  ∧ (∀ k, k ≠ symbol trade →
          positions (snd (apply_trade trade pf)) !! k = positions pf !! k)
  ∧ (fst (apply_trade trade pf) = Ok tt →
     trades (snd (apply_trade trade pf)) = trades pf ++ [trade])
  ∧ (∀ e, fst (apply_trade trade pf) = Raise e →
          trades (snd (apply_trade trade pf)) = trades pf
          ∧ positions (snd (apply_trade trade pf)) = positions pf).
Proof.
  unfold apply_trade. unfold_method.
  destruct (side trade) as [[|]|repr]; cbn.
  - destruct (ltb _ _); cbn; [frame_done|].
    destruct (positions pf !! symbol trade) as [position|]; cbn.
    + destruct (Decimal_truediv _ _) as [avg|err]; cbn; [|frame_done].
      destruct (new_Position _) as [p|err]; cbn; [|frame_done].
      split_and!; try done. intros k Hk. by apply dict_lookup_setitem_ne.
    + destruct (new_Position _) as [p|err]; cbn; [|frame_done].
      split_and!; try done. intros k Hk. by apply dict_lookup_setitem_ne.
  - destruct (positions pf !! symbol trade) as [position|] eqn:Hpos; cbn;
      [|frame_done].
    destruct (ltb _ _); cbn; [frame_done|].
    destruct (eqb _ _); cbn.
    + rewrite Hpos. cbn. split_and!; try done.
      intros k Hk. by apply dict_lookup_delitem_ne.
    + destruct (new_Position _) as [p|err]; cbn; [|frame_done].
      split_and!; try done. intros k Hk. by apply dict_lookup_setitem_ne.
  - frame_done.
Qed.

(** X2.  For a valid trade on valid holdings, [apply_trade] returns exactly when
    the trade is a BUY the cash covers (notional + fee + slippage, in the
    arithmetic of the context) or a SELL of at most the held quantity. *)
Theorem apply_trade_returns_iff (pf : Portfolio) (trade : Trade) :
  holdings_ok pf → Trade_post_init trade = Ok tt →
  (fst (apply_trade trade pf) = Ok tt
   ↔ (side trade = BUY
      ∧ notional_value trade ⊕ fee trade ⊕ slippage trade ≤ cash pf)
     ∨ (side trade = SELL
        ∧ ∃ position, positions pf !! symbol trade = Some position
                      ∧ quantity trade ≤ pos_quantity position)).
Proof.
  intros Hinv Hok.
  pose proof Hok as (Hq & Hpr & _ & _ & Hsym)%Trade_post_init_ok.
  destruct (side trade) as [[|]|repr] eqn:Hs.
  - destruct (Qclt_le_dec (cash pf) (buy_amount trade)) as [Hc|Hc].
    + rewrite (apply_trade_buy_insufficient pf trade Hs Hc). cbn. split.
      * discriminate.
      * intros [[_ Hle]|[[=] _]].
        exfalso. eapply Qclt_not_le; [exact Hc | exact Hle].
    + assert (fst (apply_trade trade pf) = Ok tt) as ->.
      { destruct (positions pf !! symbol trade) as [position|] eqn:Hp.
        - destruct (holdings_ok_lookup _ _ _ Hinv Hp) as [Hpq Hpa].
          by rewrite (apply_trade_buy_add pf trade position Hs Hc Hp Hpq Hpa
                        Hok).
        - by rewrite (apply_trade_buy_new pf trade Hs Hc Hp Hok). }
      split; [intros _; left; split; [reflexivity | exact Hc] | reflexivity].
  - destruct (positions pf !! symbol trade) as [position|] eqn:Hp.
    + destruct (Qclt_le_dec (pos_quantity position) (quantity trade))
        as [Hlt|Hle].
      * rewrite (apply_trade_sell_too_much pf trade position Hs Hp Hlt). cbn.
        split; [discriminate|].
        intros [[[=] _]|[_ (p & [= <-] & Hle)]].
        exfalso. eapply Qclt_not_le; [exact Hlt | exact Hle].
      * assert (fst (apply_trade trade pf) = Ok tt) as ->.
        { destruct (Qcle_lt_or_eq _ _ Hle) as [Hlt|Heq].
          - destruct (holdings_ok_lookup _ _ _ Hinv Hp) as [_ Hpa].
            by rewrite (apply_trade_sell_part pf trade position Hs Hp Hlt Hpa
                          Hsym).
          - by rewrite (apply_trade_sell_all pf trade position Hs Hp
                          (eq_sym Heq)). }
        split; [|reflexivity]. intros _. right. split; [reflexivity|].
        exists position. split; [reflexivity | exact Hle].
    + rewrite (apply_trade_sell_no_position pf trade Hs Hp). cbn.
      split; [discriminate|]. intros [[[=] _]|[_ (p & [=] & _)]].
  - rewrite (apply_trade_foreign pf trade repr Hs). cbn.
    split; [discriminate|]. intros [[[=] _]|[[=] _]].
Qed.

Lemma apply_trade_returns_iff_witness :
  fst (apply_trade (plain_trade 1 BUY 2 100) (fresh (dec 1000))) = Ok tt
  ↔ (side (plain_trade 1 BUY 2 100) = BUY
     ∧ notional_value (plain_trade 1 BUY 2 100)
       ⊕ fee (plain_trade 1 BUY 2 100) ⊕ slippage (plain_trade 1 BUY 2 100)
       ≤ cash (fresh (dec 1000)))
    ∨ (side (plain_trade 1 BUY 2 100) = SELL
       ∧ ∃ position,
           positions (fresh (dec 1000)) !! symbol (plain_trade 1 BUY 2 100)
           = Some position
           ∧ quantity (plain_trade 1 BUY 2 100) ≤ pos_quantity position).
Proof.
  apply (apply_trade_returns_iff (fresh (dec 1000)) (plain_trade 1 BUY 2 100)).
  - unfold holdings_ok, fresh. cbn. constructor.
  - closed_goal.
Defined.

Lemma Qcdiv_le_mono (u v n : Decimal) : 0 < n → u ≤ v → u / n ≤ v / n.
Proof.
  intros Hn Huv. to_Q.
  assert (Hi : (this n * / this n == 1)%Q) by (apply Qmult_inv_r; lra).
  revert Hi. generalize (/ this n)%Q. intros i Hi. nra.
Qed.

Lemma Qclt_neq (x : Decimal) : 0 < x → x ≠ 0.
Proof. intros H E. rewrite E in H. by apply Qclt_not_eq in H. Qed.

(** A mean of two values with positive weights lies between any bounds of
    the two values. *)
Lemma weighted_mean_bounds (a p x y lo hi : Decimal) :
  0 < x → 0 < y → lo ≤ a → lo ≤ p → a ≤ hi → p ≤ hi →
  lo ≤ (a * x + p * y) / (x + y) ∧ (a * x + p * y) / (x + y) ≤ hi.
Proof.
  intros Hx Hy Hla Hlp Hah Hph.
  assert (Hn : 0 < x + y) by (apply Qcplus_pos_pos; assumption).
  pose proof (Qclt_neq _ Hn) as Hne.
  split.
  - replace lo with (lo * (x + y) / (x + y)) at 1 by (field; exact Hne).
    apply Qcdiv_le_mono; [exact Hn|]. clear Hne. to_Q. nra.
  - replace hi with (hi * (x + y) / (x + y)) at 1 by (field; exact Hne).
    apply Qcdiv_le_mono; [exact Hn|]. clear Hne. to_Q. nra.
Qed.

Lemma py_min_l (a b : Decimal) : py_min a b ≤ a.
Proof.
  unfold py_min. destruct (ltb b a) eqn:E.
  - apply ltb_true in E. apply Qclt_le_weak, E.
  - apply Qcle_refl.
Qed.

Lemma py_min_r (a b : Decimal) : py_min a b ≤ b.
Proof.
  unfold py_min. destruct (ltb b a) eqn:E.
  - apply Qcle_refl.
  - apply ltb_false in E. exact E.
Qed.

(** X3.  A BUY into an existing holding, for a valid trade the cash covers: the
    call returns; the quantity is the sum and the average price is
    (old average * old quantity + price * quantity) / new quantity, each
    operation rounded to 28 significant digits, and both are > 0; when no
    operation rounds, the cost basis is additive (new average * new
    quantity = old average * old quantity + price * quantity) and the new
    average price lies between the old average price and the fill
    price. *)
Theorem buy_into_holding (pf : Portfolio) (trade : Trade)
    (position : Position) :
  Trade_post_init trade = Ok tt → side trade = BUY →
  notional_value trade ⊕ fee trade ⊕ slippage trade ≤ cash pf →
  positions pf !! symbol trade = Some position →
  0 < pos_quantity position → 0 < average_price position →
  ∃ pf' p',
    apply_trade trade pf = (Ok tt, pf')
    ∧ positions pf' !! symbol trade = Some p'
    ∧ pos_quantity p' = pos_quantity position ⊕ quantity trade
    ∧ average_price p'
      = (average_price position ⊗ pos_quantity position
         ⊕ price trade ⊗ quantity trade)
        ⊘ (pos_quantity position ⊕ quantity trade)
    ∧ 0 < pos_quantity p' ∧ 0 < average_price p'
    ∧ (average_exact (pos_quantity position) (average_price position)
         (quantity trade) (price trade) →
       pos_quantity p' = pos_quantity position + quantity trade
       ∧ average_price p' * pos_quantity p'
         = average_price position * pos_quantity position
           + price trade * quantity trade
       ∧ py_min (average_price position) (price trade) ≤ average_price p'
       ∧ average_price p' ≤ py_max (average_price position) (price trade)).
Proof.
  intros Hok Hs Hc Hp Hpq Hpa.
  pose proof Hok as (Hq & Hpr & _)%Trade_post_init_ok.
  eexists _, _. split; [by apply apply_trade_buy_add|].
  cbn. rewrite dict_lookup_setitem_eq. split; [reflexivity|]. cbn.
  split_and!; [reflexivity | reflexivity | | |].
  - by apply Decimal_add_pos.
  - apply Decimal_div_pos; [|by apply Decimal_add_pos].
    apply Decimal_add_pos; by apply Decimal_mul_pos.
  - intros (H1 & H2 & H3 & H4 & H5).
    rewrite (Decimal_mul_comm (average_price position)),
      (Decimal_mul_comm (price trade)).
    rewrite (Decimal_add_exact _ _ H1), (Decimal_mul_exact _ _ H2),
      (Decimal_mul_exact _ _ H3), (Decimal_add_exact _ _ H4),
      (Decimal_div_exact _ _ H5).
    assert (Hn : pos_quantity position + quantity trade ≠ 0).
    { apply Qclt_neq, Qcplus_pos_pos; assumption. }
    destruct (weighted_mean_bounds (average_price position) (price trade)
                (pos_quantity position) (quantity trade)
                (py_min (average_price position) (price trade))
                (py_max (average_price position) (price trade)))
      as [Hlo Hhi]; auto using py_min_l, py_min_r, py_max_l, py_max_r.
    rewrite (Qcmult_comm (pos_quantity position)),
      (Qcmult_comm (quantity trade)).
    split_and!; [reflexivity | field; exact Hn | exact Hlo | exact Hhi].
Qed.

Lemma buy_into_holding_witness :
  ∃ pf' p',
    apply_trade (plain_trade 2 BUY 1 130)
      (snd (apply_trade (plain_trade 1 BUY 2 100) (fresh (dec 10000))))
    = (Ok tt, pf')
    ∧ positions pf' !! "AAPL" = Some p'
    ∧ pos_quantity p' = dec 3
    ∧ average_price p' = dec 110
    ∧ average_price p' * pos_quantity p'
      = dec 100 * dec 2 + dec 130 * dec 1.
Proof.
  destruct (buy_into_holding
              (snd (apply_trade (plain_trade 1 BUY 2 100) (fresh (dec 10000))))
              (plain_trade 2 BUY 1 130)
              {| pos_symbol := "AAPL"; pos_quantity := dec 2;
                 average_price := dec 100 |})
    as (pf' & p' & H1 & H2 & H3 & H4 & _ & _ & H5); try closed_goal.
  exists pf', p'. split; [exact H1|]. split; [exact H2|].
  destruct H5 as (_ & H6 & _).
  { unfold average_exact, representable. cbn. split_and!; dec_compute. }
  split_and!.
  - rewrite H3. cbn. dec_compute.
  - rewrite H4. cbn. dec_compute.
  - exact H6.
Defined.

(** ** mark_to_market *)

Lemma items_get_is_Some {V} (k : string) (v : V) (l : list (string * V)) :
  (k, v) ∈ l → is_Some (items_get k l).
Proof.
  induction l as [|[k' v'] l IH]; intros Hin; [by inversion Hin|].
  cbn. destruct (decide (k' = k)); [by eexists|].
  apply IH. apply elem_of_cons in Hin as [[= <- <-]|Hin]; [done | exact Hin].
Qed.

Lemma dict_elem_of_is_Some {V} (k : string) (v : V) (d : dict V) :
  (k, v) ∈ dict_items d → is_Some (d !! k).
Proof. apply items_get_is_Some. Qed.

Lemma sum_positions_ok items prices acc :
  (∀ item, item ∈ items → is_Some (prices !! item.1)) →
  sum_positions items prices acc
  = Ok (foldl (λ acc item, acc ⊕ holding_value prices item) acc items).
Proof.
  revert acc. induction items as [|[k p] items IH]; intros acc Hall;
    cbn [sum_positions foldl]; [reflexivity|].
  destruct (Hall (k, p)) as [price Hprice]; [by left|].
  cbn [fst] in Hprice. rewrite Hprice. rewrite IH.
  - change (holding_value prices (k, p))
      with (pos_quantity p ⊗ default 0 (prices !! k)).
    rewrite Hprice. reflexivity.
  - intros item Hitem. apply Hall. by right.
Qed.

Lemma sum_positions_missing items prices acc :
  (∃ item, item ∈ items ∧ prices !! item.1 = None) →
  raises_ValueError (sum_positions items prices acc).
Proof.
  revert acc. induction items as [|[k p] items IH];
    intros acc (item & Hin & Hnone).
  - inversion Hin.
  - cbn. destruct (prices !! k) as [price|] eqn:Hk; [|eexists; reflexivity].
    apply IH. apply elem_of_cons in Hin as [->|Hin].
    + cbn in Hnone. congruence.
    + exists item. done.
Qed.

Lemma sum_positions_raise_inv items prices acc e :
  sum_positions items prices acc = Raise e →
  ∃ item, item ∈ items ∧ prices !! item.1 = None.
Proof.
  revert acc. induction items as [|[k p] items IH]; intros acc; cbn.
  - discriminate.
  - destruct (prices !! k) as [price|] eqn:Hk.
    + intros (item & Hin & Hnone)%IH. exists item. split; [by right | done].
    + intros _. exists (k, p). split; [by left | done].
Qed.

(** X4.  [mark_to_market] raises a validation error exactly when some held
    symbol has no price, and then leaves the portfolio as it was; otherwise
    it returns the snapshot (timestamp, current cash, value of the
    holdings) and appends it to the equity curve, changing nothing else.
    The value of the holdings is the sum of quantity * price over the
    holdings in the order in which their symbols were first bought, each
    product and each addition rounded to 28 significant digits. *)
Theorem mark_to_market_spec (pf : Portfolio) (ts : datetime)
    (prices : gmap string Decimal) :
  (raises_ValueError (fst (mark_to_market ts prices pf))
   ↔ ∃ k, is_Some (positions pf !! k) ∧ prices !! k = None)
  ∧ (∀ e, fst (mark_to_market ts prices pf) = Raise e →
          snd (mark_to_market ts prices pf) = pf)
  ∧ ((∀ k, is_Some (positions pf !! k) → is_Some (prices !! k)) →
     ∃ snapshot,
       mark_to_market ts prices pf
       = (Ok snapshot,
          {| cash := cash pf;
             equity_curve := equity_curve pf ++ [snapshot];
             positions := positions pf;
             trades := trades pf |})
       ∧ snap_timestamp snapshot = ts
       ∧ snap_cash snapshot = cash pf
       ∧ positions_value snapshot
         = items_value prices (dict_items (positions pf))).
Proof.
  assert (Hall : (∀ k, is_Some (positions pf !! k) → is_Some (prices !! k)) →
                 ∀ item, item ∈ dict_items (positions pf) →
                         is_Some (prices !! item.1)).
  { intros H [k p] Hin. apply H. by apply (dict_elem_of_is_Some k p). }
  unfold mark_to_market. unfold_method. split_and!.
  - split.
    + intros [msg Hraise].
      destruct (sum_positions _ _ _) as [v|e] eqn:Hsum; [discriminate|].
      apply sum_positions_raise_inv in Hsum as ([k p] & Hin & Hnone).
      exists k. split; [by apply (dict_elem_of_is_Some k p) | done].
    + intros (k & [p Hp] & Hnone).
      destruct (sum_positions_missing (dict_items (positions pf)) prices
                  (dec 0)) as [msg ->].
      * exists (k, p). split; [by apply dict_lookup_elem_of | exact Hnone].
      * by eexists.
  - intros e. destruct (sum_positions _ _ _); cbn; [discriminate | done].
  - intros H. rewrite sum_positions_ok by (apply Hall, H). cbn.
    eexists. split; [reflexivity|]. split_and!; reflexivity.
Qed.

(** ** execute without slippage *)

Lemma Decimal_div_0_l (y : Decimal) : 0 ⊘ y = 0.
Proof.
  unfold Decimal_div, Qcdiv. rewrite Qcmult_0_l. apply context_round_0.
Qed.

Lemma Decimal_mul_0_l (y : Decimal) : 0 ⊗ y = 0.
Proof. unfold Decimal_mul. rewrite Qcmult_0_l. apply context_round_0. Qed.

Lemma Decimal_mul_1_r (x : Decimal) : x ⊗ dec 1 = context_round x.
Proof.
  unfold Decimal_mul. change (dec 1) with (1 : Qc).
  rewrite Qcmult_1_r. reflexivity.
Qed.

(** X24.  A model without slippage fills a valid order, on either side, at the
    base price rounded to 28 significant digits; when the base price has
    no more digits than that, the fill price is the base price and the
    slippage cost is 0. *)
Theorem execute_no_slippage (em : ExecutionModel) (order : Order) (bar : Bar)
    (s : Side) :
  ExecutionModel_post_init em = Ok tt → slippage_bps em = 0 →
  Order_post_init order = Ok tt → Bar_post_init bar = Ok tt →
  order_side order = member s →
  ∃ trade,
    execute em order bar = Ok trade
    ∧ price trade = context_round (base_price em bar)
    ∧ (representable (base_price em bar) →
       price trade = base_price em bar ∧ slippage trade = 0).
Proof.
  intros Hem Hbps Hord Hbar Hside.
  pose proof Hem as [_ Hfee]%ExecutionModel_post_init_ok.
  pose proof Hord as [Hq Hsym]%Order_post_init_ok.
  pose proof (base_price_pos em bar Hbar) as Hbase.
  assert (Hfill : fill_price em order bar = context_round (base_price em bar)).
  { unfold fill_price, slippage_rate. rewrite Hside, Hbps, Decimal_div_0_l.
    replace (dec 1 ⊕ 0) with (dec 1) by (symmetry; dec_compute).
    replace (dec 1 ⊖ 0) with (dec 1) by (symmetry; dec_compute).
    destruct s; apply Decimal_mul_1_r. }
  rewrite (execute_valid_order em order bar Hord). eexists. split.
  { apply construct_ok. split; [|reflexivity].
    apply Trade_post_init_ok. cbn [quantity price fee slippage symbol].
    split_and!; try assumption.
    - rewrite Hfill. apply context_round_pos, Hbase.
    - apply Decimal_mul_nonneg; [apply copy_abs_nonneg|].
      by apply Qclt_le_weak. }
  cbn [price slippage]. split; [exact Hfill|]. intros Hrep.
  rewrite Hfill, Hrep. split; [reflexivity|].
  rewrite Decimal_sub_diag.
  replace (copy_abs 0) with (0 : Qc) by (symmetry; dec_compute).
  apply Decimal_mul_0_l.
Qed.

Lemma execute_no_slippage_witness :
  ∃ trade,
    execute (model_bps 0) (test_order 1 BUY 2) (test_bar 2 100 110) = Ok trade
    ∧ price trade = dec 100 ∧ slippage trade = 0.
Proof.
  destruct (execute_no_slippage (model_bps 0) (test_order 1 BUY 2)
              (test_bar 2 100 110) BUY)
    as (trade & H1 & H2 & H3); try closed_goal.
  exists trade. split; [exact H1|].
  destruct H3 as [H4 H5]; [unfold representable; dec_compute|].
  split; [rewrite H4; dec_compute | exact H5].
Defined.

(** ** Bar *)

(** X7.  A bar is accepted exactly when its four prices are > 0, its high is at
    least its open and close, its low is at most its open and close, and
    its volume is >= 0; then low <= high, and the constructor's own check
    of that, coming after the others, never fires. *)
Theorem Bar_post_init_spec (b : Bar) :
  (Bar_post_init b = Ok tt
   ↔ 0 < open b ∧ 0 < close b ∧ 0 < high b ∧ 0 < low b
     ∧ open b ≤ high b ∧ close b ≤ high b
     ∧ low b ≤ open b ∧ low b ≤ close b
     ∧ (0 ≤ volume b)%Z)
  ∧ (Bar_post_init b = Ok tt → low b ≤ high b)
  ∧ Bar_post_init b ≠ Raise (ValueError "High must be >= low.").
Proof.
  assert (Hmax : ltb (high b) (py_max (open b) (close b)) = false
                 ↔ open b ≤ high b ∧ close b ≤ high b).
  { rewrite ltb_false. split.
    - intros H. split; (eapply Qcle_trans; [|exact H]);
        [apply py_max_l | apply py_max_r].
    - intros [Ho Hc]. destruct (py_max_cases (open b) (close b)) as [-> | ->];
        assumption. }
  assert (Hmin : ltb (py_min (open b) (close b)) (low b) = false
                 ↔ low b ≤ open b ∧ low b ≤ close b).
  { rewrite ltb_false. split.
    - intros H. split; (eapply Qcle_trans; [exact H|]);
        [apply py_min_l | apply py_min_r].
    - intros [Ho Hc]. unfold py_min.
      destruct (ltb (close b) (open b)); assumption. }
  assert (Hiff : Bar_post_init b = Ok tt
                 ↔ 0 < open b ∧ 0 < close b ∧ 0 < high b ∧ 0 < low b
                   ∧ open b ≤ high b ∧ close b ≤ high b
                   ∧ low b ≤ open b ∧ low b ≤ close b
                   ∧ (0 ≤ volume b)%Z).
  { unfold Bar_post_init. rewrite !check_ok, Hmax, Hmin. cbn [existsb].
    rewrite !orb_false_iff, !leb_false, ltb_false, Z.ltb_ge. split.
    - intros ((Ho & Hc & Hh & Hl & _) & (Hoh & Hch) & (Hlo & Hlc) & _ & Hv & _).
      done.
    - intros (Ho & Hc & Hh & Hl & Hoh & Hch & Hlo & Hlc & Hv).
      split_and!; try done. by eapply Qcle_trans. }
  split_and!.
  - exact Hiff.
  - intros (_ & _ & _ & _ & Hoh & _ & Hlo & _)%Hiff. by eapply Qcle_trans.
  - unfold Bar_post_init.
    destruct (existsb _ _); cbn; [discriminate|].
    destruct (ltb (high b) _) eqn:E1; cbn; [discriminate|].
    destruct (ltb (py_min _ _) _) eqn:E2; cbn; [discriminate|].
    destruct (proj1 Hmax eq_refl) as [Hoh _].
    destruct (proj1 Hmin eq_refl) as [Hlo _].
    replace (ltb (high b) (low b)) with false
      by (symmetry; apply ltb_false; by eapply Qcle_trans).
    cbn. destruct (volume b <? 0)%Z; cbn; discriminate.
Qed.

(** ** max_drawdown *)

Lemma equity_representable (s : PortfolioSnapshot) : representable (equity s).
Proof. apply representable_round. Qed.

Lemma foldl_py_max_representable (xs : list Decimal) :
  ∀ rm, representable rm → Forall representable xs →
        representable (foldl py_max rm xs).
Proof.
  induction xs as [|x xs IH]; intros rm Hrm Hxs; [exact Hrm|].
  apply Forall_cons in Hxs as [Hx Hxs]. cbn. apply IH; [|exact Hxs].
  destruct (py_max_cases rm x) as [-> | ->]; assumption.
Qed.

Lemma context_round_minus_1 : context_round (- (1)) = - (1).
Proof. dec_compute. Qed.

(** A drawdown value at a peak > 0 that is an equity, for an equity that
    is not negative, is at least -1. *)
Lemma drawdown_ge_minus_1 (e P : Decimal) :
  0 ≤ e → 0 < P → representable P → - (1) ≤ (e ⊖ P) ⊘ P.
Proof.
  intros He HP Hrep.
  assert (H1 : - P ≤ e ⊖ P).
  { replace (- P) with (context_round (- P))
      by (rewrite context_round_opp; f_equal; exact Hrep).
    apply context_round_mono. clear -He. to_Q. lra. }
  rewrite <- context_round_minus_1. apply context_round_mono.
  replace (- (1)) with (- P / P) by (field; by apply Qclt_neq).
  apply Qcdiv_le_mono; assumption.
Qed.

Lemma worst_drawdown_nonpos (ec : list PortfolioSnapshot) :
  worst_drawdown ec ≤ 0.
Proof. destruct (worst_drawdown_spec ec) as [H _]. exact H. Qed.

Lemma Q2R_minus_1 : Q2R (this (- (1))) = (-1)%R.
Proof.
  replace (this (- (1))) with (-1 # 1)%Q by (vm_compute; reflexivity).
  unfold Q2R. cbn [Qnum Qden]. lra.
Qed.

(** X9.  With no negative equity on the curve, the drawdown is at least -1:
    the decimal the function converts is, and so is the float returned,
    when the conversion is monotone and leaves -1 as it is. *)
Theorem max_drawdown_ge_minus_1 (ec : list PortfolioSnapshot) :
  (∀ s, s ∈ ec → 0 ≤ equity s) →
  - (1) ≤ worst_drawdown ec
  ∧ ∀ rnd : R → R,
      (∀ x y : R, (x <= y)%R → (rnd x <= rnd y)%R) →
      rnd (-1)%R = (-1)%R →
      (-1 <= max_drawdown rnd ec)%R.
Proof.
  intros Hpos.
  assert (Hw : - (1) ≤ worst_drawdown ec).
  { destruct ec as [|first rest]; [cbn; dec_compute|].
    unfold worst_drawdown.
    destruct (max_drawdown_loop_least (first :: rest) (equity first) (dec 0)
                (Qcle_refl _)) as (_ & _ & [-> | Hin]); [dec_compute|].
    apply loop_drawdowns_elem in Hin as (l1 & s & l2 & Hec & Hpeak & ->).
    apply drawdown_ge_minus_1; [|exact Hpeak|].
    - apply Hpos. rewrite Hec. apply elem_of_app. right. by left.
    - apply foldl_py_max_representable; [apply equity_representable|].
      apply Forall_forall. intros x (s' & -> & _)%list_elem_of_fmap.
      apply equity_representable. }
  split; [exact Hw|]. intros rnd Hmono Hm1.
  destruct ec as [|first rest]; [cbn; lra|].
  change (max_drawdown rnd (first :: rest))
    with (rnd (Q2R (worst_drawdown (first :: rest)))).
  rewrite <- Hm1 at 1. apply Hmono. rewrite <- Q2R_minus_1.
  apply Qle_Rle. exact Hw.
Qed.

Lemma max_drawdown_ge_minus_1_witness :
  - (1) ≤ worst_drawdown (curve [100; 120; 80; 130]%Z)
  ∧ (-1 <= max_drawdown (λ x, x) (curve [100; 120; 80; 130]%Z))%R.
Proof.
  destruct (max_drawdown_ge_minus_1 (curve [100; 120; 80; 130]%Z))
    as [H1 H2].
  - intros s Hs. cbn in Hs.
    repeat (apply elem_of_cons in Hs as [->|Hs]);
      [vm_compute; discriminate..|].
    by apply not_elem_of_nil in Hs.
  - split; [exact H1|]. apply (H2 (λ x, x)); [intros x y H; exact H|].
    reflexivity.
Defined.

Lemma max_drawdown_loop_app (l l' : list PortfolioSnapshot) :
  ∀ rm w,
    max_drawdown_loop rm w (l ++ l')
    = max_drawdown_loop (foldl py_max rm (equity <$> l))
        (max_drawdown_loop rm w l) l'.
Proof.
  induction l as [|s l IH]; intros rm w; [reflexivity|].
  cbn [app max_drawdown_loop fmap list_fmap foldl]. cbn zeta.
  fold (py_max rm (equity s)).
  destruct (eqb (py_max rm (equity s)) 0); [apply IH|].
  destruct (ltb _ w); apply IH.
Qed.


(** X10.  More history never improves the drawdown: the drawdown of a curve is
    at most the drawdown of any of its prefixes, for the decimal the
    function converts and, when the conversion is monotone and sends 0 to
    0.0, for the float returned. *)
Theorem max_drawdown_extend (ec ec' : list PortfolioSnapshot) :
  worst_drawdown (ec ++ ec') ≤ worst_drawdown ec
  ∧ ∀ rnd : R → R,
      (∀ x y : R, (x <= y)%R → (rnd x <= rnd y)%R) →
      rnd 0%R = 0%R →
      (max_drawdown rnd (ec ++ ec') <= max_drawdown rnd ec)%R.
Proof.
  assert (Hw : worst_drawdown (ec ++ ec') ≤ worst_drawdown ec).
  { destruct ec as [|first rest]; [apply worst_drawdown_nonpos|].
    unfold worst_drawdown. cbn [app].
    change (first :: rest ++ ec') with ((first :: rest) ++ ec').
    rewrite max_drawdown_loop_app.
    destruct (max_drawdown_loop_least ec'
                (foldl py_max (equity first) (equity <$> first :: rest))
                (max_drawdown_loop (equity first) (dec 0) (first :: rest))
                (worst_drawdown_nonpos (first :: rest))) as [H _].
    exact H. }
  split; [exact Hw|]. intros rnd Hmono H0.
  rewrite !(max_drawdown_float rnd H0). unfold float_of_decimal.
  apply Hmono, Qle_Rle, Hw.
Qed.

(** ** Sums and means of decimals *)

Lemma dec_pos (n : Z) : (0 < n)%Z → 0 < dec n.
Proof. intros H. to_Q. unfold Qlt. cbn. lia. Qed.

Lemma dec_length_pos {A} (l : list A) : l ≠ [] → 0 < dec (Z.of_nat (length l)).
Proof. intros H. apply dec_pos. destruct l; [done | cbn; lia]. Qed.

Lemma foldl_Decimal_add_pos (l : list Decimal) :
  ∀ a, 0 ≤ a → l ≠ [] → (∀ x, x ∈ l → 0 < x) → 0 < foldl Decimal_add a l.
Proof.
  induction l as [|x l IH]; [done|]. intros a Ha _ Hall. cbn [foldl].
  assert (Hx : 0 < a ⊕ x).
  { rewrite Decimal_add_comm. apply Decimal_add_pos_nonneg; [|exact Ha].
    apply Hall. left. }
  destruct l as [|y l]; [exact Hx|].
  apply IH; [apply Qclt_le_weak, Hx | done |].
  intros z Hz. apply Hall. by right.
Qed.

Lemma Decimal_add_neg_nonpos (x y : Decimal) : x < 0 → y ≤ 0 → x ⊕ y < 0.
Proof. intros Hx Hy. apply context_round_neg. to_Q. lra. Qed.

Lemma foldl_Decimal_add_neg (l : list Decimal) :
  ∀ a, a ≤ 0 → l ≠ [] → (∀ x, x ∈ l → x < 0) → foldl Decimal_add a l < 0.
Proof.
  induction l as [|x l IH]; [done|]. intros a Ha _ Hall. cbn [foldl].
  assert (Hx : a ⊕ x < 0).
  { rewrite Decimal_add_comm. apply Decimal_add_neg_nonpos; [|exact Ha].
    apply Hall. left. }
  destruct l as [|y l]; [exact Hx|].
  apply IH; [apply Qclt_le_weak, Hx | done |].
  intros z Hz. apply Hall. by right.
Qed.

Lemma py_sum_pos (l : list Decimal) :
  l ≠ [] → (∀ x, x ∈ l → 0 < x) → 0 < py_sum l.
Proof. apply foldl_Decimal_add_pos, Qcle_refl. Qed.

Lemma py_sum_neg (l : list Decimal) :
  l ≠ [] → (∀ x, x ∈ l → x < 0) → py_sum l < 0.
Proof. apply foldl_Decimal_add_neg, Qcle_refl. Qed.

Lemma Qcdiv_neg_pos (x y : Decimal) : x < 0 → 0 < y → x / y < 0.
Proof.
  intros Hx Hy. to_Q.
  assert (Hi : (this y * / this y == 1)%Q) by (apply Qmult_inv_r; lra).
  revert Hi. generalize (/ this y)%Q. intros i Hi. nra.
Qed.

Lemma Decimal_div_neg_pos (x y : Decimal) : x < 0 → 0 < y → x ⊘ y < 0.
Proof.
  intros Hx Hy. apply context_round_neg, Qcdiv_neg_pos; assumption.
Qed.

(** ** average_win_loss *)

Lemma filter_nil_iff {A} (P : A → Prop) `{∀ x, Decision (P x)} (l : list A) :
  filter P l = [] ↔ ∀ x, x ∈ l → ¬ P x.
Proof.
  split.
  - intros Hnil x Hx HP.
    assert (Hin : x ∈ filter P l) by (apply list_elem_of_filter; done).
    rewrite Hnil in Hin. by apply not_elem_of_nil in Hin.
  - intros Hall. destruct (filter P l) as [|y l'] eqn:E; [done|].
    assert (Hin : y ∈ filter P l) by (rewrite E; left).
    apply list_elem_of_filter in Hin as [HP Hy]. by destruct (Hall y Hy).
Qed.

(** X11.  [average_win_loss]: a side is "no data" exactly when no value is
    strictly on that side (zeros count on neither); otherwise it is the
    sum of the values on that side, added up from the left, over their
    number, each operation rounded to 28 significant digits; an average
    win is > 0 and an average loss is < 0. *)
Theorem average_win_loss_spec (pnls : list Decimal) :
  (fst (average_win_loss pnls) = None ↔ ∀ x, x ∈ pnls → ¬ 0 < x)
  ∧ (snd (average_win_loss pnls) = None ↔ ∀ x, x ∈ pnls → ¬ x < 0)
  ∧ (∀ a, fst (average_win_loss pnls) = Some a →
          a = py_sum (filter (λ pnl, 0 < pnl) pnls)
              ⊘ dec (Z.of_nat (length (filter (λ pnl, 0 < pnl) pnls)))
          ∧ 0 < a)
  ∧ (∀ a, snd (average_win_loss pnls) = Some a →
          a = py_sum (filter (λ pnl, pnl < 0) pnls)
              ⊘ dec (Z.of_nat (length (filter (λ pnl, pnl < 0) pnls)))
          ∧ a < 0).
Proof.
  unfold average_win_loss. cbn [fst snd].
  set (wins := filter (λ pnl, 0 < pnl) pnls).
  set (losses := filter (λ pnl, pnl < 0) pnls).
  assert (Hw : ∀ x, x ∈ wins ↔ 0 < x ∧ x ∈ pnls)
    by (intros x; apply (list_elem_of_filter (λ pnl, 0 < pnl))).
  assert (Hl : ∀ x, x ∈ losses ↔ x < 0 ∧ x ∈ pnls)
    by (intros x; apply (list_elem_of_filter (λ pnl, pnl < 0))).
  split_and!.
  - rewrite <- (filter_nil_iff (λ pnl, 0 < pnl)). fold wins.
    destruct wins; split; done.
  - rewrite <- (filter_nil_iff (λ pnl, pnl < 0)). fold losses.
    destruct losses; split; done.
  - intros a Ha.
    assert (Hne : wins ≠ []) by (intros E; rewrite E in Ha; discriminate).
    assert (a = py_sum wins ⊘ dec (Z.of_nat (length wins))) as ->
      by (destruct wins; [done | by injection Ha]).
    split; [reflexivity|].
    apply Decimal_div_pos; [|by apply dec_length_pos].
    apply py_sum_pos; [exact Hne|]. intros x Hx. by apply Hw.
  - intros a Ha.
    assert (Hne : losses ≠ []) by (intros E; rewrite E in Ha; discriminate).
    assert (a = py_sum losses ⊘ dec (Z.of_nat (length losses))) as ->
      by (destruct losses; [done | by injection Ha]).
    split; [reflexivity|].
    apply Decimal_div_neg_pos; [|by apply dec_length_pos].
    apply py_sum_neg; [exact Hne|]. intros x Hx. by apply Hl.
Qed.

(** ** sma *)

Lemma slice_from_last {A} (w : Z) (l : list A) :
  (0 < w)%Z → (w ≤ Z.of_nat (length l))%Z →
  slice_from (- w) l = last_n (Z.to_nat w) l.
Proof.
  intros Hw Hlen. unfold slice_from, last_n.
  replace (- w <? 0)%Z with true by (symmetry; apply Z.ltb_lt; lia).
  f_equal. lia.
Qed.

Lemma length_last_n {A} (n : nat) (l : list A) :
  (n ≤ length l)%nat → length (last_n n l) = n.
Proof. intros H. unfold last_n. rewrite length_drop. lia. Qed.

Lemma last_n_app {A} (n : nat) (pre l : list A) :
  (n ≤ length l)%nat → last_n n (pre ++ l) = last_n n l.
Proof.
  intros H. unfold last_n. rewrite length_app.
  replace (length pre + length l - n)%nat
    with (length pre + (length l - n))%nat by lia.
  apply drop_app_add'. reflexivity.
Qed.

Lemma elem_of_drop_list {A} (x : A) (n : nat) (l : list A) :
  x ∈ drop n l → x ∈ l.
Proof.
  intros H. rewrite <- (take_drop n l). apply elem_of_app. by right.
Qed.

Lemma elem_of_take_list {A} (x : A) (n : nat) (l : list A) :
  x ∈ take n l → x ∈ l.
Proof.
  intros H. rewrite <- (take_drop n l). apply elem_of_app. by left.
Qed.

Lemma sma_ok (bars : list Bar) (window : Z) :
  (0 < window)%Z → (window ≤ Z.of_nat (length bars))%Z →
  sma bars window
  = Ok (py_sum (map close (last_n (Z.to_nat window) bars)) ⊘ dec window).
Proof.
  intros Hw Hlen. unfold sma.
  replace (window <=? 0)%Z with false by (symmetry; apply Z.leb_gt; lia).
  replace (Z.of_nat (length bars) <? window)%Z with false
    by (symmetry; apply Z.ltb_ge; lia).
  cbn. by rewrite slice_from_last.
Qed.

(** X12.  [sma] raises a validation error exactly when the window is <= 0 or
    longer than the history; otherwise it returns the sum of the closes
    of the last [window] bars, added up from the left, over [window],
    each operation rounded to 28 significant digits, and the value is > 0
    when those closes are. *)
Theorem sma_spec (bars : list Bar) (window : Z) :
  (raises_ValueError (sma bars window)
   ↔ (window ≤ 0)%Z ∨ (Z.of_nat (length bars) < window)%Z)
  ∧ ((0 < window)%Z → (window ≤ Z.of_nat (length bars))%Z →
     ∃ v, sma bars window = Ok v
          ∧ v = py_sum (map close (last_n (Z.to_nat window) bars))
                ⊘ dec window
          ∧ ((∀ b, b ∈ last_n (Z.to_nat window) bars → 0 < close b) →
             0 < v)).
Proof.
  split.
  - destruct (Z.leb_spec window 0) as [Hw|Hw].
    + unfold sma. replace (window <=? 0)%Z with true
        by (symmetry; apply Z.leb_le; lia).
      cbn. split; [intros _; by left | intros _; by eexists].
    + destruct (Z.ltb_spec (Z.of_nat (length bars)) window) as [Hl|Hl].
      * unfold sma. replace (window <=? 0)%Z with false
          by (symmetry; apply Z.leb_gt; lia).
        replace (Z.of_nat (length bars) <? window)%Z with true
          by (symmetry; apply Z.ltb_lt; lia).
        cbn. split; [intros _; by right | intros _; by eexists].
      * rewrite sma_ok by lia. split; [intros [msg [=]] | lia].
  - intros Hw Hlen. rewrite sma_ok by lia. eexists.
    split; [reflexivity|]. split; [reflexivity|]. intros Hpos.
    set (closes := map close (last_n (Z.to_nat window) bars)).
    assert (Hlenc : length closes = Z.to_nat window).
    { unfold closes. rewrite length_map. apply length_last_n. lia. }
    assert (Hne : closes ≠ []).
    { intros E. rewrite E in Hlenc. cbn in Hlenc. lia. }
    apply Decimal_div_pos; [|apply dec_pos, Hw].
    apply py_sum_pos; [exact Hne|].
    intros x Hx%list_elem_of_In%in_map_iff.
    destruct Hx as (b & <- & Hb%list_elem_of_In). by apply Hpos.
Qed.

(** X13.  [sma] looks at the last [window] bars only: older history does not
    change its value. *)
Theorem sma_suffix (pre bars : list Bar) (window : Z) :
  (0 < window)%Z → (window ≤ Z.of_nat (length bars))%Z →
  sma (pre ++ bars) window = sma bars window.
Proof.
  intros Hw Hlen. rewrite !sma_ok; try lia.
  - rewrite last_n_app by lia. reflexivity.
  - rewrite length_app. lia.
Qed.

Lemma sma_suffix_witness :
  sma ([flat_bar 0 (dec 50)] ++ [flat_bar 1 (dec 100); flat_bar 2 (dec 110)]) 2
  = sma [flat_bar 1 (dec 100); flat_bar 2 (dec 110)] 2.
Proof. apply sma_suffix; cbn; lia. Defined.

(** On bars that all close at [c], the average is that of [window] copies
    of [c]. *)
Lemma map_close_flat (l : list Bar) (c : Decimal) :
  (∀ b, b ∈ l → close b = c) → map close l = replicate (length l) c.
Proof.
  induction l as [|b l IH]; intros Hflat; [reflexivity|].
  cbn. rewrite (Hflat b) by left. f_equal. apply IH.
  intros b' Hb'. apply Hflat. by right.
Qed.

Lemma sma_flat (bars : list Bar) (window : Z) (c : Decimal) :
  (0 < window)%Z → (window ≤ Z.of_nat (length bars))%Z →
  (∀ b, b ∈ bars → close b = c) →
  sma bars window = Ok (py_sum (replicate (Z.to_nat window) c) ⊘ dec window).
Proof.
  intros Hw Hlen Hflat. rewrite sma_ok by lia. do 2 f_equal.
  rewrite (map_close_flat _ c).
  - rewrite length_last_n by lia. reflexivity.
  - intros b Hb. apply Hflat. unfold last_n in Hb.
    by apply elem_of_drop_list in Hb.
Qed.

(** ** sma_crossover_strategy *)

Lemma length_slice_to_minus_1 {A} (l : list A) :
  length (slice_to (-1) l) = (length l - 1)%nat.
Proof. unfold slice_to. cbn. rewrite length_take. lia. Qed.

Lemma sma_crossover_strategy_returns (bars : list Bar) (fast_w slow_w : Z) :
  (0 < fast_w)%Z → (fast_w < slow_w)%Z →
  (∃ signal, sma_crossover_strategy bars fast_w slow_w = Ok signal)
  ∧ ((Z.of_nat (length bars) < slow_w + 1)%Z →
     sma_crossover_strategy bars fast_w slow_w = Ok SignalType.HOLD).
Proof.
  intros Hf Hfs. unfold sma_crossover_strategy.
  replace (fast_w <=? 0)%Z with false by (symmetry; apply Z.leb_gt; lia).
  replace (slow_w <=? 0)%Z with false by (symmetry; apply Z.leb_gt; lia).
  replace (fast_w >=? slow_w)%Z with false
    by (symmetry; rewrite Z.geb_leb; apply Z.leb_gt; lia).
  cbn [orb raise_if result_bind].
  destruct (Z.ltb_spec (Z.of_nat (length bars)) (slow_w + 1)) as [Hl|Hl].
  - split; [by eexists | done].
  - split; [|lia].
    rewrite !sma_ok
      by (rewrite ?length_slice_to_minus_1; lia).
    cbn [result_bind].
    destruct (leb _ _ && ltb _ _); [by eexists|].
    destruct (leb _ _ && ltb _ _); by eexists.
Qed.

(** X14.  [sma_crossover_strategy] raises a validation error exactly when a
    window is <= 0 or the fast window is not shorter than the slow one;
    with valid windows it always returns a signal (the "not enough data"
    error of [sma] never surfaces), and the signal is HOLD while the
    history has fewer than slow_w + 1 bars. *)
Theorem sma_crossover_strategy_total (bars : list Bar) (fast_w slow_w : Z) :
  (raises_ValueError (sma_crossover_strategy bars fast_w slow_w)
   ↔ (fast_w ≤ 0)%Z ∨ (slow_w ≤ 0)%Z ∨ (slow_w ≤ fast_w)%Z)
  ∧ ((0 < fast_w)%Z → (fast_w < slow_w)%Z →
     (∃ signal, sma_crossover_strategy bars fast_w slow_w = Ok signal)
     ∧ ((Z.of_nat (length bars) < slow_w + 1)%Z →
        sma_crossover_strategy bars fast_w slow_w = Ok SignalType.HOLD)).
Proof.
  pose proof (sma_crossover_strategy_returns bars fast_w slow_w) as Hvalid.
  split; [|exact Hvalid]. split.
  - intros [msg Hraise].
    destruct (Z.leb_spec fast_w 0) as [Hf|Hf]; [by left|].
    destruct (Z.leb_spec slow_w fast_w) as [Hfs|Hfs]; [by right; right|].
    destruct (Hvalid Hf Hfs) as [[signal Hs] _].
    rewrite Hs in Hraise. discriminate.
  - intros H. unfold sma_crossover_strategy.
    destruct (Z.leb_spec fast_w 0) as [Hf|Hf]; [by eexists|].
    destruct (Z.leb_spec slow_w 0) as [Hs|Hs]; [by eexists|].
    cbn [orb raise_if result_bind].
    replace (fast_w >=? slow_w)%Z with true
      by (symmetry; rewrite Z.geb_leb; apply Z.leb_le; lia).
    by eexists.
Qed.

(** X15.  While every bar closes at the same price there is no crossover: the
    signal is HOLD, whatever the length of the history. *)
Theorem sma_crossover_strategy_flat (bars : list Bar) (fast_w slow_w : Z)
    (c : Decimal) :
  (0 < fast_w)%Z → (fast_w < slow_w)%Z →
  (∀ b, b ∈ bars → close b = c) →
  sma_crossover_strategy bars fast_w slow_w = Ok SignalType.HOLD.
Proof.
  intros Hf Hfs Hflat. unfold sma_crossover_strategy.
  replace (fast_w <=? 0)%Z with false by (symmetry; apply Z.leb_gt; lia).
  replace (slow_w <=? 0)%Z with false by (symmetry; apply Z.leb_gt; lia).
  replace (fast_w >=? slow_w)%Z with false
    by (symmetry; rewrite Z.geb_leb; apply Z.leb_gt; lia).
  cbn [orb raise_if result_bind].
  destruct (Z.ltb_spec (Z.of_nat (length bars)) (slow_w + 1)) as [Hl|Hl];
    [reflexivity|].
  assert (Hflat' : ∀ b, b ∈ slice_to (-1) bars → close b = c).
  { intros b Hb. apply Hflat. unfold slice_to in Hb. cbn in Hb.
    by apply elem_of_take_list in Hb. }
  rewrite !(sma_flat bars _ c), !(sma_flat (slice_to (-1) bars) _ c)
    by (rewrite ?length_slice_to_minus_1; (lia || assumption)).
  cbn [result_bind].
  set (fast := py_sum (replicate (Z.to_nat fast_w) c) ⊘ dec fast_w).
  set (slow := py_sum (replicate (Z.to_nat slow_w) c) ⊘ dec slow_w).
  destruct (leb fast slow) eqn:E1; cbn [andb].
  - apply leb_true, ltb_false in E1. rewrite E1.
    destruct (leb slow fast) eqn:E2; cbn [andb]; [|reflexivity].
    apply leb_true, ltb_false in E2. rewrite E2. reflexivity.
  - apply leb_false in E1.
    replace (ltb fast slow) with false
      by (symmetry; apply ltb_false, Qclt_le_weak, E1).
    rewrite andb_false_r. reflexivity.
Qed.

Lemma sma_crossover_strategy_flat_witness :
  sma_crossover_strategy
    (imap (λ i c, flat_bar (Z.of_nat i) c) (replicate 20 (dec 100))) 5 10
  = Ok SignalType.HOLD.
Proof.
  apply (sma_crossover_strategy_flat _ 5 10 (dec 100)); [lia | lia |].
  intros b Hb. cbn in Hb.
  repeat (apply elem_of_cons in Hb as [->|Hb]; [reflexivity|]).
  by apply not_elem_of_nil in Hb.
Defined.

(** X16.  The signal is decided by the last slow_w + 1 bars: older history
    does not change it. *)
Theorem sma_crossover_strategy_suffix (pre bars : list Bar)
    (fast_w slow_w : Z) :
  (0 < fast_w)%Z → (fast_w < slow_w)%Z →
  (slow_w + 1 ≤ Z.of_nat (length bars))%Z →
  sma_crossover_strategy (pre ++ bars) fast_w slow_w
  = sma_crossover_strategy bars fast_w slow_w.
Proof.
  intros Hf Hfs Hlen.
  assert (Happ : ∀ (l : list Bar) w,
            (0 < w)%Z → (w ≤ Z.of_nat (length l))%Z →
            sma (pre ++ l) w = sma l w).
  { intros l w Hw Hl. rewrite !sma_ok; try lia.
    - rewrite last_n_app by lia. reflexivity.
    - rewrite length_app. lia. }
  assert (Hcut : slice_to (-1) (pre ++ bars) = pre ++ slice_to (-1) bars).
  { unfold slice_to. cbn [Z.ltb Z.compare]. rewrite length_app.
    replace (Z.to_nat (Z.of_nat (length pre + length bars) + -1))
      with (length pre + Z.to_nat (Z.of_nat (length bars) + -1))%nat by lia.
    apply take_app_add. }
  unfold sma_crossover_strategy.
  replace (Z.of_nat (length (pre ++ bars)) <? slow_w + 1)%Z with false
    by (symmetry; apply Z.ltb_ge; rewrite length_app; lia).
  replace (Z.of_nat (length bars) <? slow_w + 1)%Z with false
    by (symmetry; apply Z.ltb_ge; lia).
  rewrite Hcut.
  rewrite !Happ by (rewrite ?length_slice_to_minus_1; lia).
  reflexivity.
Qed.

Lemma sma_crossover_strategy_suffix_witness :
  sma_crossover_strategy
    ([flat_bar 0 (dec 50)]
     ++ [flat_bar 1 (dec 100); flat_bar 2 (dec 90); flat_bar 3 (dec 110)])
    1 2
  = sma_crossover_strategy
      [flat_bar 1 (dec 100); flat_bar 2 (dec 90); flat_bar 3 (dec 110)] 1 2.
Proof. apply sma_crossover_strategy_suffix; cbn; lia. Defined.

(** ** win_rate and annualised_volatility *)

Lemma length_filter_all {A} (P : A → Prop) `{∀ x, Decision (P x)}
    (l : list A) :
  (∀ x, x ∈ l → P x) → length (filter P l) = length l.
Proof.
  induction l as [|x l IH]; intros Hall; [reflexivity|].
  rewrite filter_cons_True by (apply Hall; left).
  cbn [length]. f_equal. apply IH. intros y Hy. apply Hall. by right.
Qed.

Lemma length_filter_le {A} (P : A → Prop) `{∀ x, Decision (P x)}
    (l : list A) :
  (length (filter P l) ≤ length l)%nat.
Proof.
  induction l as [|x l IH]; [reflexivity|].
  destruct (decide (P x)).
  - rewrite filter_cons_True by done. cbn [length]. lia.
  - rewrite filter_cons_False by done. cbn [length]. lia.
Qed.

Lemma returns_series_short (ec : list PortfolioSnapshot) :
  (length ec < 2)%nat → returns_series ec = Ok [].
Proof.
  intros H. unfold returns_series.
  by replace (length ec <? 2)%nat with true by (symmetry; apply Nat.ltb_lt, H).
Qed.

Section rounding.

Variable rnd : R → R.
Hypothesis rnd_mono : ∀ x y : R, (x <= y)%R → (rnd x <= rnd y)%R.
Hypothesis rnd_0 : rnd 0%R = 0%R.
Hypothesis rnd_1 : rnd 1%R = 1%R.

Lemma rnd_nonneg (x : R) : (0 <= x)%R → (0 <= rnd x)%R.
Proof. intros H. rewrite <- rnd_0. apply rnd_mono, H. Qed.

(** X17.  With a rounding that is monotone and keeps 0.0 and 1.0, [win_rate]
    is a float in [0, 1]; it is 0.0 when no value is > 0 (in particular
    on no values, and on zeros), and 1.0 when there are values and all
    are > 0. *)
Theorem win_rate_spec (pnls : list Decimal) :
  (0 <= win_rate rnd pnls <= 1)%R
  ∧ ((∀ x, x ∈ pnls → ¬ 0 < x) → win_rate rnd pnls = 0%R)
  ∧ (pnls ≠ [] → (∀ x, x ∈ pnls → 0 < x) → win_rate rnd pnls = 1%R).
Proof.
  unfold win_rate.
  destruct pnls as [|p pnls].
  { cbn. split_and!; [lra | lra | done | intros H; by destruct H]. }
  set (l := p :: pnls).
  replace (length l =? 0)%nat with false by reflexivity. cbn zeta.
  assert (Hn : (0 < INR (length l))%R) by (apply lt_0_INR; cbn; lia).
  pose proof (length_filter_le (λ pnl, 0 < pnl) l) as Hle.
  apply le_INR in Hle.
  pose proof (pos_INR (length (filter (λ pnl, 0 < pnl) l))) as Hw.
  split_and!.
  - apply rnd_nonneg. unfold Rdiv.
    apply Rmult_le_pos; [exact Hw | left; apply Rinv_0_lt_compat, Hn].
  - rewrite <- rnd_1. apply rnd_mono.
    apply (Rmult_le_reg_r (INR (length l))); [exact Hn|].
    unfold Rdiv. rewrite Rmult_assoc, Rinv_l by lra. lra.
  - intros Hnone.
    rewrite (proj2 (filter_nil_iff (λ pnl, 0 < pnl) l) Hnone).
    cbn [length INR]. unfold Rdiv. rewrite Rmult_0_l. exact rnd_0.
  - intros _ Hall.
    rewrite (length_filter_all (λ pnl, 0 < pnl) l Hall).
    unfold Rdiv. rewrite Rinv_r by lra. exact rnd_1.
Qed.

Lemma pstdev_nonneg (values : list R) : (0 <= pstdev rnd values)%R.
Proof. unfold pstdev. cbn zeta. apply rnd_nonneg, sqrt_pos. Qed.

(** X18.  [annualised_volatility], with a rounding that is monotone and keeps
    0.0: an error of [returns_series] is passed on; on fewer than two
    snapshots the result is 0.0 whatever [periods_per_year]; as soon as
    there is one period return a negative [periods_per_year] raises the
    "math domain error" of [math.sqrt]; otherwise the result is a float
    >= 0, and it is 0.0 when the period returns are all identical. *)
Theorem annualised_volatility_spec (ec : list PortfolioSnapshot)
    (periods_per_year : Z) :
  (∀ e, returns_series ec = Raise e →
        annualised_volatility rnd ec periods_per_year = Raise e)
  ∧ ((length ec < 2)%nat →
     annualised_volatility rnd ec periods_per_year = Ok 0%R)
  ∧ (∀ returns, returns_series ec = Ok returns → returns ≠ [] →
        (periods_per_year < 0)%Z →
        annualised_volatility rnd ec periods_per_year
        = Raise (ValueError "math domain error"))
  ∧ (∀ returns, returns_series ec = Ok returns → (0 ≤ periods_per_year)%Z →
        ∃ v, annualised_volatility rnd ec periods_per_year = Ok v
             ∧ (0 <= v)%R
             ∧ ((∀ r r', r ∈ returns.*2 → r' ∈ returns.*2 → r = r') →
                v = 0%R)).
Proof.
  unfold annualised_volatility. split_and!.
  - intros e ->. reflexivity.
  - intros ->%returns_series_short. reflexivity.
  - intros returns -> Hne Hneg. cbn [result_bind].
    destruct returns as [|r returns]; [done|]. cbn [map length Nat.eqb].
    unfold math_sqrt.
    by replace (periods_per_year <? 0)%Z with true
      by (symmetry; apply Z.ltb_lt, Hneg).
  - intros returns -> Hppy. cbn [result_bind].
    destruct returns as [|[ts c] returns].
    { cbn. exists 0%R. split_and!; [done | lra | done]. }
    cbn [map length Nat.eqb]. unfold math_sqrt.
    replace (periods_per_year <? 0)%Z with false
      by (symmetry; apply Z.ltb_ge, Hppy).
    cbn [result_bind]. eexists. split; [reflexivity|]. split.
    + apply rnd_nonneg, Rmult_le_pos; [apply pstdev_nonneg|].
      apply rnd_nonneg, sqrt_pos.
    + intros Hsame.
      rewrite (pstdev_constant rnd rnd_0 (float_of_decimal rnd c)).
      * rewrite Rmult_0_l. exact rnd_0.
      * change (?a :: map ?f ?l) with (map f ((ts, c) :: l)).
        intros x ([ts' c'] & -> & Hx)%list_elem_of_fmap. cbn. f_equal.
        apply Hsame; [|by left].
        apply list_elem_of_fmap. exists (ts', c'). done.
Qed.

End rounding.

Lemma win_rate_spec_witness :
  (0 <= win_rate (λ x, x) [dec 5; dec (-3); dec 0] <= 1)%R
  ∧ ((∀ x, x ∈ [dec 5; dec (-3); dec 0]%list → ¬ 0 < x) →
     win_rate (λ x, x) [dec 5; dec (-3); dec 0] = 0%R)
  ∧ ([dec 5; dec (-3); dec 0]%list ≠ []%list →
     (∀ x, x ∈ [dec 5; dec (-3); dec 0]%list → 0 < x) →
     win_rate (λ x, x) [dec 5; dec (-3); dec 0] = 1%R).
Proof.
  apply (win_rate_spec (λ x, x)).
  - intros x y H. exact H.
  - reflexivity.
  - reflexivity.
Defined.

Lemma annualised_volatility_spec_witness :
  ∃ v, annualised_volatility (λ x, x) (curve [100; 110; 121]%Z) 252 = Ok v
       ∧ (0 <= v)%R.
Proof.
  destruct (annualised_volatility_spec (λ x, x) (λ x y H, H) eq_refl
              (curve [100; 110; 121]%Z) 252) as (_ & _ & _ & H).
  destruct (H [(1%Z, decq 1 10); (2%Z, decq 1 10)]) as (v & Hv & Hpos & _).
  - dec_struct.
  - lia.
  - exists v. split; assumption.
Defined.


(** ** load_bars *)

Lemma size_list_to_set_le (l : list Z) :
  (size (list_to_set l : gset Z) ≤ length l)%nat.
Proof.
  induction l as [|x l IH]; [done|].
  cbn [list_to_set length foldr].
  rewrite size_union_alt, size_singleton.
  assert (size (list_to_set l ∖ {[x]} : gset Z)
          ≤ size (list_to_set l : gset Z))%nat
    by (apply subseteq_size, subseteq_difference_l; reflexivity).
  lia.
Qed.

Lemma size_list_to_set_NoDup (l : list Z) :
  size (list_to_set l : gset Z) = length l ↔ NoDup l.
Proof.
  split; [|apply size_list_to_set].
  induction l as [|x l IH]; [constructor|].
  cbn [list_to_set length foldr]. intros Hsize.
  pose proof (size_list_to_set_le l) as Hle.
  destruct (decide (x ∈ l)) as [Hin|Hnin].
  - exfalso.
    assert (E : ({[x]} ∪ list_to_set l : gset Z) = list_to_set l)
      by (apply subseteq_union_1_L, singleton_subseteq_l,
            elem_of_list_to_set, Hin).
    rewrite E in Hsize. lia.
  - rewrite size_union in Hsize by set_solver.
    rewrite size_singleton in Hsize.
    constructor; [exact Hnin | apply IH; lia].
Qed.

Lemma sorted_fixpoint (l : list Z) : l = sorted l ↔ Sorted Z.le l.
Proof.
  unfold sorted. split.
  - intros ->. apply (Sorted_merge_sort Z.le).
  - intros Hs. apply (Sorted_unique Z.le); [exact Hs | |].
    + apply (Sorted_merge_sort Z.le).
    + symmetry. apply merge_sort_Permutation.
Qed.

Lemma Sorted_lt_le_NoDup (l : list Z) :
  Sorted Z.lt l ↔ Sorted Z.le l ∧ NoDup l.
Proof.
  split.
  - intros Hs%(Sorted_StronglySorted Z.lt). induction Hs as [|x l Hs IH Hall].
    + split; constructor.
    + destruct IH as [IH1 IH2]. split.
      * apply StronglySorted_Sorted. constructor.
        -- by apply (Sorted_StronglySorted Z.le).
        -- eapply Forall_impl; [exact Hall|]. intros y Hy. cbn in Hy. lia.
      * constructor; [|exact IH2]. intros Hin.
        pose proof (proj1 (Forall_forall _ _) Hall x Hin) as Hx.
        cbn in Hx. lia.
  - intros [Hs%(Sorted_StronglySorted Z.le) Hnd].
    apply StronglySorted_Sorted.
    induction Hs as [|x l Hs IH Hall]; [constructor|].
    apply NoDup_cons in Hnd as [Hnin Hnd].
    constructor; [by apply IH|].
    apply Forall_forall. intros y Hy.
    pose proof (proj1 (Forall_forall _ _) Hall y Hy) as Hxy. cbn in Hxy.
    assert (x ≠ y) by (intros ->; contradiction). lia.
Qed.

(** X19.  The checks of [load_bars] on the bars it has read.  They pass exactly
    when there is a bar and the timestamps are strictly ascending, and
    then the bars are returned as they are; each of the three errors is
    characterised: no bar; a timestamp that comes twice (reported before
    the order is looked at); distinct timestamps that are not in ascending
    order. *)
Theorem load_bars_checks_spec (bars : list Bar) :
  (∀ out, load_bars_checks bars = Ok out
          ↔ out = bars ∧ bars ≠ []
            ∧ Sorted Z.lt (map bar_timestamp bars))
  ∧ (load_bars_checks bars = Raise (ValueError "No bar data located.")
     ↔ bars = [])
  ∧ (load_bars_checks bars
     = Raise (ValueError "Duplicate timestamps detected in input.")
     ↔ ¬ NoDup (map bar_timestamp bars))
  ∧ (load_bars_checks bars
     = Raise (ValueError "Bars must be sorted by ascending timestamp.")
     ↔ NoDup (map bar_timestamp bars)
       ∧ ¬ Sorted Z.le (map bar_timestamp bars)).
Proof.
  unfold load_bars_checks.
  destruct bars as [|b bars].
  { cbn. split_and!.
    - intros out. split; [discriminate | by intros (_ & ? & _)].
    - done.
    - split; [discriminate | intros H; destruct H; constructor].
    - split; [discriminate | intros [_ H]; destruct H; constructor]. }
  set (l := b :: bars). set (ts := map bar_timestamp l).
  cbn [raise_if result_bind]. cbn zeta.
  pose proof (size_list_to_set_NoDup ts) as Hnd.
  pose proof (sorted_fixpoint ts) as Hso.
  pose proof (Sorted_lt_le_NoDup ts) as Hlt.
  destruct (length ts =? size (list_to_set ts : gset Z))%nat eqn:E1.
  - apply Nat.eqb_eq in E1. symmetry in E1. apply Hnd in E1.
    cbn [negb raise_if result_bind].
    destruct (bool_decide (ts = sorted ts)) eqn:E2.
    + apply bool_decide_eq_true in E2. apply Hso in E2.
      cbn [negb raise_if result_bind]. split_and!.
      * intros out. split.
        -- intros [= <-]. split_and!; [done | done | by apply Hlt].
        -- by intros (-> & _ & _).
      * split; [discriminate | done].
      * split; [discriminate | by intros H; destruct H].
      * split; [discriminate | by intros [_ H]; destruct H].
    + apply bool_decide_eq_false in E2.
      cbn [negb raise_if result_bind]. split_and!.
      * intros out. split; [discriminate|].
        intros (_ & _ & [H _]%Hlt). destruct E2. by apply Hso.
      * split; [discriminate | done].
      * split; [discriminate | by intros H; destruct H].
      * split; [intros _ | done]. split; [exact E1|].
        intros H. apply E2. by apply Hso.
  - apply Nat.eqb_neq in E1.
    assert (Hdup : ¬ NoDup ts) by (intros H%Hnd; by destruct E1).
    cbn [negb raise_if result_bind]. split_and!.
    + intros out. split; [discriminate|].
      intros (_ & _ & [_ H]%Hlt). by destruct Hdup.
    + split; [discriminate | done].
    + split; [by intros _ | done].
    + split; [discriminate | by intros [H _]; destruct Hdup].
Qed.

(** ** The run of main *)

Lemma position_after_snoc (sides : list side_value) (s : side_value) :
  ∀ long,
    position_after long (sides ++ [s])
    = position_after long sides ≫= λ st, position_after st [s].
Proof.
  induction sides as [|[[|]|repr] sides IH]; intros long; cbn [app].
  - cbn [position_after mbind option_bind]. reflexivity.
  - cbn [position_after]. destruct long; [reflexivity | apply IH].
  - cbn [position_after]. destruct long; [apply IH | reflexivity].
  - reflexivity.
Qed.

Lemma cash_after_snoc (c : Decimal) (ts : list Trade) (t : Trade) :
  cash_after c (ts ++ [t]) = cash_move (cash_after c ts) t.
Proof. unfold cash_after. apply foldl_snoc. Qed.

(** [execute] returns on a valid order and bar, for a BUY and, with a
    slippage rate below 1, for a SELL. *)
Lemma execute_returns (em : ExecutionModel) (order : Order) (bar : Bar)
    (s : Side) :
  ExecutionModel_post_init em = Ok tt → Order_post_init order = Ok tt →
  Bar_post_init bar = Ok tt → order_side order = member s →
  (s = SELL → slippage_rate em < dec 1) →
  ∃ trade, execute em order bar = Ok trade.
Proof.
  intros [Hslip Hfee]%ExecutionModel_post_init_ok Hord Hbar Hside Hbps.
  pose proof Hord as [Hq Hsym]%Order_post_init_ok.
  pose proof (base_price_pos em bar Hbar) as Hbase.
  pose proof (slippage_rate_nonneg em Hslip) as Hrate.
  rewrite (execute_valid_order em order bar Hord).
  eexists. apply construct_ok. split; [|reflexivity].
  apply Trade_post_init_ok. cbn [quantity price fee slippage symbol].
  split_and!; try assumption.
  - unfold fill_price. rewrite Hside. destruct s.
    + eapply Qclt_le_trans; [|by apply mult_one_plus].
      apply context_round_pos, Hbase.
    + apply mult_one_minus_pos; [exact Hbase|]. apply Hbps. reflexivity.
  - apply Decimal_mul_nonneg; [apply copy_abs_nonneg|].
    by apply Qclt_le_weak.
Qed.

(** What [execute] returns carries the side, quantity and symbol of the
    order, and is a valid trade. *)
Lemma execute_ok_inv (em : ExecutionModel) (order : Order) (bar : Bar)
    (trade : Trade) :
  Order_post_init order = Ok tt → execute em order bar = Ok trade →
  Trade_post_init trade = Ok tt
  ∧ side trade = order_side order
  ∧ quantity trade = order_quantity order
  ∧ symbol trade = order_symbol order.
Proof.
  intros Hord Hexec. rewrite (execute_valid_order em order bar Hord) in Hexec.
  apply construct_ok in Hexec as [Hok ->]. done.
Qed.

Lemma mark_to_market_returns pf ts prices :
  (∀ k, is_Some (positions pf !! k) → is_Some (prices !! k)) →
  mark_to_market ts prices pf
  = (Ok {| snap_timestamp := ts; snap_cash := cash pf;
           positions_value :=
             items_value prices (dict_items (positions pf)) |},
     {| cash := cash pf;
        equity_curve :=
          equity_curve pf
          ++ [{| snap_timestamp := ts; snap_cash := cash pf;
                 positions_value :=
                   items_value prices (dict_items (positions pf)) |}];
        positions := positions pf;
        trades := trades pf |}).
Proof.
  intros Hall. unfold mark_to_market. unfold_method.
  rewrite sum_positions_ok; [reflexivity|].
  intros [k p] Hin. apply Hall. by apply (dict_elem_of_is_Some k p).
Qed.

Lemma dict_singleton_lookup {V} (k : string) (v : V) :
  Dict [(k, v)] !! k = Some v.
Proof.
  unfold lookup, dict_lookup. cbn. by rewrite decide_True.
Qed.

Lemma dict_singleton_lookup_Some {V} (k j : string) (v w : V) :
  Dict [(k, v)] !! j = Some w → k = j ∧ v = w.
Proof.
  unfold lookup, dict_lookup. cbn.
  destruct (decide (k = j)); [by intros [= ->] | discriminate].
Qed.

Lemma dict_setitem_empty {V} (k : string) (v : V) :
  dict_setitem k v ∅ = Dict [(k, v)].
Proof. reflexivity. Qed.

Lemma dict_delitem_singleton {V} (k : string) (v : V) :
  dict_delitem k (Dict [(k, v)]) = ∅.
Proof.
  unfold dict_delitem, items_del. cbn [dict_items].
  rewrite filter_cons. cbn. rewrite decide_False by (intros H; by apply H).
  reflexivity.
Qed.

Section run.

Variable args : Namespace.

Lemma run_ledger_start :
  run_ledger args {| cash := args_cash args; equity_curve := [];
                     positions := ∅; trades := [] |}.
Proof.
  split_and!.
  - by apply run_flat.
  - reflexivity.
  - constructor.
  - reflexivity.
Qed.

Lemma run_holdings_flat pf :
  run_holdings args pf → positions pf !! args_symbol args = None →
  positions pf = ∅.
Proof.
  intros [Hflat|p Hp _ _ _ _] Hnone; [exact Hflat|].
  rewrite Hp, dict_singleton_lookup in Hnone. discriminate.
Qed.

Lemma run_holdings_long pf p :
  run_holdings args pf → positions pf !! args_symbol args = Some p →
  positions pf = Dict [(args_symbol args, p)]
  ∧ pos_quantity p = args_quantity args
  ∧ 0 < args_quantity args ∧ 0 < average_price p
  ∧ strip (args_symbol args) ≠ "".
Proof.
  intros [Hflat|p' Hp Hq Hqty Havg Hsym] Hsome.
  - rewrite Hflat in Hsome. discriminate.
  - rewrite Hp, dict_singleton_lookup in Hsome. injection Hsome as <-. done.
Qed.

(** The snapshot at the end of the loop body. *)
Lemma run_mark pf (bar : Bar) :
  run_holdings args pf →
  ∃ s, mark_to_market (bar_timestamp bar) {[args_symbol args := close bar]} pf
       = (Ok s, {| cash := cash pf; equity_curve := equity_curve pf ++ [s];
                   positions := positions pf; trades := trades pf |})
       ∧ run_snapshot args bar s.
Proof.
  intros Hrun. eexists. split.
  - apply mark_to_market_returns. intros k [p Hk].
    destruct Hrun as [Hflat|p' Hp _ _ _ _].
    + rewrite Hflat in Hk. discriminate.
    + rewrite Hp in Hk. apply dict_singleton_lookup_Some in Hk as [<- _].
      rewrite lookup_singleton_eq. by eexists.
  - split; [reflexivity|]. cbn [positions_value].
    destruct Hrun as [Hflat|p' Hp Hq _ _ _].
    + left. rewrite Hflat. reflexivity.
    + right. rewrite Hp. cbn [dict_items]. unfold items_value.
      cbn [foldl]. unfold holding_value. cbn [fst snd].
      rewrite lookup_singleton_eq, Hq. cbn [default from_option].
      unfold Datatypes.id. rewrite Decimal_add_0_l.
      apply context_round_idem.
Qed.

Lemma run_ledger_marked pf s :
  run_ledger args pf →
  run_ledger args {| cash := cash pf; equity_curve := equity_curve pf ++ [s];
                     positions := positions pf; trades := trades pf |}.
Proof.
  intros ([Hflat|p Hp Hq Hqty Havg Hsym] & Hpos & Hall & Hcash);
    (split_and!; [|exact Hpos | exact Hall | exact Hcash]).
  - by apply run_flat.
  - by apply (run_long _ _ p).
Qed.

(** A BUY from flat, when [apply_trade] accepts it. *)
Lemma run_buy pf pf1 (trade : Trade) :
  run_ledger args pf → positions pf !! args_symbol args = None →
  Trade_post_init trade = Ok tt → side trade = member BUY →
  symbol trade = args_symbol args → quantity trade = args_quantity args →
  apply_trade trade pf = (Ok tt, pf1) →
  run_ledger args pf1
  ∧ equity_curve pf1 = equity_curve pf ∧ trades pf1 = trades pf ++ [trade].
Proof.
  intros (Hrun & Hpos & Hall & Hcash) Hnone Hok Hside Hsym Hqty Happ.
  pose proof Hok as (Hq & Hpr & _ & _ & Hstrip)%Trade_post_init_ok.
  destruct (Qclt_le_dec (cash pf) (buy_amount trade)) as [Hc|Hc].
  { rewrite (apply_trade_buy_insufficient pf trade Hside Hc) in Happ.
    discriminate. }
  rewrite <- Hsym in Hnone.
  rewrite (apply_trade_buy_new pf trade Hside Hc Hnone Hok) in Happ.
  injection Happ as <-. cbn [equity_curve trades].
  split_and!; try reflexivity.
  rewrite Hsym in Hnone. rewrite (run_holdings_flat pf Hrun Hnone).
  rewrite Hsym, dict_setitem_empty. split_and!; cbn [positions trades cash].
  - eapply run_long; [reflexivity | | | |].
    + exact Hqty.
    + by rewrite <- Hqty.
    + exact Hpr.
    + by rewrite <- Hsym.
  - rewrite fmap_app. change (side <$> [trade]%list) with [side trade]%list.
    rewrite position_after_snoc, Hpos, Hnone. cbn.
    rewrite Hside, dict_singleton_lookup. reflexivity.
  - apply Forall_app. split; [exact Hall|]. by constructor.
  - rewrite cash_after_snoc, <- Hcash. unfold cash_move. by rewrite Hside.
Qed.

(** A BUY from flat that [apply_trade] refuses is refused for cash. *)
Lemma run_buy_raises pf pf1 (trade : Trade) e :
  positions pf !! symbol trade = None →
  Trade_post_init trade = Ok tt → side trade = member BUY →
  apply_trade trade pf = (Raise e, pf1) →
  e = ValueError "Insufficient cash to execute BUY trade.".
Proof.
  intros Hnone Hok Hside Happ.
  destruct (Qclt_le_dec (cash pf) (buy_amount trade)) as [Hc|Hc].
  - rewrite (apply_trade_buy_insufficient pf trade Hside Hc) in Happ.
    by injection Happ as <- _.
  - rewrite (apply_trade_buy_new pf trade Hside Hc Hnone Hok) in Happ.
    discriminate.
Qed.

(** A SELL of the whole holding is always accepted. *)
Lemma run_sell pf (trade : Trade) p :
  run_ledger args pf → positions pf !! args_symbol args = Some p →
  side trade = member SELL → symbol trade = args_symbol args →
  quantity trade = pos_quantity p →
  ∃ pf1, apply_trade trade pf = (Ok tt, pf1)
         ∧ run_ledger args pf1
         ∧ equity_curve pf1 = equity_curve pf
         ∧ trades pf1 = trades pf ++ [trade].
Proof.
  intros (Hrun & Hpos & Hall & Hcash) Hsome Hside Hsym Hqty.
  destruct (run_holdings_long pf p Hrun Hsome) as (Hp & Hq & _).
  rewrite <- Hsym in Hsome.
  rewrite (apply_trade_sell_all pf trade p Hside Hsome (eq_sym Hqty)).
  eexists. split; [reflexivity|]. cbn [equity_curve trades].
  split_and!; try reflexivity.
  rewrite Hsym in Hsome.
  rewrite Hsym, Hp, dict_delitem_singleton.
  split_and!; cbn [positions trades cash].
  - by apply run_flat.
  - rewrite fmap_app. change (side <$> [trade]%list) with [side trade]%list.
    rewrite position_after_snoc, Hpos, Hsome. cbn.
    rewrite Hside. reflexivity.
  - apply Forall_app. split; [exact Hall|]. constructor; [|constructor].
    split; [exact Hsym | by rewrite Hqty].
  - rewrite cash_after_snoc, <- Hcash. unfold cash_move. by rewrite Hside.
Qed.

(** The end of the loop body, from the ledger [pf1] that the trade of the
    step, if any, has left. *)
Lemma run_mark_step pf pf1 (bar : Bar) (new : list Trade) r pf' :
  run_ledger args pf1 → equity_curve pf1 = equity_curve pf →
  trades pf1 = trades pf ++ new →
  (let (r2, self') :=
     mark_to_market (bar_timestamp bar) {[args_symbol args := close bar]} pf1
   in match r2 with
      | Ok _ => (Ok tt, self')
      | Raise e => (Raise e, self')
      end) = (r, pf') →
  r = Ok tt
  ∧ run_ledger args pf'
  ∧ ∃ s, equity_curve pf' = equity_curve pf ++ [s]
         ∧ run_snapshot args bar s
         ∧ trades pf' = trades pf ++ new.
Proof.
  intros Hled Hcurve Htrades.
  destruct (run_mark pf1 bar (proj1 Hled)) as (s & -> & Hsnap).
  intros [= <- <-]. split_and!; [reflexivity | by apply run_ledger_marked|].
  exists s. cbn [equity_curve trades]. by rewrite Hcurve.
Qed.

(** One turn of the loop of [main] on the ledger of a run.  When it
    returns, the ledger is again the ledger of a run, one snapshot has been
    appended, taken at the bar of the turn, and the trades have only been
    added to.  When it raises, with valid windows, model, quantity, symbol
    and bar, and a slippage rate below 1, it is a BUY that cash does not
    cover. *)
Lemma main_body_step em bars i prev bar pf r pf' :
  run_ledger args pf →
  bars !! (i - 1)%nat = Some prev → bars !! i = Some bar →
  main_body args em bars i pf = (r, pf') →
  match r with
  | Ok _ =>
      run_ledger args pf'
      ∧ ∃ s new, equity_curve pf' = equity_curve pf ++ [s]
                 ∧ run_snapshot args bar s
                 ∧ trades pf' = trades pf ++ new
  | Raise e =>
      (0 < args_fast_window args)%Z →
      (args_fast_window args < args_slow_window args)%Z →
      ExecutionModel_post_init em = Ok tt → slippage_rate em < dec 1 →
      0 < args_quantity args → strip (args_symbol args) ≠ "" →
      Bar_post_init bar = Ok tt →
      e = ValueError "Insufficient cash to execute BUY trade."
  end.
Proof.
  intros Hled Hprev Hbar.
  assert (Htail : ∀ pf1 new,
            run_ledger args pf1 → equity_curve pf1 = equity_curve pf →
            trades pf1 = trades pf ++ new →
            (let (r2, self') :=
               mark_to_market (bar_timestamp bar)
                 {[args_symbol args := close bar]} pf1
             in match r2 with
                | Ok _ => (Ok tt, self')
                | Raise e => (Raise e, self')
                end) = (r, pf') →
            match r with
            | Ok _ =>
                run_ledger args pf'
                ∧ ∃ s new, equity_curve pf' = equity_curve pf ++ [s]
                           ∧ run_snapshot args bar s
                           ∧ trades pf' = trades pf ++ new
            | Raise e =>
                (0 < args_fast_window args)%Z →
                (args_fast_window args < args_slow_window args)%Z →
                ExecutionModel_post_init em = Ok tt →
                slippage_rate em < dec 1 →
                0 < args_quantity args → strip (args_symbol args) ≠ "" →
                Bar_post_init bar = Ok tt →
                e = ValueError "Insufficient cash to execute BUY trade."
            end).
  { intros pf1 new H1 H2 H3 H4.
    destruct (run_mark_step pf pf1 bar new r pf' H1 H2 H3 H4)
      as (-> & Hled' & s & Hs).
    split; [exact Hled'|]. by exists s, new. }
  pose proof (Htail pf []%list Hled eq_refl (eq_sym (app_nil_r _))) as Hhere.
  unfold main_body, getitem_positions. unfold_method. unfold getitem.
  rewrite Hprev, Hbar. cbn beta iota.
  destruct (sma_crossover_strategy _ _ _) as [signal|e] eqn:Hsig;
    cbn beta iota.
  2:{ intros [= <- <-] Hf Hfs _ _ _ _ _.
      destruct (sma_crossover_strategy_returns
                  (slice_to (Z.of_nat i) bars) _ _ Hf Hfs) as [[sg Hsg] _].
      rewrite Hsg in Hsig. discriminate. }
  destruct (positions pf !! args_symbol args) as [p|] eqn:Hpos.
  - replace (bool_decide (is_Some (Some p))) with true
      by (symmetry; apply bool_decide_eq_true_2; by eexists).
    destruct signal; cbn beta iota; [exact Hhere | | exact Hhere].
    rewrite Hpos. cbn beta iota.
    destruct (run_holdings_long pf p (proj1 Hled) Hpos)
      as (_ & Hq & Hqty & _ & Hstrip).
    assert (Hord : Order_post_init
                     {| order_timestamp := bar_timestamp prev;
                        order_side := SELL;
                        order_quantity := pos_quantity p;
                        order_symbol := args_symbol args |} = Ok tt).
    { apply Order_post_init_ok. cbn. by rewrite Hq. }
    unfold new_Order, construct. rewrite Hord. cbn beta iota.
    cbn [result_bind]. cbn beta iota.
    destruct (execute em _ bar) as [trade|e] eqn:Hexec.
    + destruct (execute_ok_inv _ _ _ _ Hord Hexec)
        as (Hok & Hside & Htq & Hsym).
      cbn in Hside, Htq, Hsym.
      destruct (run_sell pf trade p Hled Hpos Hside Hsym Htq)
        as (pf1 & -> & Hled1 & Hc1 & Ht1).
      apply (Htail pf1 [trade]%list); assumption.
    + intros [= <- <-] _ _ Hem Hbps _ _ Hbarok.
      destruct (execute_returns em _ bar SELL Hem Hord Hbarok eq_refl
                  (λ _, Hbps)) as [trade Htrade].
      rewrite Htrade in Hexec. discriminate.
  - replace (bool_decide (is_Some (@None Position))) with false
      by (symmetry; apply bool_decide_eq_false_2; by intros [? [=]]).
    destruct signal; cbn beta iota; [| exact Hhere | exact Hhere].
    destruct (new_Order _) as [order|e] eqn:Hnew.
    + apply construct_ok in Hnew as [Hord ->]. cbn beta iota.
      destruct (execute em _ bar) as [trade|e] eqn:Hexec.
      * destruct (execute_ok_inv _ _ _ _ Hord Hexec)
          as (Hok & Hside & Htq & Hsym).
        cbn in Hside, Htq, Hsym.
        destruct (apply_trade trade pf) as [[[]|e] pf1] eqn:Happ.
        -- destruct (run_buy pf pf1 trade Hled Hpos Hok Hside Hsym Htq Happ)
             as (Hled1 & Hc1 & Ht1).
           apply (Htail pf1 [trade]%list); assumption.
        -- intros [= <- <-] _ _ _ _ _ _ _.
           rewrite <- Hsym in Hpos.
           exact (run_buy_raises pf pf1 trade e Hpos Hok Hside Happ).
      * intros [= <- <-] _ _ Hem _ _ _ Hbarok.
        destruct (execute_returns em _ bar BUY Hem Hord Hbarok eq_refl)
          as [trade Htrade]; [discriminate|].
        rewrite Htrade in Hexec. discriminate.
    + cbn beta iota. intros [= <- <-] _ _ _ _ Hqty Hstrip _.
      assert (Hord : Order_post_init
                       {| order_timestamp := bar_timestamp prev;
                          order_side := BUY;
                          order_quantity := args_quantity args;
                          order_symbol := args_symbol args |} = Ok tt)
        by (by apply Order_post_init_ok).
      unfold new_Order, construct in Hnew. rewrite Hord in Hnew.
      discriminate.
Qed.

End run.

Lemma main_loop_app (body : nat → method unit) (l1 l2 : list nat) :
  ∀ pf,
    main_loop body (l1 ++ l2) pf
    = match main_loop body l1 pf with
      | (Ok _, pf1) => main_loop body l2 pf1
      | (Raise e, pf1) => (Raise e, pf1)
      end.
Proof.
  induction l1 as [|i l1 IH]; intros pf; cbn [app main_loop].
  - reflexivity.
  - unfold_method. destruct (body i pf) as [[[]|e] pf1]; [apply IH | done].
Qed.

Lemma main_loop_ext (body body' : nat → method unit) (l : list nat) :
  (∀ i, i ∈ l → body i = body' i) → main_loop body l = main_loop body' l.
Proof.
  induction l as [|i l IH]; intros Hext; cbn [main_loop]; [reflexivity|].
  rewrite (Hext i) by left. rewrite IH; [reflexivity|].
  intros j Hj. apply Hext. by right.
Qed.

(** The body of the loop reads the bars up to the index of the turn and
    no further. *)
Lemma main_body_app args em (bars more : list Bar) (i : nat) :
  (i < length bars)%nat →
  main_body args em (bars ++ more) i = main_body args em bars i.
Proof.
  intros Hi. unfold main_body, getitem, slice_to.
  replace (Z.of_nat i <? 0)%Z with false by (symmetry; apply Z.ltb_ge; lia).
  rewrite Nat2Z.id.
  rewrite (lookup_app_l bars more (i - 1)) by lia.
  rewrite (lookup_app_l bars more i) by lia.
  rewrite (take_app_le bars more i) by lia.
  reflexivity.
Qed.

(** The loop of [main] on the ledger of a run. *)
Lemma main_loop_run args em (bars : list Bar) (indices : list nat) :
  Forall (λ i, (1 ≤ i < length bars)%nat) indices →
  ∀ pf r pf',
    run_ledger args pf →
    main_loop (main_body args em bars) indices pf = (r, pf') →
    match r with
    | Ok _ =>
        run_ledger args pf'
        ∧ ∃ snaps new,
            equity_curve pf' = equity_curve pf ++ snaps
            ∧ trades pf' = trades pf ++ new
            ∧ Forall2 (λ i s, ∃ bar, bars !! i = Some bar
                                     ∧ run_snapshot args bar s)
                indices snaps
    | Raise e =>
        (0 < args_fast_window args)%Z →
        (args_fast_window args < args_slow_window args)%Z →
        ExecutionModel_post_init em = Ok tt → slippage_rate em < dec 1 →
        0 < args_quantity args → strip (args_symbol args) ≠ "" →
        Forall (λ b, Bar_post_init b = Ok tt) bars →
        e = ValueError "Insufficient cash to execute BUY trade."
    end.
Proof.
  induction 1 as [|i indices [Hi1 Hi2] _ IH]; intros pf r pf' Hled;
    cbn [main_loop].
  - intros [= <- <-]. split; [exact Hled|].
    exists [], []. rewrite !app_nil_r. split_and!; [done | done | constructor].
  - destruct (lookup_lt_is_Some_2 bars (i - 1)) as [prev Hprev]; [lia|].
    destruct (lookup_lt_is_Some_2 bars i) as [bar Hbar]; [lia|].
    unfold_method.
    destruct (main_body args em bars i pf) as [[[]|e] pf1] eqn:Hstep.
    + destruct (main_body_step args em bars i prev bar pf _ _ Hled Hprev Hbar
                  Hstep) as (Hled1 & s & new1 & Hc1 & Hs & Ht1).
      intros Hrest. specialize (IH pf1 r pf' Hled1 Hrest).
      destruct r as [[]|e]; [|exact IH].
      destruct IH as (Hled' & snaps & new & Hc & Ht & HF).
      split; [exact Hled'|]. exists (s :: snaps), (new1 ++ new).
      split_and!.
      * rewrite Hc, Hc1, <- app_assoc. reflexivity.
      * rewrite Ht, Ht1, <- app_assoc. reflexivity.
      * constructor; [|exact HF]. by exists bar.
    + intros [= <- <-] Hf Hfs Hem Hbps Hqty Hsym Hbars.
      apply (main_body_step args em bars i prev bar pf _ _ Hled Hprev Hbar
               Hstep); try assumption.
      apply (proj1 (Forall_forall _ _) Hbars).
      by eapply list_elem_of_lookup_2.
Qed.

Lemma seq_in_bars (bars : list Bar) :
  Forall (λ i, (1 ≤ i < length bars)%nat) (seq 1 (length bars - 1)).
Proof. apply Forall_forall. intros i Hi%elem_of_seq. lia. Qed.

Lemma Forall2_seq_drop {A B} (P : A → B → Prop) (l : list A) (k : list B) :
  Forall2 (λ i y, ∃ x, l !! i = Some x ∧ P x y) (seq 1 (length l - 1)) k →
  Forall2 P (drop 1 l) k.
Proof.
  intros HF. apply Forall2_same_length_lookup_2.
  - rewrite <- (Forall2_length _ _ _ HF), length_seq, length_drop. done.
  - intros j x y Hx Hy. rewrite lookup_drop in Hx.
    assert (Hj : seq 1 (length l - 1) !! j = Some (1 + j)%nat).
    { apply lookup_seq. split; [done|].
      apply lookup_lt_Some in Hy.
      rewrite <- (Forall2_length _ _ _ HF), length_seq in Hy. exact Hy. }
    destruct (Forall2_lookup_lr _ _ _ _ _ _ HF Hj Hy) as (x' & Hx' & HP).
    rewrite Hx in Hx'. by injection Hx' as <-.
Qed.

(** [main] up to its loop: the windows are checked, the model is built,
    and the loop runs on a fresh portfolio. *)
Lemma main_backtest_loop args (bars : list Bar) :
  args_ok args →
  main_backtest args bars
  = match main_loop
            (main_body args
               {| fee_per_trade := args_fee args;
                  slippage_bps := args_slippage_bps args;
                  fill_trade_on := args_fill_trade_on args |} bars)
            (seq 1 (length bars - 1))
            {| cash := args_cash args; equity_curve := [];
               positions := ∅; trades := [] |} with
    | (Ok _, portfolio) => Ok portfolio
    | (Raise e, _) => Raise e
    end.
Proof.
  intros (Hf & Hfs & Hslip & Hfee). unfold main_backtest.
  replace (args_fast_window args <=? 0)%Z with false
    by (symmetry; apply Z.leb_gt; lia).
  replace (args_slow_window args <=? 0)%Z with false
    by (symmetry; apply Z.leb_gt; lia).
  replace (args_fast_window args >=? args_slow_window args)%Z with false
    by (symmetry; rewrite Z.geb_leb; apply Z.leb_gt; lia).
  cbn [orb raise_if result_bind].
  unfold new_ExecutionModel, construct.
  replace (ExecutionModel_post_init _) with (Ok tt)
    by (symmetry; by apply ExecutionModel_post_init_ok).
  reflexivity.
Qed.

Lemma main_backtest_args_ok args (bars : list Bar) pf :
  main_backtest args bars = Ok pf → args_ok args.
Proof.
  unfold main_backtest, args_ok.
  destruct (Z.leb_spec (args_fast_window args) 0) as [Hf|Hf];
    [discriminate|].
  destruct (Z.leb_spec (args_slow_window args) 0) as [Hs|Hs];
    [discriminate|].
  cbn [orb raise_if result_bind].
  destruct (args_fast_window args >=? args_slow_window args)%Z eqn:Hfs;
    [discriminate|].
  rewrite Z.geb_leb in Hfs. apply Z.leb_gt in Hfs.
  cbn [raise_if result_bind].
  destruct (new_ExecutionModel _) as [em|e] eqn:Hem; [|discriminate].
  apply construct_ok in Hem as [[Hslip Hfee]%ExecutionModel_post_init_ok _].
  intros _. done.
Qed.

(** What a run of [main] that returns leaves in the portfolio. *)
Lemma main_backtest_run args (bars : list Bar) pf :
  main_backtest args bars = Ok pf →
  run_ledger args pf
  ∧ Forall2 (run_snapshot args) (drop 1 bars) (equity_curve pf).
Proof.
  intros Hmain. pose proof (main_backtest_args_ok _ _ _ Hmain) as Hargs.
  rewrite (main_backtest_loop args bars Hargs) in Hmain.
  destruct (main_loop _ _ _) as [[[]|e] pf1] eqn:Hloop; [|discriminate].
  injection Hmain as ->.
  destruct (main_loop_run _ _ _ _ (seq_in_bars bars) _ _ _
              (run_ledger_start args) Hloop)
    as (Hled & snaps & new & Hc & _ & HF).
  split; [exact Hled|]. cbn in Hc. rewrite Hc.
  by apply Forall2_seq_drop.
Qed.

(** X20.  A run of [main] that returns.  The holdings are none, or the traded
    symbol alone in the traded quantity; the trades alternate BUY and SELL
    from a flat start, each in the traded symbol and quantity, and the run
    ends long exactly when it holds a position; cash is the starting cash
    after the amounts of the trades have been taken out (BUY) and put in
    (SELL) one after the other, each operation rounded to 28 significant
    digits; there is one snapshot for each bar after the first, taken at
    that bar, whose holdings value is nothing or the traded quantity times
    the close of the bar, rounded; and the snapshots are in strictly
    ascending time order when the bars are. *)
Theorem main_backtest_ledger args (bars : list Bar) (pf : Portfolio) :
  main_backtest args bars = Ok pf →
  run_ledger args pf
  ∧ Forall2 (run_snapshot args) (drop 1 bars) (equity_curve pf)
  ∧ map snap_timestamp (equity_curve pf) = map bar_timestamp (drop 1 bars)
  ∧ (Sorted Z.lt (map bar_timestamp bars) →
     Sorted Z.lt (map snap_timestamp (equity_curve pf))).
Proof.
  intros [Hled HF]%main_backtest_run.
  assert (Hts : map snap_timestamp (equity_curve pf)
                = map bar_timestamp (drop 1 bars)).
  { clear Hled. induction HF as [|bar s l k [Hs _] _ IH]; [reflexivity|].
    cbn [map]. by rewrite Hs, IH. }
  split_and!; [exact Hled | exact HF | exact Hts |].
  rewrite Hts. destruct bars as [|b bars]; [done|].
  cbn [drop map]. rewrite drop_0. intros Hs. by apply Sorted_inv in Hs as [? _].
Qed.

(** X21.  With valid options, a quantity > 0, a symbol that is not blank, a
    slippage rate slippage_bps / 10000 that, rounded to 28 significant
    digits, is below 1, and valid bars, the only error of a run of [main]
    is a BUY that cash does not cover: the strategy, the order and trade
    constructors, every SELL and every mark to market go through. *)
Theorem main_backtest_fails_only_for_cash args (bars : list Bar) :
  args_ok args → args_slippage_bps args ⊘ dec 10000 < dec 1 →
  0 < args_quantity args → strip (args_symbol args) ≠ "" →
  Forall (λ b, Bar_post_init b = Ok tt) bars →
  (∃ pf, main_backtest args bars = Ok pf)
  ∨ main_backtest args bars
    = Raise (ValueError "Insufficient cash to execute BUY trade.").
Proof.
  intros Hargs Hbps Hqty Hsym Hbars.
  rewrite (main_backtest_loop args bars Hargs).
  destruct Hargs as (Hf & Hfs & Hslip & Hfee).
  destruct (main_loop _ _ _) as [[[]|e] pf1] eqn:Hloop; [left; by eexists|].
  right. f_equal.
  apply (main_loop_run _ _ _ _ (seq_in_bars bars) _ _ _
           (run_ledger_start args) Hloop); try assumption.
  by apply ExecutionModel_post_init_ok.
Qed.

(** X22.  No look-ahead.  A run of [main] on a history that has been extended
    with later bars begins as the run on the history alone: that run
    returns too, its equity curve is the first part of the longer one and
    its trades are the first trades of the longer run. *)
Theorem main_backtest_no_lookahead args (bars more : list Bar)
    (pf : Portfolio) :
  main_backtest args (bars ++ more) = Ok pf →
  ∃ pf0, main_backtest args bars = Ok pf0
         ∧ equity_curve pf0 = take (length bars - 1) (equity_curve pf)
         ∧ trades pf0 `prefix_of` trades pf.
Proof.
  intros Hmain. pose proof (main_backtest_args_ok _ _ _ Hmain) as Hargs.
  rewrite (main_backtest_loop args _ Hargs) in Hmain.
  rewrite (main_backtest_loop args bars Hargs).
  destruct bars as [|b bars].
  { eexists. split; [reflexivity|]. split; [reflexivity|].
    apply prefix_nil. }
  set (l := b :: bars) in *.
  set (em := {| fee_per_trade := args_fee args;
                slippage_bps := args_slippage_bps args;
                fill_trade_on := args_fill_trade_on args |}) in *.
  assert (Hl : (1 ≤ length l)%nat) by (cbn; lia).
  assert (Hlen : (length (l ++ more) - 1
                  = (length l - 1) + length more)%nat)
    by (rewrite length_app; lia).
  rewrite Hlen, seq_app, main_loop_app in Hmain.
  rewrite (main_loop_ext _ (main_body args em l)) in Hmain.
  2:{ intros i Hi%elem_of_seq. apply main_body_app. lia. }
  destruct (main_loop _ (seq 1 (length l - 1)) _) as [[[]|e] pf0] eqn:Hloop0;
    [|discriminate].
  exists pf0. split; [reflexivity|].
  destruct (main_loop_run _ _ _ _ (seq_in_bars l) _ _ _
              (run_ledger_start args) Hloop0)
    as (Hled0 & snaps0 & new0 & Hc0 & _ & HF0).
  destruct (main_loop _ _ pf0) as [[[]|e] pf1] eqn:Hloop1; [|discriminate].
  injection Hmain as ->.
  assert (Hrange : Forall (λ i, (1 ≤ i < length (l ++ more))%nat)
                     (seq (1 + (length l - 1)) (length more))).
  { apply Forall_forall. intros i Hi%elem_of_seq. rewrite length_app. lia. }
  destruct (main_loop_run _ _ _ _ Hrange _ _ _ Hled0 Hloop1)
    as (_ & snaps1 & new1 & Hc1 & Ht1 & _).
  split.
  - rewrite Hc1. symmetry. apply take_app_length'.
    cbn in Hc0. rewrite Hc0.
    rewrite <- (Forall2_length _ _ _ HF0), length_seq. reflexivity.
  - rewrite Ht1. by apply prefix_app_r.
Qed.

(** X23.  A file of a single bar passes the checks of [load_bars]; the loop of
    [main] then has no turn to take, the portfolio is left as it was
    created, and [total_return] on its empty equity curve raises. *)
Theorem main_backtest_single_bar args (bar : Bar) :
  args_ok args →
  load_bars_checks [bar]%list = Ok [bar]%list
  ∧ main_backtest args [bar]%list
    = Ok {| cash := args_cash args; equity_curve := [];
            positions := ∅; trades := [] |}
  ∧ ∀ pf, main_backtest args [bar]%list = Ok pf →
          total_return (equity_curve pf)
          = Raise (ValueError "Equity curve does not yet contain any values.").
Proof.
  intros Hargs. rewrite (main_backtest_loop args [bar]%list Hargs).
  split_and!; [| reflexivity |].
  - unfold load_bars_checks. cbn [map raise_if result_bind]. cbn zeta.
    replace (length [bar_timestamp bar]%list
             =? size (list_to_set [bar_timestamp bar]%list : gset Z))%nat
      with true
      by (symmetry; apply Nat.eqb_eq; symmetry;
          apply size_list_to_set_NoDup, NoDup_singleton).
    replace (bool_decide ([bar_timestamp bar]%list
                          = sorted [bar_timestamp bar]%list)) with true
      by (symmetry; apply bool_decide_eq_true_2, sorted_fixpoint;
          repeat constructor).
    reflexivity.
  - cbn. by intros pf [= <-].
Qed.


Lemma main_backtest_ledger_witness :
  ∃ pf, main_backtest example_args example_bars = Ok pf
        ∧ run_ledger example_args pf
        ∧ Forall2 (run_snapshot example_args) (drop 1 example_bars)
            (equity_curve pf)
        ∧ map snap_timestamp (equity_curve pf)
          = map bar_timestamp (drop 1 example_bars)
        ∧ (Sorted Z.lt (map bar_timestamp example_bars) →
           Sorted Z.lt (map snap_timestamp (equity_curve pf))).
Proof.
  destruct (main_backtest example_args example_bars) as [pf|e] eqn:E;
    [|vm_compute in E; discriminate].
  exists pf. split; [reflexivity|].
  apply (main_backtest_ledger example_args example_bars pf E).
Defined.

Lemma main_backtest_fails_only_for_cash_witness :
  (∃ pf, main_backtest example_args example_bars = Ok pf)
  ∨ main_backtest example_args example_bars
    = Raise (ValueError "Insufficient cash to execute BUY trade.").
Proof.
  apply (main_backtest_fails_only_for_cash example_args example_bars).
  - unfold args_ok. cbn. split_and!; (lia || by vm_compute).
  - by vm_compute.
  - by vm_compute.
  - by vm_compute.
  - repeat constructor.
Defined.

Lemma main_backtest_no_lookahead_witness :
  ∃ pf pf0,
    main_backtest example_args (take 4 example_bars ++ drop 4 example_bars)
    = Ok pf
    ∧ main_backtest example_args (take 4 example_bars) = Ok pf0
    ∧ equity_curve pf0
      = take (length (take 4 example_bars) - 1) (equity_curve pf)
    ∧ trades pf0 `prefix_of` trades pf.
Proof.
  destruct (main_backtest example_args
              (take 4 example_bars ++ drop 4 example_bars))
    as [pf|e] eqn:E; [|vm_compute in E; discriminate].
  destruct (main_backtest_no_lookahead example_args (take 4 example_bars)
              (drop 4 example_bars) pf E) as (pf0 & H0 & H1 & H2).
  exists pf, pf0. split; [reflexivity|]. split; [exact H0|].
  split; [exact H1 | exact H2].
Defined.

Lemma main_backtest_single_bar_witness :
  load_bars_checks [flat_bar 0 (dec 100)]%list
  = Ok [flat_bar 0 (dec 100)]%list
  ∧ main_backtest example_args [flat_bar 0 (dec 100)]%list
    = Ok {| cash := args_cash example_args; equity_curve := [];
            positions := ∅; trades := [] |}
  ∧ ∀ pf, main_backtest example_args [flat_bar 0 (dec 100)]%list = Ok pf →
          total_return (equity_curve pf)
          = Raise (ValueError "Equity curve does not yet contain any values.").
Proof.
  apply (main_backtest_single_bar example_args).
  unfold args_ok. cbn. split_and!; (lia || by vm_compute).
Defined.
